(** * Layered configuration resolution of [tfimm/train/config.py]

    A shallow embedding of the configuration converters, the schema
    expansion, the file merger, the argument surface builder and the
    resolution loop of [tfimm.train.config], followed by the properties
    proved about them.

    Modelling conventions.
    - A Python [dict] is an association list with pairwise distinct keys in
      insertion order: [d[k] = v] is [dict_set] (overwrite in place, or
      append), [d.update(e)] is [dict_update].  Iteration order is the list
      order; it matters in [add_default_args].
    - Terminal values are [value]; floating point terminals are left out.
    - A raised exception is [Raise e]; normal return is [Ok v].
    - The interpreter's recursion limit is the [depth] argument of the
      functions whose recursion does not follow the structure of their
      input; exceeding it is [Raise RecursionError].
    - The schema registry ([tfimm/train/registry.py]), [argparse],
      [ast.literal_eval] and the YAML loader are not part of the file; they
      are section variables, and small executable models of them are given
      for the concrete runs. *)

From Stdlib Require Import List String Ascii ZArith Lia Bool Arith PeanoNat FinFun.
Import ListNotations.
Open Scope string_scope.
Open Scope list_scope.

Set Implicit Arguments.
Set Warnings "-register-all".
Set Warnings "-automation".
Set Warnings "-deprecated".
Set Warnings "-notation-overridden".
Set Warnings "-notation-incompatible-prefix".

(* ================================================================== *)
(** ** Values, exceptions, results *)

(** Terminal values of a configuration.  [VMissing] is
    [dataclasses.MISSING], [VNone] is [None].  [VMissingCopy] is what
    [copy.deepcopy] makes of [MISSING]: an object of the class of the
    sentinel that is not the sentinel, so that neither [is MISSING] nor
    [in {None, MISSING}] holds of it. *)
Inductive value : Type :=
| VMissing
| VNone
| VBool (b : bool)
| VInt (z : Z)
| VStr (s : string)
| VTuple (l : list value)
| VList (l : list value)
| VMissingCopy.

(** The types that [type(val)] or a field annotation can name;
    [TMissingType] is the class of [MISSING]. *)
Inductive pytype : Type := TStr | TInt | TBool | TTuple | TList | TMissingType.

(** Exceptions, one constructor per raise site or library failure. *)
Inductive exn : Type :=
| StemNotDict (stem : string)        (* ValueError, config.py line 100 *)
| NotSupplied (key : string)         (* ValueError, config.py line 294 *)
| NoProgress                         (* ValueError, config.py line 298 *)
| ArgumentTypeError (msg : string)   (* config.py lines 210 and 216 *)
| UnknownSchema                      (* get_cfg_class cannot resolve *)
| KeyError (key : string)
| TypeError
| SyntaxError
| MalformedNode                      (* ValueError of ast.literal_eval *)
| ParserExit                         (* argparse's parser.error *)
| OSError
| RecursionError
| AttributeError.

Inductive result (A : Type) : Type :=
| Ok (a : A)
| Raise (e : exn).
Arguments Raise {A} e.

Definition bind {A B} (r : result A) (f : A -> result B) : result B :=
  match r with
  | Ok a => f a
  | Raise e => Raise e
  end.

Declare Scope result_scope.
Notation "x <- c1 ;; c2" := (bind c1 (fun x => c2))
  (at level 61, c1 at next level, right associativity) : result_scope.
Notation "' pat <- c1 ;; c2" := (bind c1 (fun x => match x with pat => c2 end))
  (at level 61, pat pattern, c1 at next level, right associativity) : result_scope.
Open Scope result_scope.

Definition is_ok {A} (r : result A) : bool :=
  match r with Ok _ => true | Raise _ => false end.

(** [for x in l: acc = f(acc, x)] where the body may raise. *)
Fixpoint foldM {A B} (f : A -> B -> result A) (l : list B) (acc : A) : result A :=
  match l with
  | [] => Ok acc
  | x :: tl => acc' <- f acc x ;; foldM f tl acc'
  end.

(* ================================================================== *)
(** ** Python dictionaries *)

Section Dict.
Context {V : Type}.

Definition dict := list (string * V).

Fixpoint dict_get (k : string) (d : dict) : option V :=
  match d with
  | [] => None
  | (k', v) :: tl => if String.eqb k k' then Some v else dict_get k tl
  end.

(** [k in d] *)
Definition dict_mem (k : string) (d : dict) : bool :=
  match dict_get k d with Some _ => true | None => false end.

(** [d[k] = v]: an existing key keeps its position. *)
Fixpoint dict_set (k : string) (v : V) (d : dict) : dict :=
  match d with
  | [] => [(k, v)]
  | (k', v') :: tl =>
      if String.eqb k k' then (k, v) :: tl else (k', v') :: dict_set k v tl
  end.

(** [d.update(e)] *)
Definition dict_update (d e : dict) : dict :=
  fold_left (fun acc kv => dict_set (fst kv) (snd kv) acc) e d.

Definition keys (d : dict) : list string := map fst d.
End Dict.
Arguments dict V : clear implicits.

(* ================================================================== *)
(** ** Python string operations used by the module *)

Definition dot : ascii := "."%char.

(** ["." in key] *)
Fixpoint contains_dot (s : string) : bool :=
  match s with
  | EmptyString => false
  | String c tl => if Ascii.eqb c dot then true else contains_dot tl
  end.

(** [key.split(".", 1)] when ["." in key]: the text before and after the
    first dot. *)
Fixpoint split_dot (s : string) : option (string * string) :=
  match s with
  | EmptyString => None
  | String c tl =>
      if Ascii.eqb c dot then Some (EmptyString, tl)
      else match split_dot tl with
           | Some (root, leaf) => Some (String c root, leaf)
           | None => None
           end
  end.

(** [f"{key}.{sub_key}"] *)
Definition join_dot (key sub_key : string) : string :=
  key ++ String dot sub_key.

Definition class_suffix : string := "_class".

(** [key.endswith(suffix)] *)
Definition endswith (key suffix : string) : bool :=
  (String.length suffix <=? String.length key)%nat &&
  String.eqb (substring (String.length key - String.length suffix)
                        (String.length suffix) key) suffix.

(** [key[:-len(suffix)]] for a non-empty suffix *)
Definition drop_suffix (key suffix : string) : string :=
  substring 0 (String.length key - String.length suffix) key.

(** [f"{key}_class"] *)
Definition selector_of (key : string) : string := key ++ class_suffix.

Definition lower_ascii (c : ascii) : ascii :=
  let n := nat_of_ascii c in
  if ((65 <=? n) && (n <=? 90))%nat then ascii_of_nat (n + 32) else c.

(** [v.lower()] on ASCII text *)
Fixpoint lower (s : string) : string :=
  match s with
  | EmptyString => EmptyString
  | String c tl => String (lower_ascii c) (lower tl)
  end.

(* ================================================================== *)
(** ** Configurations *)

(** Nested configuration with leaves of type [L]: [L = value] is the
    dictionary format, [L = pytype * value] the argument format. *)
Inductive node (L : Type) : Type :=
| Leaf (x : L)
| Dict (items : list (string * node L)).
Arguments Leaf {L} x.
Arguments Dict {L} items.

Definition cfg (L : Type) := list (string * node L).

(** Configuration in class format: dataclass instances may occur as
    values, and their fields may again hold instances or dictionaries. *)
Inductive obj : Type :=
| OVal (v : value)
| ODict (items : list (string * obj))
| OInst (cls : string) (fields : list (string * obj)).

(** A dataclass field: [field.name], [field.type], [field.default]
    ([VMissing] when the field has no default). *)
Record field : Type := mkField {
  fname : string;
  ftype : pytype;
  fdefault : value
}.

(** [dataclasses.fields(cls)], with the name the class is registered under. *)
Record schema : Type := mkSchema {
  sname : string;
  sfields : list field
}.

(* ------------------------------------------------------------------ *)
(** *** to_dict_format *)

(** [copy.deepcopy] of a terminal: an equal value, except that the copy
    of [MISSING] is no longer [MISSING]. *)
Fixpoint deepcopy (v : value) : value :=
  match v with
  | VMissing => VMissingCopy
  | VTuple l => VTuple (map deepcopy l)
  | VList l => VList (map deepcopy l)
  | _ => v
  end.

(** [dataclasses.asdict]: instances and dictionaries become dictionaries,
    recursively; lists and tuples are rebuilt, and every other value is
    replaced by its [copy.deepcopy]. *)
Fixpoint asdict_inner (o : obj) : node value :=
  match o with
  | OVal v => Leaf (deepcopy v)
  | ODict items => Dict (map (fun kv => (fst kv, asdict_inner (snd kv))) items)
  | OInst _ fields => Dict (map (fun kv => (fst kv, asdict_inner (snd kv))) fields)
  end.

Fixpoint to_dict_format_obj (o : obj) : node value :=
  match o with
  | OVal v => Leaf v
  | ODict items =>
      Dict (fold_left
              (fun res_cfg kv => dict_set (fst kv) (to_dict_format_obj (snd kv)) res_cfg)
              items [])
  | OInst _ _ => asdict_inner o
  end.

Definition to_dict_format (c : list (string * obj)) : cfg value :=
  fold_left
    (fun res_cfg kv => dict_set (fst kv) (to_dict_format_obj (snd kv)) res_cfg)
    c [].

(* ------------------------------------------------------------------ *)
(** *** to_arg_format *)

Fixpoint hashable (v : value) : bool :=
  match v with
  | VList _ => false
  | VTuple l => forallb hashable l
  | _ => true
  end.

(** [type(val)] *)
Definition type_of (v : value) : pytype :=
  match v with
  | VBool _ => TBool
  | VInt _ => TInt
  | VTuple _ => TTuple
  | VList _ => TList
  | VMissingCopy => TMissingType
  | _ => TStr
  end.

(** [(type(val) if val not in {None, MISSING} else str, val)]; the set
    membership test hashes [val]. *)
Definition arg_leaf (v : value) : result (pytype * value) :=
  if hashable v then
    match v with
    | VNone | VMissing => Ok (TStr, v)
    | _ => Ok (type_of v, v)
    end
  else Raise TypeError.

Fixpoint to_arg_format_node (n : node value) : result (node (pytype * value)) :=
  match n with
  | Leaf v => p <- arg_leaf v ;; Ok (Leaf p)
  | Dict items =>
      r <- foldM (fun res_cfg kv =>
                    a <- to_arg_format_node (snd kv) ;;
                    Ok (dict_set (fst kv) a res_cfg))
                 items [] ;;
      Ok (Dict r)
  end.

Definition to_arg_format (c : cfg value) : result (cfg (pytype * value)) :=
  foldM (fun res_cfg kv =>
           a <- to_arg_format_node (snd kv) ;;
           Ok (dict_set (fst kv) a res_cfg))
        c [].

(* ------------------------------------------------------------------ *)
(** *** deep_to_flat *)

Section Flat.
Context {L : Type}.

(** One iteration of the loop of [deep_to_flat]; [flat_val] is the
  recursive call on a nested dictionary. *)
Definition deep_step (flat_val : node L -> dict L)
           (res_cfg : dict L) (kv : string * node L) : dict L :=
  match snd kv with
  | Dict _ =>
      fold_left (fun res sub => dict_set (join_dot (fst kv) (fst sub)) (snd sub) res)
                (flat_val (snd kv)) res_cfg
  | Leaf x => dict_set (fst kv) x res_cfg
  end.

Fixpoint deep_to_flat_node (n : node L) : dict L :=
  match n with
  | Leaf _ => []
  | Dict items => fold_left (deep_step deep_to_flat_node) items []
  end.

Definition deep_to_flat (c : cfg L) : dict L :=
  fold_left (deep_step deep_to_flat_node) c [].

(* ---------------------------------------------------------------- *)
(** *** flat_to_deep *)

(** A value of [res_cfg] during the first loop of [flat_to_deep]: a
  terminal, or the dictionary collecting the leaves of one root. *)
Inductive slot : Type :=
| Term (x : L)
| Group (g : dict L).

(** One iteration of the first loop.  [res_cfg[root][leaf] = val] on a
  terminal is a [TypeError]. *)
Definition group_step (res_cfg : dict slot) (kv : string * L) : result (dict slot) :=
  match split_dot (fst kv) with
  | Some (root, leaf) =>
      let res1 := if dict_mem root res_cfg then res_cfg
                  else dict_set root (Group []) res_cfg in
      match dict_get root res1 with
      | Some (Group g) => Ok (dict_set root (Group (dict_set leaf (snd kv) g)) res1)
      | Some (Term _) => Raise TypeError
      | None => Raise (KeyError root)
      end
  | None => Ok (dict_set (fst kv) (Term (snd kv)) res_cfg)
  end.

(** The second loop replaces every group by its nested form, in place. *)
Fixpoint resolve_groups (rec : dict L -> result (cfg L)) (res_cfg : dict slot)
  : result (cfg L) :=
  match res_cfg with
  | [] => Ok []
  | (key, Term x) :: tl =>
      r <- resolve_groups rec tl ;; Ok ((key, Leaf x) :: r)
  | (key, Group g) :: tl =>
      d <- rec g ;; r <- resolve_groups rec tl ;; Ok ((key, Dict d) :: r)
  end.

Fixpoint flat_to_deep_rec (fuel : nat) (c : dict L) : result (cfg L) :=
  match fuel with
  | O => Raise RecursionError
  | S n =>
      res_cfg <- foldM group_step c [] ;;
      resolve_groups (flat_to_deep_rec n) res_cfg
  end.

(** Number of dots of a key: the nesting depth it encodes. *)
Fixpoint dots (s : string) : nat :=
  match s with
  | EmptyString => 0
  | String c tl => if Ascii.eqb c dot then S (dots tl) else dots tl
  end.

Definition max_dots (c : dict L) : nat := list_max (map (fun kv => dots (fst kv)) c).

(** The recursion of [flat_to_deep] strips one dot per level, so its
  depth is bounded by the keys themselves (see [flat_to_deep_fuel]). *)
Definition flat_to_deep (c : dict L) : result (cfg L) :=
flat_to_deep_rec (S (max_dots c)) c.
End Flat.

(* ================================================================== *)
(** ** The module proper *)

(** [for x in l] collecting results, where the body may raise. *)
Fixpoint mapM {A B} (f : A -> result B) (l : list A) : result (list B) :=
  match l with
  | [] => Ok []
  | x :: tl => y <- f x ;; ys <- mapM f tl ;; Ok (y :: ys)
  end.

(** Leaves of the argument format: [(type, value)]. *)
Definition arg := (pytype * value)%type.

(** How [argparse] converts the text of one switch
    ([kwargs["type"]] in [get_arg_parser]). *)
Inductive arg_type : Type :=
| ByStr2bool
| ByArgAsTuple
| ByType (tp : pytype).

(** One [parser.add_argument(f"--{arg}", dest=arg, ...)]; [adefault] is
    [None] when no default is passed, so that the parser-wide
    [argparse.SUPPRESS] applies. *)
Record argument : Type := mkArgument {
  dest : string;
  adefault : option value;
  atype : arg_type
}.

(** [v is MISSING] *)
Definition is_missing (v : value) : bool :=
  match v with
  | VMissing => true
  | _ => false
  end.

(** [str2bool] *)
Definition str2bool (v : string) : result value :=
  if existsb (String.eqb (lower v)) ["yes"; "true"; "t"; "y"; "1"] then Ok (VBool true)
  else if existsb (String.eqb (lower v)) ["no"; "false"; "f"; "n"; "0"] then Ok (VBool false)
  else Raise (ArgumentTypeError "Boolean value expected.").

(** [{field.name: (field.type, field.default) for field in fields}] *)
Definition params_of (cls : schema) : cfg arg :=
  fold_left (fun params f => dict_set (fname f) (Leaf (ftype f, fdefault f)) params)
            (sfields cls) [].

(** [get_arg_parser]: the list of registered switches, in order. *)
Definition get_arg_parser (c : dict arg) : list argument :=
  map (fun kv =>
         let '(tp, val) := snd kv in
         {| dest := fst kv;
            adefault := match val with VMissing => None | _ => Some val end;
            atype := match tp with
                     | TBool => ByStr2bool
                     | TTuple => ByArgAsTuple
                     | _ => ByType tp
                     end |})
      c.

(** The check of lines 292 to 294: the first surface key without a parsed
    value raises. *)
Fixpoint check_supplied (surface : list string) (parsed_cfg : dict value) : result unit :=
  match surface with
  | [] => Ok tt
  | key :: tl =>
      if dict_mem key parsed_cfg then check_supplied tl parsed_cfg
      else Raise (NotSupplied key)
  end.

(** The dataclass constructor called with keyword arguments [val]:
    unexpected keywords and fields without a
    value or a default are a [TypeError]. *)
Definition construct (cls : schema) (kwargs : dict obj) : result obj :=
  if forallb (fun k => existsb (String.eqb k) (map fname (sfields cls))) (keys kwargs) then
    fields <- mapM (fun f =>
                      match dict_get (fname f) kwargs with
                      | Some o => Ok (fname f, o)
                      | None =>
                          match fdefault f with
                          | VMissing => Raise TypeError
                          | d => Ok (fname f, OVal d)
                          end
                      end)
                   (sfields cls) ;;
    Ok (OInst (sname cls) fields)
  else Raise TypeError.

(** State of the [while] loop of [parse_args]. *)
Record loop_state : Type := mkState {
  st_cfg : cfg value;
  nb_unparsed : nat;
  unparsed : option (list string);     (* [None] before the first parse *)
  continue_parsing : bool
}.

(** The flag computed at the top of the loop body (line 272). *)
Definition continue_flag (st : loop_state) : bool :=
  match unparsed st with
  | None => true
  | Some u => (0 <? List.length u)%nat
  end.

(** The loop variables agree: after a pass, [nb_unparsed] is the length
    of [unparsed]. *)
Definition consistent (st : loop_state) : Prop :=
  match unparsed st with
  | None => True
  | Some u => nb_unparsed st = List.length u
  end.

Section Config.
(** The registry of [tfimm/train/registry.py]. *)
Variable registry : string -> option schema.
(** [ast.literal_eval]. *)
Variable literal_eval : string -> result value.
(** [ArgumentParser.parse_known_args] on the registered switches: the
  namespace as a dictionary, and the tokens left over. *)
Variable parse_known_args : list argument -> list string -> result (dict value * list string).
(** [open(path)] followed by [yaml.load]. *)
Variable load_yaml : value -> result (node value).
(** [sys.argv[1:]] *)
Variable sys_argv : list string.
(** The recursion limit of the interpreter. *)
Variable depth : nat.

(** Modelled from the spec: [get_cfg_class] of [tfimm/train/registry.py]
  is missing; the spec gives [lookup(name: string) -> SchemaDescriptor |
  NotFound], and a selector that is not a registered name aborts with
  UnknownSchema. *)
Definition get_cfg_class (name : value) : result schema :=
  match name with
  | VStr n => match registry n with
              | Some cls => Ok cls
              | None => Raise UnknownSchema
              end
  | _ => Raise UnknownSchema
  end.

(** [arg_as_tuple] *)
Definition arg_as_tuple (s : string) : result value :=
  v <- literal_eval s ;;
  match v with
  | VTuple _ => Ok v
  | _ => Raise (ArgumentTypeError ("Argument " ++ s ++ " is not a tuple"))
  end.

(* ---------------------------------------------------------------- *)
(** *** add_default_args *)

(** Lines 95 to 106: the fields of the class with their defaults,
    overlaid with what the configuration already holds under the stem. *)
Definition merged_params (c : cfg arg) (stem : string) (cls : schema) : result (cfg arg) :=
  let params := params_of cls in
  match dict_get stem c with
  | Some (Dict sub) => Ok (dict_update params sub)
  | Some (Leaf _) => Raise (StemNotDict stem)
  | None => Ok params
  end.

(** The body of the loop of [add_default_args] on [cfg = c]; [rec] is
    the recursive call. *)
Definition add_step (rec : cfg arg -> result (cfg arg)) (c : cfg arg)
           (res_cfg : cfg arg) (kv : string * node arg) : result (cfg arg) :=
  let key := fst kv in
  match snd kv with
  | Dict sub =>
      r <- rec sub ;; Ok (dict_set key (Dict r) res_cfg)
  | Leaf val =>
      if endswith key class_suffix then
        let res_cfg := dict_set key (Leaf val) res_cfg in
        if is_missing (snd val) then Ok res_cfg
        else
          cls <- get_cfg_class (snd val) ;;
          let stem := drop_suffix key class_suffix in
          params <- merged_params c stem cls ;;
          r <- rec params ;;
          Ok (dict_set stem (Dict r) res_cfg)
      else Ok (dict_set key (Leaf val) res_cfg)
  end.

Fixpoint add_default_args_rec (d : nat) (c : cfg arg) : result (cfg arg) :=
  match d with
  | O => Raise RecursionError
  | S d' => foldM (add_step (add_default_args_rec d') c) c []
  end.

Definition add_default_args (c : cfg arg) : result (cfg arg) :=
  add_default_args_rec depth c.

(* ---------------------------------------------------------------- *)
(** *** to_cls_format *)

Definition cls_step (rec : node value -> result (dict obj)) (c : cfg value)
           (res_cfg : dict obj) (kv : string * node value) : result (dict obj) :=
  let key := fst kv in
  match snd kv with
  | Dict _ =>
      val <- rec (snd kv) ;;
      cls <- match dict_get (selector_of key) c with
             | Some (Leaf name) => get_cfg_class name
             | Some (Dict _) => Raise UnknownSchema
             | None => Raise (KeyError (selector_of key))
             end ;;
      o <- construct cls val ;;
      Ok (dict_set key o res_cfg)
  | Leaf v => Ok (dict_set key (OVal v) res_cfg)
  end.

Fixpoint to_cls_format_node (n : node value) : result (dict obj) :=
  match n with
  | Leaf _ => Ok []
  | Dict items => foldM (cls_step to_cls_format_node items) items []
  end.

Definition to_cls_format (c : cfg value) : result (dict obj) :=
  foldM (cls_step to_cls_format_node c) c [].

(* ---------------------------------------------------------------- *)
(** *** apply_cfg_file *)

Definition cfg_file_key : string := "cfg_file".

(** [deep_to_flat(loaded_cfg)]: only a mapping has [items()]; on any
    other document, also the [None] of an empty file, the call of
    [cfg.items()] is an [AttributeError]. *)
Definition flatten_loaded (loaded_cfg : node value) : result (dict value) :=
  match loaded_cfg with
  | Dict items => Ok (deep_to_flat items)
  | Leaf _ => Raise AttributeError
  end.

(** The default of the [--cfg_file] switch is [cfg["cfg_file"]],
    whatever it is.  A dictionary cannot be the default of a modelled
    switch: the switch is then registered without default, and a
    namespace without [cfg_file] stands for the one that holds the
    dictionary, which [open] rejects with a [TypeError].  With a
    terminal as default the namespace always holds [cfg_file]; reading
    the attribute of a namespace without it is an [AttributeError]. *)
Definition apply_cfg_file (c : cfg value) (args : list string) : result (cfg value) :=
  match dict_get cfg_file_key c with
  | None => Raise (KeyError cfg_file_key)
  | Some dflt =>
      '(namespace, _) <- parse_known_args
                           [ {| dest := cfg_file_key;
                                adefault := match dflt with
                                            | Leaf v => Some v
                                            | Dict _ => None
                                            end;
                                atype := ByType TStr |} ] args ;;
      match dict_get cfg_file_key namespace with
      | None => match dflt with
                | Leaf _ => Raise AttributeError
                | Dict _ => Raise TypeError
                end
      | Some VMissing => Ok c
      | Some cfg_file =>
          loaded_cfg <- load_yaml cfg_file ;;
          let c' := deep_to_flat c in
          loaded_cfg <- flatten_loaded loaded_cfg ;;
          let c' := dict_update c' loaded_cfg in
          flat_to_deep c'
      end
  end.

(* ---------------------------------------------------------------- *)
(** *** parse_args *)

Section Loop.
Variable args : list string.

(** Lines 276 to 288: the argument surface [cfg] and the result of
parsing against it. *)
Definition parse_round (c : cfg value)
  : result (dict arg * (dict value * list string)) :=
  c <- to_arg_format c ;;
  c <- add_default_args c ;;
  let c := deep_to_flat c in
  let parser := get_arg_parser c in
  r <- parse_known_args parser args ;;
  Ok (c, r).

(** One pass through the body of the [while] loop. *)
Definition iteration (st : loop_state) : result loop_state :=
  let continue := continue_flag st in
  '(c, (parsed_cfg, unparsed')) <- parse_round (st_cfg st) ;;
  _ <- check_supplied (keys c) parsed_cfg ;;
  if continue && (nb_unparsed st <=? List.length unparsed')%nat then Raise NoProgress
  else
    c' <- flat_to_deep parsed_cfg ;;
    Ok {| st_cfg := c'; nb_unparsed := List.length unparsed';
          unparsed := Some unparsed'; continue_parsing := continue |}.

(** [while continue_parsing: ...], with the number of passes through
the body; [None] when [fuel] passes were not enough. *)
Fixpoint while_loop (fuel : nat) (st : loop_state)
  : nat * option (result (cfg value)) :=
  if continue_parsing st then
    match fuel with
    | O => (O, None)
    | S n =>
        match iteration st with
        | Raise e => (1%nat, Some (Raise e))
        | Ok st' => let '(k, r) := while_loop n st' in (S k, r)
        end
    end
  else (O, Some (Ok (st_cfg st))).
End Loop.

(** Lines 255 to 263: the tokens to parse, and the configuration in
  dictionary format after the configuration file was applied. *)
Definition actual_args (args : option (list string)) : list string :=
  match args with None => sys_argv | Some a => a end.

Definition before_loop (c : dict obj) (args : list string) : result (cfg value) :=
  let c := to_dict_format c in
  if dict_mem cfg_file_key c then apply_cfg_file c args else Ok c.

Definition initial_state (c : cfg value) (args : list string) : loop_state :=
  {| st_cfg := c; nb_unparsed := List.length args;
     unparsed := None; continue_parsing := true |}.

(** [parse_args(cfg, args)]: the number of passes through the loop and
  the outcome. *)
Definition parse_args_run (fuel : nat) (c : dict obj) (args : option (list string))
  : nat * option (result (dict obj)) :=
  let args := actual_args args in
  match before_loop c args with
  | Raise e => (O, Some (Raise e))
  | Ok c =>
      let '(k, r) := while_loop args fuel (initial_state c args) in
      (k, match r with
          | None => None
          | Some (Raise e) => Some (Raise e)
          | Some (Ok c) => Some (to_cls_format c)
          end)
  end.

Definition parse_args (fuel : nat) (c : dict obj) (args : option (list string))
  : option (result (dict obj)) :=
  snd (parse_args_run fuel c args).

Definition parse_args_iterations (fuel : nat) (c : dict obj) (args : option (list string))
: nat :=
fst (parse_args_run fuel c args).
End Config.

(* ================================================================== *)
(** ** Executable models of the libraries, for the concrete runs *)

Module Models.

(** *** ast.literal_eval

  The model covers decimal integers with an optional sign, [None],
  [True], [False], quoted strings without escapes, tuples and lists,
  with blanks between tokens.  A name that is no constant is a
  [ValueError] ([MalformedNode]); text outside the grammar is a
  [SyntaxError].  The grammar is a part of what [ast.literal_eval]
  accepts: floats, dictionaries, sets, bytes, escapes and a tuple
  written without parentheses are outside the model, which takes them
  for text outside the grammar; no run of this file evaluates one. *)

Inductive token : Type :=
| KLParen | KRParen | KLBrack | KRBrack | KComma | KMinus | KPlus
| KNum (z : Z) | KName (s : string) | KStr (s : string).

Definition is_digit (c : ascii) : bool :=
  let n := nat_of_ascii c in ((48 <=? n) && (n <=? 57))%nat.

Definition is_alpha (c : ascii) : bool :=
  let n := nat_of_ascii c in
  ((65 <=? n) && (n <=? 90) || (97 <=? n) && (n <=? 122) || (n =? 95))%nat.

Definition is_blank (c : ascii) : bool :=
  let n := nat_of_ascii c in ((n =? 32) || (n =? 9))%nat.

Definition digit_val (c : ascii) : Z := Z.of_nat (nat_of_ascii c - 48).

(** Longest prefix of characters satisfying [p], and the rest. *)
Fixpoint span (p : ascii -> bool) (s : string) : string * string :=
  match s with
  | EmptyString => (EmptyString, EmptyString)
  | String c tl =>
      if p c then let '(a, b) := span p tl in (String c a, b)
      else (EmptyString, s)
  end.

Fixpoint digits_val (s : string) (acc : Z) : Z :=
  match s with
  | EmptyString => acc
  | String c tl => digits_val tl (10 * acc + digit_val c)%Z
  end.

(** Text up to the closing quote [q]. *)
Fixpoint until_quote (q : ascii) (s : string) : option (string * string) :=
  match s with
  | EmptyString => None
  | String c tl =>
      if Ascii.eqb c q then Some (EmptyString, tl)
      else if Ascii.eqb c "\"%char then None
      else match until_quote q tl with
           | Some (a, b) => Some (String c a, b)
           | None => None
           end
  end.

Fixpoint tokenize (fuel : nat) (s : string) : option (list token) :=
  match fuel with
  | O => None
  | S n =>
      match s with
      | EmptyString => Some []
      | String c tl =>
          let single k := option_map (cons k) (tokenize n tl) in
          if is_blank c then tokenize n tl
          else if Ascii.eqb c "("%char then single KLParen
          else if Ascii.eqb c ")"%char then single KRParen
          else if Ascii.eqb c "["%char then single KLBrack
          else if Ascii.eqb c "]"%char then single KRBrack
          else if Ascii.eqb c ","%char then single KComma
          else if Ascii.eqb c "-"%char then single KMinus
          else if Ascii.eqb c "+"%char then single KPlus
          else if is_digit c then
            let '(ds, rest) := span is_digit s in
            match ds, rest with
            | String "0"%char (String _ _), _ => None
            | _, String c' _ =>
                if is_alpha c' then None
                else option_map (cons (KNum (digits_val ds 0))) (tokenize n rest)
            | _, EmptyString => Some [KNum (digits_val ds 0)]
            end
          else if is_alpha c then
            let '(name, rest) := span (fun x => is_alpha x || is_digit x) s in
            option_map (cons (KName name)) (tokenize n rest)
          else if Ascii.eqb c "'"%char || Ascii.eqb c (ascii_of_nat 34) then
            match until_quote c tl with
            | Some (body, rest) => option_map (cons (KStr body)) (tokenize n rest)
            | None => None
            end
          else None
      end
  end.

(** Outcome of parsing one expression: the value (or an evaluation
  error) and the tokens left; [None] is a syntax error. *)
Fixpoint parse_expr (fuel : nat) (ts : list token)
  : option (result value * list token) :=
  match fuel with
  | O => None
  | S n =>
      (* comma separated expressions up to [close]; the flag tells
         whether a comma was seen *)
      let items :=
        fix items (k : nat) (close : token -> bool) (ts : list token)
                  (acc : list value) (comma : bool) (err : option exn)
          : option ((result (list value) * bool) * list token) :=
          match k with
          | O => None
          | S k' =>
              match ts with
              | [] => None
              | t :: rest =>
                  if close t then
                    Some ((match err with
                           | Some e => Raise e
                           | None => Ok (rev acc)
                           end, comma), rest)
                  else
                    match parse_expr n ts with
                    | None => None
                    | Some (r, rest1) =>
                        let acc' := match r with Ok v => v :: acc | Raise _ => acc end in
                        let err' := match err, r with
                                    | Some e, _ => Some e
                                    | None, Raise e => Some e
                                    | None, Ok _ => None
                                    end in
                        match rest1 with
                        | KComma :: rest2 => items k' close rest2 acc' true err'
                        | t' :: rest2 =>
                            if close t' then
                              Some ((match err' with
                                     | Some e => Raise e
                                     | None => Ok (rev acc')
                                     end, comma), rest2)
                            else None
                        | [] => None
                        end
                    end
              end
          end in
      match ts with
      | KNum z :: rest => Some (Ok (VInt z), rest)
      | KMinus :: KNum z :: rest => Some (Ok (VInt (- z)), rest)
      | KPlus :: KNum z :: rest => Some (Ok (VInt z), rest)
      | KStr s :: rest => Some (Ok (VStr s), rest)
      | KName s :: rest =>
          if String.eqb s "None" then Some (Ok VNone, rest)
          else if String.eqb s "True" then Some (Ok (VBool true), rest)
          else if String.eqb s "False" then Some (Ok (VBool false), rest)
          else Some (Raise MalformedNode, rest)
      | KLParen :: rest =>
          match items (S (List.length rest))
                      (fun t => match t with KRParen => true | _ => false end)
                      rest [] false None with
          | Some ((Ok [v], false), rest') => Some (Ok v, rest')
          | Some ((Ok vs, _), rest') => Some (Ok (VTuple vs), rest')
          | Some ((Raise e, _), rest') => Some (Raise e, rest')
          | None => None
          end
      | KLBrack :: rest =>
          match items (S (List.length rest))
                      (fun t => match t with KRBrack => true | _ => false end)
                      rest [] false None with
          | Some ((Ok vs, _), rest') => Some (Ok (VList vs), rest')
          | Some ((Raise e, _), rest') => Some (Raise e, rest')
          | None => None
          end
      | _ => None
      end
  end.

Definition literal_eval (s : string) : result value :=
  match tokenize (S (String.length s)) s with
  | None => Raise SyntaxError
  | Some ts =>
      match parse_expr (S (List.length ts)) ts with
      | Some (r, []) => r
      | _ => Raise SyntaxError
      end
  end.

(* ---------------------------------------------------------------- *)
(** *** argparse

  [ArgumentParser.parse_known_args] of CPython 3.8 to 3.11 for a
  parser that holds the help switch and one [--dest] switch with one
  argument per [argument]: exact matches, [--key=value], unambiguous
  prefixes, negative numbers and texts with blanks as arguments, the
  [--] separator, defaults first in the namespace, string defaults
  converted after parsing.  [int] is modelled on plain signed decimal
  text, without the underscores and surrounding blanks that [int]
  accepts as well.  The [--] separator is modelled for the versions
  that remove it; where a later version reports an error or leaves it
  among the extras the model differs, and no run of this file passes
  one.  Registering a switch that collides with [--help] fails when
  the parser is built; the model reports it when parsing. *)

Section Argparse.
Variable literal_eval : string -> result value.

Definition chars_of (s : string) : list value :=
  map (fun c => VStr (String c EmptyString)) (list_ascii_of_string s).

(** [int(s)] *)
Definition int_of_string (s : string) : result value :=
  let body := match s with
          | String c tl =>
              if Ascii.eqb c "-"%char || Ascii.eqb c "+"%char then tl else s
          | EmptyString => s
          end in
  let neg := match s with
         | String c _ => Ascii.eqb c "-"%char
         | EmptyString => false
         end in
  match span is_digit body with
  | (String c ds, EmptyString) =>
  let z := digits_val (String c ds) 0 in
  Ok (VInt (if neg then - z else z))
  | _ => Raise MalformedNode
  end.

(** The type function of a switch applied to its text. *)
Definition type_func (t : arg_type) (s : string) : result value :=
  match t with
  | ByStr2bool => str2bool s
  | ByArgAsTuple => arg_as_tuple literal_eval s
  | ByType TStr => Ok (VStr s)
  | ByType TInt => int_of_string s
  | ByType TBool => Ok (VBool (negb (String.eqb s EmptyString)))
  | ByType TTuple => Ok (VTuple (chars_of s))
  | ByType TList => Ok (VList (chars_of s))
  | ByType TMissingType => Raise TypeError   (* the class takes no argument *)
  end.

(** [_get_value]: [ArgumentTypeError], [TypeError] and [ValueError]
end in [parser.error]; anything else propagates. *)
Definition get_value (t : arg_type) (s : string) : result value :=
  match type_func t s with
  | Ok v => Ok v
  | Raise (ArgumentTypeError _) => Raise ParserExit
  | Raise TypeError => Raise ParserExit
  | Raise MalformedNode => Raise ParserExit
  | Raise e => Raise e
  end.

Inductive optmatch : Type :=
| MHelp
| MAction (a : argument)
| MUnknown.

Definition option_string (a : argument) : string := "--" ++ dest a.

(** Text before and after the first [=]. *)
Fixpoint split_eq (s : string) : option (string * string) :=
  match s with
  | EmptyString => None
  | String c tl =>
  if Ascii.eqb c "="%char then Some (EmptyString, tl)
  else match split_eq tl with
       | Some (a, b) => Some (String c a, b)
       | None => None
       end
  end.

Definition exact (actions : list argument) (s : string) : option optmatch :=
  if String.eqb s "-h" || String.eqb s "--help" then Some MHelp
  else match find (fun a => String.eqb (option_string a) s) actions with
   | Some a => Some (MAction a)
   | None => None
   end.

(** [^-\d+$|^-\d*\.\d+$] *)
Definition negative_number (s : string) : bool :=
  match s with
  | String "-"%char body =>
  match span is_digit body with
  | (String _ _, EmptyString) => true
  | (_, String "."%char frac) =>
      match span is_digit frac with
      | (String _ _, EmptyString) => true
      | _ => false
      end
  | _ => false
  end
  | _ => false
  end.

Fixpoint has_blank (s : string) : bool :=
  match s with
  | EmptyString => false
  | String c tl => Ascii.eqb c " "%char || has_blank tl
  end.

(** [_parse_optional]: [None] for a positional text. *)
Definition parse_optional (actions : list argument) (tok : string)
  : result (option (optmatch * option string)) :=
  match tok with
  | EmptyString => Ok None
  | String c0 tl0 =>
  if negb (Ascii.eqb c0 "-"%char) then Ok None
  else
    match exact actions tok with
    | Some m => Ok (Some (m, None))
    | None =>
        match tl0 with
        | EmptyString => Ok None
        | String c1 _ =>
            let by_eq := match split_eq tok with
                         | Some (o, e) =>
                             match exact actions o with
                             | Some m => Some (m, Some e)
                             | None => None
                             end
                         | None => None
                         end in
            match by_eq with
            | Some r => Ok (Some r)
            | None =>
                let candidates :=
                  if Ascii.eqb c1 "-"%char then
                    let '(pre, ex) := match split_eq tok with
                                      | Some (o, e) => (o, Some e)
                                      | None => (tok, None)
                                      end in
                    (if String.prefix pre "--help" then [(MHelp, ex)] else [])
                      ++ map (fun a => (MAction a, ex))
                             (filter (fun a => String.prefix pre (option_string a))
                                     actions)
                  else if Ascii.eqb c1 "h"%char
                       then [(MHelp, Some (substring 2 (String.length tok) tok))]
                       else [] in
                match candidates with
                | [r] => Ok (Some r)
                | _ :: _ :: _ => Raise ParserExit
                | [] =>
                    if negative_number tok then Ok None
                    else if has_blank tok then Ok None
                    else Ok (Some (MUnknown, None))
                end
            end
        end
    end
  end.

Inductive tclass : Type :=
| CArg                                        (* 'A' *)
| CSep                                        (* the first [--] *)
| COpt (m : optmatch) (explicit : option string).  (* 'O' *)

(** The pattern of the token list; after [--] everything is an
argument. *)
Fixpoint classify (actions : list argument) (after_sep : bool) (toks : list string)
  : result (list (string * tclass)) :=
  match toks with
  | [] => Ok []
  | tok :: tl =>
  if after_sep then
    r <- classify actions true tl ;; Ok ((tok, CArg) :: r)
  else if String.eqb tok "--" then
    r <- classify actions true tl ;; Ok ((tok, CSep) :: r)
  else
    o <- parse_optional actions tok ;;
    r <- classify actions false tl ;;
    Ok ((tok, match o with
              | None => CArg
              | Some (m, e) => COpt m e
              end) :: r)
  end.

(** The namespace, the switches seen and the extras after consuming the
classified tokens from the left. *)
Fixpoint consume (fuel : nat) (ts : list (string * tclass))
     (ns : dict value) (seen : list string) (extras : list string)
  : result (dict value * list string * list string) :=
  match fuel with
  | O => Raise RecursionError
  | S n =>
  match ts with
  | [] => Ok (ns, seen, rev extras)
  | (tok, COpt MHelp _) :: _ => Raise ParserExit
  | (tok, COpt MUnknown _) :: rest => consume n rest ns seen (tok :: extras)
  | (tok, COpt (MAction a) (Some e)) :: rest =>
      v <- get_value (atype a) e ;;
      consume n rest (dict_set (dest a) v ns) (dest a :: seen) extras
  | (tok, COpt (MAction a) None) :: rest =>
      match rest with
      | (x, CArg) :: (_, CSep) :: rest'
      | (_, CSep) :: (x, CArg) :: rest'
      | (x, CArg) :: rest' =>
          v <- get_value (atype a) x ;;
          consume n rest' (dict_set (dest a) v ns) (dest a :: seen) extras
      | _ => Raise ParserExit
      end
  | (tok, _) :: rest => consume n rest ns seen (tok :: extras)
  end
  end.

(** Defaults enter the namespace first, in the order of the switches. *)
Definition initial_namespace (actions : list argument) : dict value :=
  fold_left (fun ns a => match adefault a with
                     | Some d => if dict_mem (dest a) ns then ns
                                 else dict_set (dest a) d ns
                     | None => ns
                     end) actions [].

(** A string default of a switch that was not seen goes through the
type function. *)
Definition convert_defaults (actions : list argument) (seen : list string)
       (ns : dict value) : result (dict value) :=
  foldM (fun ns a =>
       match adefault a with
       | Some (VStr s) =>
           if existsb (String.eqb (dest a)) seen then Ok ns
           else v <- get_value (atype a) s ;; Ok (dict_set (dest a) v ns)
       | _ => Ok ns
       end) actions ns.

Definition parse_known_args (actions : list argument) (args : list string)
  : result (dict value * list string) :=
  if existsb (fun a => String.eqb (dest a) "help") actions then Raise ParserExit
  else
ts <- classify actions false args ;;
'(ns, seen, extras) <- consume (S (List.length ts)) ts
                         (initial_namespace actions) [] [] ;;
ns <- convert_defaults actions seen ns ;;
Ok (ns, extras).
End Argparse.

End Models.

(* ================================================================== *)
(** ** Auxiliary notions used in the statements *)

(** A finished call returned normally. *)
Definition returned {A} (o : option (result A)) : bool :=
  match o with
  | Some (Ok _) => true
  | _ => false
  end.

(** The call failed with the invalid-argument error
    ([argparse.ArgumentTypeError]). *)
Definition invalid_argument {A} (r : result A) : bool :=
  match r with
  | Raise (ArgumentTypeError _) => true
  | _ => false
  end.

(** [type(v) is tuple] *)
Definition is_tuple (v : value) : bool :=
  match v with
  | VTuple _ => true
  | _ => false
  end.

(** The keys of a dictionary are pairwise distinct, at every level. *)
Fixpoint distinct (l : list string) : bool :=
  match l with
  | [] => true
  | x :: tl => negb (existsb (String.eqb x) tl) && distinct tl
  end.

Fixpoint wf_node {L} (n : node L) : bool :=
  match n with
  | Leaf _ => true
  | Dict items => distinct (keys items) && forallb (fun kv => wf_node (snd kv)) items
  end.

Definition wf_cfg {L} (c : cfg L) : bool := wf_node (Dict c).

(** No key holds the path separator, at any level. *)
Fixpoint dot_free_node {L} (n : node L) : bool :=
  match n with
  | Leaf _ => true
  | Dict items =>
      forallb (fun kv => negb (contains_dot (fst kv)) && dot_free_node (snd kv)) items
  end.

Definition dot_free {L} (c : cfg L) : bool := dot_free_node (Dict c).

(** No nested dictionary is empty, at any level. *)
Fixpoint no_empty_node {L} (n : node L) : bool :=
  match n with
  | Leaf _ => true
  | Dict items =>
      forallb (fun kv => match snd kv with
                         | Dict [] => false
                         | _ => no_empty_node (snd kv)
                         end) items
  end.

Definition no_empty_dict {L} (c : cfg L) : bool := no_empty_node (Dict c).

(** Depth of nesting: [0] for a configuration of terminals. *)
Fixpoint depth_node {L} (n : node L) : nat :=
  match n with
  | Leaf _ => O
  | Dict items => S (list_max (map (fun kv => depth_node (snd kv)) items))
  end.

Definition nesting {L} (c : cfg L) : nat :=
  list_max (map (fun kv => depth_node (snd kv)) c).

(** The flat form written as a concatenation: what [deep_to_flat] yields
    when no assignment hits a key that is already there. *)
Definition prefix_key {L} (key : string) (sub : string * L) : string * L :=
  (join_dot key (fst sub), snd sub).

Fixpoint flat_spec_node {L} (n : node L) : dict L :=
  match n with
  | Leaf _ => []
  | Dict items =>
      flat_map (fun kv => match snd kv with
                          | Leaf x => [(fst kv, x)]
                          | Dict _ => map (prefix_key (fst kv)) (flat_spec_node (snd kv))
                          end) items
  end.

Definition flat_spec {L} (c : cfg L) : dict L := flat_spec_node (Dict c).

(** The value of [res_cfg] after the first loop of [flat_to_deep] on the
    flat form of an entry. *)
Definition slot_of {L} (kv : string * node L) : string * @slot L :=
  (fst kv, match snd kv with
           | Leaf x => Term x
           | Dict d => Group (flat_spec d)
           end).

(** Python's [==] on nested dictionaries, given the equality of
    terminals: the same keys with equal values, in any order. *)
Fixpoint same_node {L} (leaf_eq : L -> L -> bool) (a b : node L) : bool :=
  match a, b with
  | Leaf x, Leaf y => leaf_eq x y
  | Dict c, Dict d =>
      (List.length c =? List.length d)%nat &&
      forallb (fun kv => match dict_get (fst kv) d with
                         | Some w => same_node leaf_eq (snd kv) w
                         | None => false
                         end) c
  | _, _ => false
  end.

Definition same_cfg {L} (leaf_eq : L -> L -> bool) (c d : cfg L) : bool :=
  same_node leaf_eq (Dict c) (Dict d).

(** [key.split(".")] *)
Fixpoint components (s : string) : list string :=
  match s with
  | EmptyString => [EmptyString]
  | String c tl =>
      if Ascii.eqb c dot then EmptyString :: components tl
      else match components tl with
           | h :: t => String c h :: t
           | [] => [String c EmptyString]
           end
  end.

(** [cfg[p1][p2]...[pn]] *)
Fixpoint get_path {L} (path : list string) (c : cfg L) : option (node L) :=
  match path with
  | [] => None
  | [key] => dict_get key c
  | key :: rest =>
      match dict_get key c with
      | Some (Dict d) => get_path rest d
      | _ => None
      end
  end.

(** Size of a configuration, for induction. *)
Fixpoint node_size {L} (n : node L) : nat :=
  match n with
  | Leaf _ => 1
  | Dict items => S (list_sum (map (fun kv => node_size (snd kv)) items))
  end.

Definition cfg_size {L} (c : cfg L) : nat :=
  list_sum (map (fun kv => node_size (snd kv)) c).

(** The first component of a flat key. *)
Definition root_of (q : string) : string :=
  match split_dot q with
  | Some (root, _) => root
  | None => q
  end.

(** [s] without the leading [p], when [s.startswith(p)]. *)
Fixpoint strip_prefix (p s : string) : option string :=
  match p with
  | EmptyString => Some s
  | String c p' =>
      match s with
      | String c' s' => if Ascii.eqb c c' then strip_prefix p' s' else None
      | EmptyString => None
      end
  end.

(** Some key of the flat dictionary [m], followed by a dot, starts the
    flat key [k]: [k] lies below a key that holds a terminal. *)
Definition shadowed {V} (k : string) (m : dict V) : bool :=
  existsb (fun p => match strip_prefix (join_dot p EmptyString) k with
                    | Some _ => true
                    | None => false
                    end) (keys m).

(** The stem that the entry [e] of an argument-format configuration
    makes [add_default_args] assign: [e] is a selector that is not
    missing. *)
Definition stem_of (e : string * node arg) : option string :=
  match snd e with
  | Leaf val =>
      if endswith (fst e) class_suffix && negb (is_missing (snd val))
      then Some (drop_suffix (fst e) class_suffix)
      else None
  | Dict _ => None
  end.

(** The same, for the key [k] of the configuration [c]. *)
Definition stem_in (c : cfg arg) (k : string) : option string :=
  match dict_get k c with
  | Some v => stem_of (k, v)
  | None => None
  end.

(** Order of the keys of [res_cfg]: a key enters at the end the first
    time it is assigned. *)
Definition add_key (k : string) (ks : list string) : list string :=
  if existsb (String.eqb k) ks then ks else ks ++ [k].

Section KeyOrderDefs.
Variable sigma : string -> option string.

(** The keys after the pass for the entry with key [k], which assigns
    [k] and then its stem [sigma k], if any. *)
Definition visit (ks : list string) (k : string) : list string :=
  let ks := add_key k ks in
  match sigma k with
  | Some u => add_key u ks
  | None => ks
  end.

Definition visit_all (ks : list string) (todo : list string) : list string :=
  fold_left visit todo ks.
End KeyOrderDefs.

(** [k not in ks] *)
Definition absent_from (ks : list string) (k : string) : bool :=
  negb (existsb (String.eqb k) ks).

(** [a] comes before [b] in the list. *)
Definition before (a b : string) (ks : list string) : Prop :=
  exists l1 l2, ks = l1 ++ a :: l2 /\ In b l2.

(** [b] comes right after [a] in the list. *)
Definition next_to (a b : string) (ks : list string) : Prop :=
  exists l1 l2, ks = l1 ++ a :: b :: l2.

(** Three properties of an expansion function [f], such as the
    recursive call of [add_default_args]: it keeps the keys of every
    level distinct; *)
Definition keeps_wf (f : cfg arg -> result (cfg arg)) : Prop :=
  forall c r, wf_cfg c = true -> f c = Ok r -> wf_cfg r = true.

(** expanding its result again, laid over the defaults [p] it was
    built on, gives the same result; *)
Definition settles (f : cfg arg -> result (cfg arg)) : Prop :=
  forall p c n, wf_cfg p = true -> wf_cfg c = true ->
    f (dict_update p c) = Ok n -> f (dict_update p n) = Ok n.

(** and where it returns with and without the defaults [p], it returns
    on its result laid over [p]. *)
Definition carries (f : cfg arg -> result (cfg arg)) : Prop :=
  forall p c r, wf_cfg p = true -> wf_cfg c = true ->
    f c = Ok r -> (exists x, f (dict_update p c) = Ok x) ->
    exists y, f (dict_update p r) = Ok y.

(** What [to_arg_format] makes of a terminal: [(type(val), val)], with
    [str] for [None] and [MISSING]. *)
Definition typed_leaf (v : value) : arg :=
  (match v with
   | VNone | VMissing => TStr
   | _ => type_of v
   end, v).

(** The argument format of a configuration in dictionary format: the
    same keys in the same order, every terminal with its type. *)
Fixpoint typed_node (n : node value) : node arg :=
  match n with
  | Leaf v => Leaf (typed_leaf v)
  | Dict items => Dict (map (fun kv => (fst kv, typed_node (snd kv))) items)
  end.

Definition typed (c : cfg value) : cfg arg :=
  map (fun kv => (fst kv, typed_node (snd kv))) c.

(** Every terminal can be hashed, at every level. *)
Fixpoint all_hashable_node (n : node value) : bool :=
  match n with
  | Leaf v => hashable v
  | Dict items => forallb (fun kv => all_hashable_node (snd kv)) items
  end.

Definition all_hashable (c : cfg value) : bool := all_hashable_node (Dict c).

(** A configuration in dictionary format seen as one in class format
    that holds no dataclass instance. *)
Fixpoint plain_obj (n : node value) : obj :=
  match n with
  | Leaf v => OVal v
  | Dict items => ODict (map (fun kv => (fst kv, plain_obj (snd kv))) items)
  end.

Definition plain_cfg (c : cfg value) : dict obj :=
  map (fun kv => (fst kv, plain_obj (snd kv))) c.

(** No class has been selected: every key that ends in [_class] holds
    [MISSING], at every level. *)
Fixpoint unselected_node (n : node arg) : bool :=
  match n with
  | Leaf _ => true
  | Dict items =>
      forallb (fun kv => match snd kv with
                         | Leaf val => negb (endswith (fst kv) class_suffix)
                                       || is_missing (snd val)
                         | Dict _ => unselected_node (snd kv)
                         end) items
  end.

Definition unselected (c : cfg arg) : bool := unselected_node (Dict c).

(** Every nested dictionary, at every level, has beside it a selector
    that holds the name of a registered class, and holds the fields of
    that class, all of them and in the order of their declaration. *)
Fixpoint fits_node (registry : string -> option schema) (n : node value) : bool :=
  match n with
  | Leaf _ => true
  | Dict items =>
      forallb (fun kv =>
                 match snd kv with
                 | Leaf _ => true
                 | Dict d =>
                     match dict_get (selector_of (fst kv)) items with
                     | Some (Leaf (VStr name)) =>
                         match registry name with
                         | Some cls =>
                             if list_eq_dec string_dec (keys d) (map fname (sfields cls))
                             then fits_node registry (snd kv) else false
                         | None => false
                         end
                     | _ => false
                     end
                 end) items
  end.

Definition fits (registry : string -> option schema) (c : cfg value) : bool :=
  fits_node registry (Dict c).

(** The deep copy of every terminal of a nested configuration. *)
Fixpoint copied_node (n : node value) : node value :=
  match n with
  | Leaf v => Leaf (deepcopy v)
  | Dict items => Dict (map (fun kv => (fst kv, copied_node (snd kv))) items)
  end.

(** A configuration whose nested dictionaries went through
    [dataclasses.asdict]: the terminals of the top level are the same
    objects, those below are deep copies. *)
Definition copied (c : cfg value) : cfg value :=
  map (fun kv => (fst kv, match snd kv with
                          | Leaf v => Leaf v
                          | Dict _ => copied_node (snd kv)
                          end)) c.

(** [MISSING] occurs in the value, as such or inside a tuple or list. *)
Fixpoint holds_missing (v : value) : bool :=
  match v with
  | VMissing => true
  | VTuple l => existsb holds_missing l
  | VList l => existsb holds_missing l
  | _ => false
  end.

Fixpoint missing_free_node (n : node value) : bool :=
  match n with
  | Leaf v => negb (holds_missing v)
  | Dict items => forallb (fun kv => missing_free_node (snd kv)) items
  end.

(** No terminal below the top level holds [MISSING]. *)
Definition missing_free_inside (c : cfg value) : bool :=
  forallb (fun kv => match snd kv with
                     | Leaf _ => true
                     | Dict _ => missing_free_node (snd kv)
                     end) c.

(** The errors [flat_to_deep] can raise. *)
Definition structural_error (e : exn) : Prop :=
  e = TypeError \/ e = RecursionError \/ exists k, e = KeyError k.

(** The scenario of the end-to-end runs: the registry holds
    [A{x: int = 1}] and [B{y: int = 2}]. *)
Module Scenario.
Definition schema_A : schema := mkSchema "A" [mkField "x" TInt (VInt 1)].
Definition schema_B : schema := mkSchema "B" [mkField "y" TInt (VInt 2)].

Definition registry (name : string) : option schema :=
  if String.eqb name "A" then Some schema_A
  else if String.eqb name "B" then Some schema_B
  else None.

(** The root configuration: the selector has no default. *)
Definition root : dict obj := [("backbone_class", OVal VMissing)].

Definition argparse := Models.parse_known_args Models.literal_eval.

(** No configuration file can be read. *)
Definition no_file (path : value) : result (node value) := Raise OSError.

(** A plain configuration without selectors. *)
Definition plain : dict obj := [("a", OVal (VInt 1))].
End Scenario.

(* ================================================================== *)
(** * Properties *)

(** ** Generic facts *)

Lemma bind_ok {A B} (r : result A) (f : A -> result B) (b : B) :
  bind r f = Ok b -> exists a, r = Ok a /\ f a = Ok b.
Proof. destruct r as [a|e]; simpl; intros H; [eauto | discriminate]. Qed.

Lemma bind_raise {A B} (r : result A) (f : A -> result B) (e : exn) :
  bind r f = Raise e -> r = Raise e \/ exists a, r = Ok a /\ f a = Raise e.
Proof. destruct r as [a|e']; simpl; intros H; [eauto | left; congruence]. Qed.

(** ** The resolution loop *)

Section LoopFacts.
Variable registry : string -> option schema.
Variable parse_known_args : list argument -> list string -> result (dict value * list string).
Variable load_yaml : value -> result (node value).
Variable sys_argv : list string.
Variable depth : nat.
Variable args : list string.

Local Notation round := (parse_round registry parse_known_args depth args).
Local Notation pass := (iteration registry parse_known_args depth args).
Local Notation loop := (while_loop registry parse_known_args depth args).

Lemma iteration_ok_inv st st' :
  pass st = Ok st' ->
  exists surf parsed rest c',
    round (st_cfg st) = Ok (surf, (parsed, rest)) /\
    check_supplied (keys surf) parsed = Ok tt /\
    (continue_flag st && (nb_unparsed st <=? List.length rest)%nat = false) /\
    flat_to_deep parsed = Ok c' /\
    st' = {| st_cfg := c'; nb_unparsed := List.length rest;
             unparsed := Some rest; continue_parsing := continue_flag st |}.
Proof.
  unfold iteration.
  intros H. apply bind_ok in H. destruct H as [[surf [parsed rest]] [Hr H]].
  apply bind_ok in H. destruct H as [[] [Hc H]].
  destruct (continue_flag st && (nb_unparsed st <=? List.length rest)%nat) eqn:Hs;
    [discriminate|].
  apply bind_ok in H. destruct H as [c' [Hf H]].
  exists surf, parsed, rest, c'. repeat split; auto. congruence.
Qed.

Lemma iteration_stalls st surf parsed rest :
  round (st_cfg st) = Ok (surf, (parsed, rest)) ->
  check_supplied (keys surf) parsed = Ok tt ->
  continue_flag st = true ->
  (nb_unparsed st <= List.length rest)%nat ->
  pass st = Raise NoProgress.
Proof.
  intros Hr Hc Hf Hn. unfold iteration.
  rewrite Hr. simpl. rewrite Hc. simpl. rewrite Hf.
  apply Nat.leb_le in Hn. rewrite Hn. reflexivity.
Qed.

(** A pass that succeeds keeps the loop variables consistent, and when
  the loop is to continue the residual count went down. *)
Lemma iteration_progress st st' :
  pass st = Ok st' ->
  consistent st' /\
  continue_parsing st' = continue_flag st /\
  (continue_parsing st' = true -> (nb_unparsed st' < nb_unparsed st)%nat).
Proof.
  intros H. apply iteration_ok_inv in H.
  destruct H as (surf & parsed & rest & c' & _ & _ & Hs & _ & ->).
  unfold consistent; simpl. repeat split.
  intros Hc. rewrite Hc in Hs. simpl in Hs. apply Nat.leb_gt in Hs. exact Hs.
Qed.

Lemma continue_flag_zero st :
  consistent st -> unparsed st <> None -> nb_unparsed st = O ->
  continue_flag st = false.
Proof.
  unfold consistent, continue_flag. destruct (unparsed st) as [u|]; [|congruence].
  intros -> _ H. rewrite H. reflexivity.
Qed.

(** The loop ends within [nb_unparsed + 1] passes. *)
Lemma while_loop_bound fuel : forall st,
  consistent st ->
  (nb_unparsed st < fuel)%nat ->
  exists k r, loop fuel st = (k, Some r) /\ (k <= nb_unparsed st + 1)%nat.
Proof.
  induction fuel as [|fuel IH]; intros st Hc Hlt; [lia|].
  simpl. destruct (continue_parsing st) eqn:Hcont.
  2:{ exists O, (Ok (st_cfg st)). split; [reflexivity | lia]. }
  destruct (pass st) as [st'|e] eqn:Hit.
  2:{ exists 1%nat, (Raise e). split; [reflexivity | lia]. }
  destruct (iteration_progress _ Hit) as (Hc' & Hflag & Hdec).
  destruct (continue_parsing st') eqn:Hcont'.
  - specialize (Hdec eq_refl).
    destruct (IH st' Hc') as (k & r & Hk & Hle); [lia|].
    rewrite Hk. exists (S k), r. split; [reflexivity | lia].
  - exists 1%nat, (Ok (st_cfg st')). split; [|lia].
    destruct fuel; simpl; rewrite Hcont'; reflexivity.
Qed.

(** More fuel does not change a finished run. *)
Lemma while_loop_more fuel : forall st k r n,
  loop fuel st = (k, Some r) -> loop (fuel + n) st = (k, Some r).
Proof.
  induction fuel as [|fuel IH]; intros st k r n.
  - simpl. destruct (continue_parsing st) eqn:Hc; [discriminate|].
    intros H. destruct n; simpl; rewrite Hc; exact H.
  - simpl. destruct (continue_parsing st); [|auto].
    destruct (pass st) as [st'|e]; [|auto].
    destruct (loop fuel st') as [k' r'] eqn:Hw.
    intros H. inversion H; subst. rewrite (IH _ _ _ n Hw). reflexivity.
Qed.
End LoopFacts.

(** ** Errors of [flat_to_deep] *)

Section FlatErrors.
Context {L : Type}.

Lemma group_step_error (res : dict (@slot L)) kv e :
  group_step res kv = Raise e -> structural_error e.
Proof.
  unfold group_step, structural_error.
  destruct (split_dot (fst kv)) as [[root leaf]|]; [|discriminate].
  match goal with |- context [dict_get root ?d] => destruct (dict_get root d) as [[x|g]|] end;
    intros H; inversion H; eauto.
Qed.

Lemma foldM_group_error (c : dict L) : forall res e,
  foldM group_step c res = Raise e -> structural_error e.
Proof.
  induction c as [|kv tl IH]; intros res e; simpl; [discriminate|].
  intros H. apply bind_raise in H. destruct H as [H|(a & _ & H)].
  - eapply group_step_error; eauto.
  - eapply IH; eauto.
Qed.

Lemma resolve_groups_error (rec : dict L -> result (cfg L)) :
  (forall g e, rec g = Raise e -> structural_error e) ->
  forall res e, resolve_groups rec res = Raise e -> structural_error e.
Proof.
  intros Hrec. induction res as [|[key [x|g]] tl IH]; intros e; simpl; [discriminate| |].
  - intros H. apply bind_raise in H. destruct H as [H|(a & _ & H)]; [eauto|discriminate].
  - intros H. apply bind_raise in H. destruct H as [H|(a & _ & H)]; [eauto|].
    apply bind_raise in H. destruct H as [H|(b & _ & H)]; [eauto|discriminate].
Qed.

Lemma flat_to_deep_rec_error fuel : forall (c : dict L) e,
  flat_to_deep_rec fuel c = Raise e -> structural_error e.
Proof.
  induction fuel as [|n IH]; intros c e; simpl.
  - intros H; inversion H. right; left; reflexivity.
  - intros H. apply bind_raise in H. destruct H as [H|(a & _ & H)].
    + eapply foldM_group_error; eauto.
    + eapply resolve_groups_error; eauto.
Qed.

Lemma flat_to_deep_error (c : dict L) e :
  flat_to_deep c = Raise e -> structural_error e.
Proof. apply flat_to_deep_rec_error. Qed.
End FlatErrors.

(** ** Claims about the resolution loop *)

Section Resolution.
Variable registry : string -> option schema.
Variable parse_known_args : list argument -> list string -> result (dict value * list string).
Variable load_yaml : value -> result (node value).
Variable sys_argv : list string.
Variable depth : nat.

Local Notation round := (parse_round registry parse_known_args depth).
Local Notation pass := (iteration registry parse_known_args depth).
Local Notation loop := (while_loop registry parse_known_args depth).
Local Notation run := (parse_args_run registry parse_known_args load_yaml sys_argv depth).
Local Notation parse := (parse_args registry parse_known_args load_yaml sys_argv depth).
Local Notation passes := (parse_args_iterations registry parse_known_args load_yaml sys_argv depth).
Local Notation prepare := (before_loop parse_known_args load_yaml).

Lemma check_supplied_missing surface parsed :
  (exists key, In key surface /\ dict_mem key parsed = false) ->
  exists key, In key surface /\ dict_mem key parsed = false /\
              check_supplied surface parsed = Raise (NotSupplied key).
Proof.
  induction surface as [|k tl IH]; intros (key & Hin & Hm); [destruct Hin|].
  simpl. destruct (dict_mem k parsed) eqn:Hk.
  - destruct Hin as [->|Hin]; [congruence|].
    destruct IH as (key' & Hin' & Hm' & Hc); [eauto|].
    exists key'. simpl; auto.
  - exists k. simpl; auto.
Qed.

Lemma check_supplied_all surface parsed :
  (forall key, In key surface -> dict_mem key parsed = true) ->
  check_supplied surface parsed = Ok tt.
Proof.
  induction surface as [|k tl IH]; intros H; simpl; [reflexivity|].
  rewrite (H k (or_introl eq_refl)). apply IH. intros; apply H; right; assumption.
Qed.

Lemma loop_first_raise args fuel st e :
  continue_parsing st = true -> pass args st = Raise e ->
  loop args (S fuel) st = (1%nat, Some (Raise e)).
Proof. intros Hc Hp. simpl. rewrite Hc, Hp. reflexivity. Qed.

(** When no parse ever consumes every token, the loop cannot leave
  normally. *)
Lemma loop_never_returns args :
  (forall surface ns rest, parse_known_args surface args = Ok (ns, rest) -> rest <> []) ->
  forall fuel st k c,
    continue_parsing st = true -> continue_flag st = true ->
    loop args fuel st <> (k, Some (Ok c)).
Proof.
  intros Hres. induction fuel as [|fuel IH]; intros st k c Hc Hf; simpl; rewrite Hc.
  - discriminate.
  - destruct (pass args st) as [st'|e] eqn:Hp; [|discriminate].
    destruct (loop args fuel st') as [k' r'] eqn:Hl.
    intros H; inversion H; subst.
    apply iteration_ok_inv in Hp.
    destruct Hp as (surf & parsed & rest & c' & Hr & _ & _ & _ & ->).
    eapply (IH _ k' c); [| |exact Hl]; simpl; auto.
    unfold continue_flag; simpl.
    unfold parse_round in Hr.
    apply bind_ok in Hr. destruct Hr as (a1 & _ & Hr).
    apply bind_ok in Hr. destruct Hr as (a2 & _ & Hr).
    apply bind_ok in Hr. destruct Hr as ([ns rest0] & Hpk & Hr).
    inversion Hr; subst. apply Hres in Hpk.
    destruct rest; [congruence | reflexivity].
Qed.

Lemma run_bound c args fuel :
  (List.length (actual_args sys_argv args) < fuel)%nat ->
  exists k r, run fuel c args = (k, Some r) /\
              (k <= List.length (actual_args sys_argv args) + 1)%nat.
Proof.
  intros Hlt. unfold parse_args_run.
  destruct (prepare c (actual_args sys_argv args)) as [c'|e].
  - destruct (while_loop_bound registry parse_known_args depth
                (actual_args sys_argv args) (fuel := fuel)
                (initial_state c' (actual_args sys_argv args))) as (k & r & Hl & Hk);
      [exact I | exact Hlt |].
    rewrite Hl. simpl in Hk.
    destruct r as [c''|e]; eauto.
  - exists O. eexists. split; [reflexivity | lia].
Qed.

Lemma run_more c args fuel n k r :
  run fuel c args = (k, Some r) -> run (fuel + n) c args = (k, Some r).
Proof.
  unfold parse_args_run.
  destruct (prepare c (actual_args sys_argv args)) as [c'|e]; [|auto].
  destruct (while_loop _ _ _ _ fuel _) as [k' [r'|]] eqn:Hl; [|discriminate].
  rewrite (while_loop_more _ _ _ _ _ _ n Hl). auto.
Qed.

(** On a run whose configurations all satisfy [inv], where every stage
    of every pass succeeds and every parse leaves tokens, the loop ends
    with the stall error. *)
Lemma loop_stalls (args : list string) (inv : cfg value -> Prop) :
  (forall c1, inv c1 ->
     exists surf parsed rest c2,
       round args c1 = Ok (surf, (parsed, rest)) /\
       check_supplied (keys surf) parsed = Ok tt /\
       rest <> [] /\
       flat_to_deep parsed = Ok c2 /\ inv c2) ->
  forall fuel st,
    consistent st -> continue_parsing st = true -> continue_flag st = true ->
    inv (st_cfg st) -> (nb_unparsed st < fuel)%nat ->
    exists k, loop args fuel st = (k, Some (Raise NoProgress)).
Proof.
  intros Hrun. induction fuel as [|fuel IH]; intros st Hcons Hc Hf Hinv Hlt; [lia|].
  destruct (Hrun _ Hinv) as (surf & parsed & rest & c2 & Hr & Hs & Hne & Hd & Hinv2).
  destruct (Nat.leb_spec (nb_unparsed st) (List.length rest)) as [Hle|Hgt].
  - exists 1%nat. apply loop_first_raise; [exact Hc|].
    eapply iteration_stalls; eauto.
  - assert (Hit : pass args st
                  = Ok {| st_cfg := c2; nb_unparsed := List.length rest;
                          unparsed := Some rest; continue_parsing := true |}).
    { unfold iteration. rewrite Hr. simpl. rewrite Hs. simpl. rewrite Hf. simpl.
      assert (Hb : (nb_unparsed st <=? List.length rest)%nat = false)
        by (apply Nat.leb_gt; exact Hgt).
      rewrite Hb, Hd. reflexivity. }
    destruct (IH {| st_cfg := c2; nb_unparsed := List.length rest;
                    unparsed := Some rest; continue_parsing := true |})
      as [k Hk].
    + reflexivity.
    + reflexivity.
    + unfold continue_flag. simpl. destruct rest; [congruence | reflexivity].
    + exact Hinv2.
    + simpl. lia.
    + exists (S k). simpl. rewrite Hc, Hit, Hk. reflexivity.
Qed.

(** C3 (stall detection).  A pass that is set to continue and whose
  residual token count is not below the count of the previous pass
  ends the loop with the stall error.  In particular, when a token
  matches no key of the surface and no selector is left to unlock new
  keys, so that on this run every stage of every pass succeeds and
  every parse leaves tokens, [parse_args] raises the stall error: it
  neither returns nor keeps looping.  The configurations of the run are
  described by [inv], which holds of the one the loop starts with and
  is kept by every pass. *)
Theorem stall_detection (args : list string) :
  (forall fuel st surf parsed rest,
      continue_parsing st = true ->
      continue_flag st = true ->
      round args (st_cfg st) = Ok (surf, (parsed, rest)) ->
      check_supplied (keys surf) parsed = Ok tt ->
      (nb_unparsed st <= List.length rest)%nat ->
      loop args (S fuel) st = (1%nat, Some (Raise NoProgress)))
  /\
  (forall (inv : cfg value -> Prop) c c0 fuel,
      prepare c args = Ok c0 -> inv c0 ->
      (forall c1, inv c1 ->
         exists surf parsed rest c2,
           round args c1 = Ok (surf, (parsed, rest)) /\
           check_supplied (keys surf) parsed = Ok tt /\
           rest <> [] /\
           flat_to_deep parsed = Ok c2 /\ inv c2) ->
      (List.length args < fuel)%nat ->
      parse fuel c (Some args) = Some (Raise NoProgress)).
Proof.
  split.
  - intros fuel st surf parsed rest Hc Hf Hr Hs Hn.
    apply loop_first_raise; [assumption|].
    eapply iteration_stalls; eauto.
  - intros inv c c0 fuel Hp Hinv Hrun Hlt.
    destruct (@loop_stalls args inv Hrun fuel (initial_state c0 args)) as [k Hk];
      try reflexivity; try assumption.
    unfold parse_args, parse_args_run. simpl. rewrite Hp, Hk. reflexivity.
Qed.

(** C4, as amended (termination bound).  [parse_args] terminates,
  returning or raising, and it passes through the loop body at most
  once more than there are tokens: every continuing pass lowers the
  residual count, and one last pass follows the one that left no
  token. *)
Theorem resolution_terminates (c : dict obj) (args : option (list string)) (fuel : nat) :
  (List.length (actual_args sys_argv args) < fuel)%nat ->
  (exists r, parse fuel c args = Some r) /\
  (passes fuel c args <= List.length (actual_args sys_argv args) + 1)%nat /\
  (forall st st', pass (actual_args sys_argv args) st = Ok st' ->
                  continue_parsing st' = true ->
                  (nb_unparsed st' < nb_unparsed st)%nat).
Proof.
  intros Hlt. destruct (run_bound c args Hlt) as (k & r & Hrun & Hk).
  unfold parse_args, parse_args_iterations. rewrite Hrun. simpl.
  repeat split; eauto.
  intros st st' Hp. apply iteration_progress in Hp. tauto.
Qed.

(** C8 (unresolved-argument check).  After the parse of a pass, a
  surface key without a parsed value ends [parse_args] with the
  unresolved-argument error for the first such key; when every surface
  key has a value, the pass raises no such error. *)
Theorem unresolved_argument_check (args : list string) (fuel : nat) (st : loop_state)
        surf parsed rest :
  continue_parsing st = true ->
  round args (st_cfg st) = Ok (surf, (parsed, rest)) ->
  ((exists key, In key (keys surf) /\ dict_mem key parsed = false) ->
   exists key, In key (keys surf) /\ dict_mem key parsed = false /\
               loop args (S fuel) st = (1%nat, Some (Raise (NotSupplied key))))
  /\
  ((forall key, In key (keys surf) -> dict_mem key parsed = true) ->
   forall key, pass args st <> Raise (NotSupplied key)).
Proof.
  intros Hc Hr. split.
  - intros Hm. destruct (check_supplied_missing _ _ Hm) as (key & Hin & Hk & Hs).
    exists key. repeat split; auto.
    apply loop_first_raise; auto.
    unfold iteration. rewrite Hr. simpl. rewrite Hs. reflexivity.
  - intros Hall key. unfold iteration. rewrite Hr. simpl.
    rewrite (check_supplied_all _ _ Hall). simpl.
    destruct (continue_flag st && (nb_unparsed st <=? Datatypes.length rest)%nat);
      [discriminate|].
    destruct (flat_to_deep parsed) as [c'|e] eqn:Hf; simpl; [discriminate|].
    intros H; inversion H; subst.
    destruct (flat_to_deep_error _ Hf) as [H0|[H0|[k H0]]]; discriminate.
Qed.

(** C10 (empty token list).  With [args = []], [parse_args] never
  returns: the residual count of the first pass cannot be below the
  initial count zero while the loop is set to continue, so the stall
  error is raised as soon as the first pass gets to the check. *)
Theorem empty_token_list (c : dict obj) (fuel : nat) :
  returned (parse fuel c (Some [])) = false /\
  (forall c' surf parsed rest,
      prepare c [] = Ok c' ->
      round [] c' = Ok (surf, (parsed, rest)) ->
      check_supplied (keys surf) parsed = Ok tt ->
      parse (S fuel) c (Some []) = Some (Raise NoProgress)).
Proof.
  split.
  - unfold parse_args, parse_args_run. simpl.
    destruct (prepare c []) as [c'|e]; [|reflexivity].
    destruct fuel as [|fuel]; [reflexivity|].
    simpl.
    destruct (pass [] (initial_state c' [])) as [st'|e] eqn:Hp; [|reflexivity].
    apply iteration_ok_inv in Hp.
    destruct Hp as (surf & parsed & rest & c'' & _ & _ & Hs & _).
    simpl in Hs. discriminate.
  - intros c' surf parsed rest Hp Hr Hs.
    unfold parse_args, parse_args_run, actual_args. rewrite Hp.
    rewrite (@loop_first_raise [] fuel (initial_state c' []) NoProgress).
    + reflexivity.
    + reflexivity.
    + eapply iteration_stalls; eauto. simpl. lia.
Qed.
End Resolution.

(** ** Concrete runs *)

Section Runs.
Variable load_yaml : value -> result (node value).
Variable sys_argv : list string.

Local Notation run := (parse_args_run Scenario.registry Scenario.argparse load_yaml sys_argv 1000).
Local Notation parse := (parse_args Scenario.registry Scenario.argparse load_yaml sys_argv 1000).

(** C1 (selector unlocking end to end).  With the selector missing in
  the root and the registry holding [A{x: int = 1}] and
  [B{y: int = 2}], the tokens [--backbone_class B --backbone.y 5] make
  [parse_args] return, after three passes, a root whose [backbone] is
  an instance of [B] with [y = 5]. *)
Theorem selector_unlocking (n : nat) :
  parse (5 + n) Scenario.root
        (Some ["--backbone_class"; "B"; "--backbone.y"; "5"])
  = Some (Ok [("backbone_class", OVal (VStr "B"));
              ("backbone", OInst "B" [("y", OVal (VInt 5))])]).
Proof.
  assert (H : run 5 Scenario.root
                (Some ["--backbone_class"; "B"; "--backbone.y"; "5"])
              = (3%nat, Some (Ok [("backbone_class", OVal (VStr "B"));
                                  ("backbone", OInst "B" [("y", OVal (VInt 5))])])))
    by (vm_compute; reflexivity).
  unfold parse_args. rewrite (@run_more _ _ _ _ _ _ _ _ n _ _ H). reflexivity.
Qed.
End Runs.

(** C4 as stated fails: one token, two passes through the loop. *)
Lemma passes_exceed_tokens :
  parse_args_run Scenario.registry Scenario.argparse Scenario.no_file [] 1000 10 Scenario.plain (Some ["--a=2"]) = (2%nat, Some (Ok [("a", OVal (VInt 2))])) /\
  ~ (parse_args_iterations Scenario.registry Scenario.argparse Scenario.no_file [] 1000
       10 Scenario.plain (Some ["--a=2"]) <= List.length ["--a=2"])%nat.
Proof.
  split.
  - vm_compute. reflexivity.
  - vm_compute. lia.
Qed.

Lemma stall_detection_witness :
  while_loop Scenario.registry Scenario.argparse 1000 ["--a"; "3"; "--zzz"] 1
    {| st_cfg := [("a", Leaf (VInt 3))]; nb_unparsed := 1;
       unparsed := Some ["--zzz"]; continue_parsing := true |}
  = (1%nat, Some (Raise NoProgress))
  /\
  parse_args Scenario.registry Scenario.argparse Scenario.no_file [] 1000 5 Scenario.plain
             (Some ["--a"; "3"; "--zzz"; "1"])
  = Some (Raise NoProgress).
Proof.
  split.
  - apply (proj1 (stall_detection Scenario.registry Scenario.argparse Scenario.no_file []
                    1000 ["--a"; "3"; "--zzz"]))
      with (surf := [("a", (TInt, VInt 3))]) (parsed := [("a", VInt 3)]) (rest := ["--zzz"]).
    + reflexivity.
    + reflexivity.
    + vm_compute. reflexivity.
    + reflexivity.
    + simpl. lia.
  - apply (proj2 (stall_detection Scenario.registry Scenario.argparse Scenario.no_file []
                    1000 ["--a"; "3"; "--zzz"; "1"]))
      with (inv := fun c1 => c1 = [("a", Leaf (VInt 1))] \/ c1 = [("a", Leaf (VInt 3))])
           (c0 := [("a", Leaf (VInt 1))]).
    + reflexivity.
    + left. reflexivity.
    + intros c1 [->| ->].
      * exists [("a", (TInt, VInt 1))], [("a", VInt 3)], ["--zzz"; "1"],
               [("a", Leaf (VInt 3))].
        repeat split; try (vm_compute; reflexivity); [discriminate | right; reflexivity].
      * exists [("a", (TInt, VInt 3))], [("a", VInt 3)], ["--zzz"; "1"],
               [("a", Leaf (VInt 3))].
        repeat split; try (vm_compute; reflexivity); [discriminate | right; reflexivity].
    + simpl. lia.
Defined.

Lemma resolution_terminates_witness :
  (List.length (actual_args [] (Some ["--a=2"])) < 2)%nat /\
  (exists r, parse_args Scenario.registry Scenario.argparse Scenario.no_file [] 1000 2 Scenario.plain (Some ["--a=2"]) = Some r) /\
  (parse_args_iterations Scenario.registry Scenario.argparse Scenario.no_file [] 1000
     2 Scenario.plain (Some ["--a=2"]) <= 1 + 1)%nat.
Proof.
  assert (H : (List.length (actual_args [] (Some ["--a=2"])) < 2)%nat)
    by (simpl; lia).
  split; [exact H|].
  destruct (resolution_terminates Scenario.registry Scenario.argparse Scenario.no_file []
              1000 Scenario.plain (Some ["--a=2"]) H) as (Hr & Hk & _).
  split; [exact Hr | exact Hk].
Defined.

Lemma unresolved_argument_check_witness :
  exists key,
    In key ["backbone_class"] /\
    while_loop Scenario.registry Scenario.argparse 1000 ["--zzz"] 1
      (initial_state [("backbone_class", Leaf VMissing)] ["--zzz"])
    = (1%nat, Some (Raise (NotSupplied key))).
Proof.
  destruct (proj1 (@unresolved_argument_check Scenario.registry Scenario.argparse 1000
                     ["--zzz"] 0
                     (initial_state [("backbone_class", Leaf VMissing)] ["--zzz"])
                     [("backbone_class", (TStr, VMissing))] [] ["--zzz"]
                     eq_refl eq_refl))
    as (key & Hin & _ & Hl).
  - exists "backbone_class". split; [left; reflexivity | reflexivity].
  - exists key. split; [exact Hin | exact Hl].
Defined.

Lemma empty_token_list_witness :
  returned (parse_args Scenario.registry Scenario.argparse Scenario.no_file [] 1000 3 Scenario.plain (Some [])) = false /\
  parse_args Scenario.registry Scenario.argparse Scenario.no_file [] 1000 3 Scenario.plain (Some []) = Some (Raise NoProgress).
Proof.
  destruct (empty_token_list Scenario.registry Scenario.argparse Scenario.no_file [] 1000
              Scenario.plain 2) as (H1 & H2).
  split.
  - apply (proj1 (empty_token_list Scenario.registry Scenario.argparse Scenario.no_file []
                    1000 Scenario.plain 3)).
  - apply (H2 [("a", Leaf (VInt 1))] [("a", (TInt, VInt 1))] [("a", VInt 1)] []);
      reflexivity.
Defined.

(** ** Tuple coercion *)

Section TupleCoercion.
Variable literal_eval : string -> result value.

(** C7, as amended (tuple coercion).  [arg_as_tuple] evaluates the token
    as a literal and returns the value exactly when it is a tuple; a
    value that is no tuple fails with the invalid-argument error; when the
    evaluation itself fails, as for a malformed literal, the error of the
    evaluator is what [arg_as_tuple] raises. *)
Theorem tuple_coercion (s : string) :
  (forall v, literal_eval s = Ok v ->
             (is_tuple v = true -> arg_as_tuple literal_eval s = Ok v) /\
             (is_tuple v = false ->
              arg_as_tuple literal_eval s
              = Raise (ArgumentTypeError ("Argument " ++ s ++ " is not a tuple")))) /\
  (forall e, literal_eval s = Raise e -> arg_as_tuple literal_eval s = Raise e) /\
  (forall v, arg_as_tuple literal_eval s = Ok v ->
             literal_eval s = Ok v /\ is_tuple v = true).
Proof.
  unfold arg_as_tuple. repeat split.
  - intros Ht. rewrite H. destruct v; simpl in *; try discriminate; reflexivity.
  - intros Ht. rewrite H. destruct v; simpl in *; try discriminate; reflexivity.
  - intros e H. rewrite H. reflexivity.
  - destruct (literal_eval s) as [w|e]; simpl in H; [|discriminate].
    destruct w; inversion H; subst; reflexivity.
  - destruct (literal_eval s) as [w|e]; simpl in H; [|discriminate].
    destruct w; inversion H; subst; reflexivity.
Qed.
End TupleCoercion.

(** C7 as stated fails on a malformed literal: the syntax error of the
    evaluator comes out, not the invalid-argument error. *)
Lemma malformed_tuple_literal :
  arg_as_tuple Models.literal_eval "(1, 2" = Raise SyntaxError /\
  invalid_argument (arg_as_tuple Models.literal_eval "(1, 2") = false.
Proof. split; vm_compute; reflexivity. Qed.

Lemma tuple_coercion_witness :
  arg_as_tuple Models.literal_eval "(1, 2)" = Ok (VTuple [VInt 1; VInt 2]) /\
  arg_as_tuple Models.literal_eval "[1, 2]"
  = Raise (ArgumentTypeError "Argument [1, 2] is not a tuple") /\
  arg_as_tuple Models.literal_eval "(1, 2" = Raise SyntaxError.
Proof.
  split; [|split].
  - apply (proj1 (tuple_coercion Models.literal_eval "(1, 2)") (VTuple [VInt 1; VInt 2]));
      reflexivity.
  - apply (proj1 (tuple_coercion Models.literal_eval "[1, 2]") (VList [VInt 1; VInt 2]));
      reflexivity.
  - apply (proj1 (proj2 (tuple_coercion Models.literal_eval "(1, 2"))). reflexivity.
Defined.

(** ** Dictionary facts *)

Section DictFacts.
Context {V : Type}.
Implicit Types (d e : dict V) (k : string) (v : V).

Lemma dict_get_set_eq k v d : dict_get k (dict_set k v d) = Some v.
Proof.
  induction d as [|[k' v'] tl IH]; simpl.
  - rewrite String.eqb_refl. reflexivity.
  - destruct (String.eqb k k') eqn:E; simpl; rewrite ?String.eqb_refl, ?E; auto.
Qed.

Lemma dict_get_set_neq k k' v d :
  k <> k' -> dict_get k (dict_set k' v d) = dict_get k d.
Proof.
  intros Hne. induction d as [|[k0 v0] tl IH]; simpl.
  - apply String.eqb_neq in Hne. rewrite Hne. reflexivity.
  - destruct (String.eqb k' k0) eqn:E; simpl.
    + apply String.eqb_eq in E. subst k0.
      apply String.eqb_neq in Hne. rewrite Hne. reflexivity.
    + destruct (String.eqb k k0); auto.
Qed.

Lemma dict_get_set k k' v d :
  dict_get k (dict_set k' v d) = if String.eqb k k' then Some v else dict_get k d.
Proof.
  destruct (String.eqb k k') eqn:E.
  - apply String.eqb_eq in E. subst. apply dict_get_set_eq.
  - apply String.eqb_neq in E. apply dict_get_set_neq; assumption.
Qed.

Lemma dict_get_none k d : dict_get k d = None <-> ~ In k (keys d).
Proof.
  induction d as [|[k' v'] tl IH]; simpl; [tauto|].
  destruct (String.eqb k k') eqn:E.
  - apply String.eqb_eq in E. subst. split; [discriminate | intros H; exfalso; auto].
  - apply String.eqb_neq in E. rewrite IH. split; [intros H [H1|H1]; auto | tauto].
Qed.

Lemma dict_get_some_in k v d : dict_get k d = Some v -> In (k, v) d.
Proof.
  induction d as [|[k' v'] tl IH]; simpl; [discriminate|].
  destruct (String.eqb k k') eqn:E.
  - apply String.eqb_eq in E. intros H; inversion H; subst. auto.
  - auto.
Qed.

Lemma dict_get_some_key k v d : dict_get k d = Some v -> In k (keys d).
Proof. intros H. apply dict_get_some_in in H. apply (in_map fst) in H. exact H. Qed.

Lemma dict_get_in k v d : NoDup (keys d) -> In (k, v) d -> dict_get k d = Some v.
Proof.
  induction d as [|[k' v'] tl IH]; simpl; intros Hnd Hin; [destruct Hin|].
  inversion Hnd as [|? ? Hni Hnd']; subst.
  destruct Hin as [Heq|Hin].
  - inversion Heq; subst. rewrite String.eqb_refl. reflexivity.
  - destruct (String.eqb k k') eqn:E; [|auto].
    apply String.eqb_eq in E. subst. exfalso. apply Hni.
    apply (in_map fst) in Hin. exact Hin.
Qed.

Lemma dict_mem_true k d : dict_mem k d = true <-> In k (keys d).
Proof.
  unfold dict_mem. destruct (dict_get k d) eqn:E.
  - split; [intros _; eapply dict_get_some_key; eauto | reflexivity].
  - apply dict_get_none in E. split; [discriminate | contradiction].
Qed.

Lemma dict_mem_false k d : dict_mem k d = false <-> ~ In k (keys d).
Proof.
  rewrite <- dict_mem_true. destruct (dict_mem k d); split; congruence.
Qed.

Lemma dict_set_fresh k v d : ~ In k (keys d) -> dict_set k v d = d ++ [(k, v)].
Proof.
  induction d as [|[k' v'] tl IH]; simpl; intros Hni; [reflexivity|].
  destruct (String.eqb k k') eqn:E.
  - apply String.eqb_eq in E. subst. exfalso; auto.
  - rewrite IH; auto.
Qed.

Lemma keys_dict_set_in k v d : In k (keys d) -> keys (dict_set k v d) = keys d.
Proof.
  induction d as [|[k' v'] tl IH]; simpl; intros Hin; [destruct Hin|].
  destruct (String.eqb k k') eqn:E; simpl.
  - apply String.eqb_eq in E. subst. reflexivity.
  - f_equal. apply IH. destruct Hin as [H|H]; [|exact H].
    apply String.eqb_neq in E. congruence.
Qed.

Lemma keys_dict_set k v d :
  keys (dict_set k v d) = if dict_mem k d then keys d else keys d ++ [k].
Proof.
  destruct (dict_mem k d) eqn:E.
  - apply keys_dict_set_in. apply dict_mem_true. exact E.
  - apply dict_mem_false in E. rewrite dict_set_fresh by exact E.
    unfold keys. rewrite map_app. reflexivity.
Qed.

Lemma in_keys_dict_set k k' v d :
  In k (keys (dict_set k' v d)) <-> k = k' \/ In k (keys d).
Proof.
  rewrite keys_dict_set. destruct (dict_mem k' d) eqn:E.
  - apply dict_mem_true in E. split; [auto | intros [->|H]; auto].
  - rewrite in_app_iff. simpl. split; [intros [H|[H|[]]]; auto | intros [->|H]; auto].
Qed.

Lemma nodup_dict_set k v d : NoDup (keys d) -> NoDup (keys (dict_set k v d)).
Proof.
  intros Hnd. rewrite keys_dict_set. destruct (dict_mem k d) eqn:E; [exact Hnd|].
  apply dict_mem_false in E.
  apply NoDup_app; auto.
  - constructor; [intros [] | constructor].
  - intros x Hx [Hk|[]]. subst. contradiction.
Qed.

Lemma nodup_dict_update d e : NoDup (keys d) -> NoDup (keys (dict_update d e)).
Proof.
  unfold dict_update. revert d. induction e as [|[k v] tl IH]; simpl; intros d Hnd; [exact Hnd|].
  apply IH. apply nodup_dict_set. exact Hnd.
Qed.

Lemma dict_get_update k d e :
  NoDup (keys e) ->
  dict_get k (dict_update d e)
  = match dict_get k e with Some v => Some v | None => dict_get k d end.
Proof.
  unfold dict_update. revert d. induction e as [|[k' v'] tl IH]; simpl; intros d Hnd;
    [reflexivity|].
  inversion Hnd as [|? ? Hni Hnd']; subst.
  rewrite IH by exact Hnd'.
  destruct (String.eqb k k') eqn:E.
  - apply String.eqb_eq in E. subst k'.
    assert (Hn : dict_get k tl = None) by (apply dict_get_none; exact Hni).
    rewrite Hn. apply dict_get_set_eq.
  - destruct (dict_get k tl); [reflexivity|].
    apply dict_get_set_neq. apply String.eqb_neq. exact E.
Qed.

Lemma in_keys_dict_update k d e :
  In k (keys (dict_update d e)) <-> In k (keys d) \/ In k (keys e).
Proof.
  unfold dict_update. revert d. induction e as [|[k' v'] tl IH]; simpl; intros d; [tauto|].
  rewrite IH, in_keys_dict_set. intuition (subst; auto).
Qed.

(** Two dictionaries with the same keys in the same order and the same
    values are equal. *)
Lemma dict_ext d e :
  NoDup (keys d) -> keys d = keys e ->
  (forall k, dict_get k d = dict_get k e) -> d = e.
Proof.
  revert e. induction d as [|[k v] tl IH]; intros [|[k' v'] tl'] Hnd Hk Hget;
    try discriminate; [reflexivity|].
  simpl in Hk. injection Hk as Hk1 Hk2. subst k'.
  inversion Hnd as [|? ? Hni Hnd']; subst.
  pose proof (Hget k) as Hv. simpl in Hv. rewrite String.eqb_refl in Hv.
  injection Hv as Hv. subst v'. f_equal.
  apply IH; auto.
  intros q. specialize (Hget q). simpl in Hget.
  destruct (String.eqb q k) eqn:E; [|exact Hget].
  apply String.eqb_eq in E. subst q.
  assert (G1 : dict_get k tl = None) by (apply dict_get_none; exact Hni).
  assert (G2 : dict_get k tl' = None).
  { apply dict_get_none. unfold keys in *. rewrite <- Hk2. exact Hni. }
  congruence.
Qed.
End DictFacts.

(** ** String facts *)

Lemma substring_split (s : string) : forall i,
  (i <= String.length s)%nat ->
  (substring 0 i s ++ substring i (String.length s - i) s)%string = s.
Proof.
  induction s as [|c tl IH]; intros i Hi; simpl in *.
  - destruct i; reflexivity.
  - destruct i as [|i]; simpl.
    + f_equal. clear IH Hi. induction tl as [|c' tl' IH']; simpl; [reflexivity|].
      f_equal. exact IH'.
    + f_equal. apply IH. lia.
Qed.

Lemma endswith_decompose (key suffix : string) :
  endswith key suffix = true -> key = (drop_suffix key suffix ++ suffix)%string.
Proof.
  unfold endswith, drop_suffix. intros H.
  apply andb_true_iff in H. destruct H as [Hlen Heq].
  apply Nat.leb_le in Hlen. apply String.eqb_eq in Heq.
  pose proof (substring_split key (i := String.length key - String.length suffix)) as Hs.
  replace (String.length key - (String.length key - String.length suffix))%nat
    with (String.length suffix) in Hs by lia.
  rewrite Heq in Hs. symmetry. apply Hs. lia.
Qed.

(** A stem has one selector. *)
Lemma selector_inj (k1 k2 suffix : string) :
  endswith k1 suffix = true -> endswith k2 suffix = true ->
  drop_suffix k1 suffix = drop_suffix k2 suffix -> k1 = k2.
Proof.
  intros H1 H2 Heq.
  rewrite (endswith_decompose _ _ H1), (endswith_decompose _ _ H2), Heq. reflexivity.
Qed.

Lemma string_app_length (a b : string) :
  String.length (a ++ b)%string = (String.length a + String.length b)%nat.
Proof. induction a as [|c tl IH]; simpl; [reflexivity | rewrite IH; reflexivity]. Qed.

(** A selector differs from its stem. *)
Lemma stem_neq_selector (key : string) :
  endswith key class_suffix = true -> drop_suffix key class_suffix <> key.
Proof.
  intros H Heq. apply endswith_decompose in H.
  apply (f_equal String.length) in H. rewrite string_app_length, Heq in H.
  simpl in H. lia.
Qed.

Lemma split_dot_none (s : string) : split_dot s = None <-> contains_dot s = false.
Proof.
  induction s as [|c tl IH]; simpl; [tauto|].
  destruct (Ascii.eqb c dot); [split; discriminate|].
  destruct (split_dot tl) as [[r l]|].
  - split; [discriminate|]. intros H. apply IH in H. discriminate.
  - split; [intros _; apply IH; reflexivity | reflexivity].
Qed.

Lemma split_dot_join (key sub_key : string) :
  contains_dot key = false -> split_dot (join_dot key sub_key) = Some (key, sub_key).
Proof.
  unfold join_dot. induction key as [|c tl IH]; simpl; intros H.
  - reflexivity.
  - destruct (Ascii.eqb c dot); [discriminate|]. rewrite IH by exact H. reflexivity.
Qed.

Lemma contains_dot_join (key sub_key : string) : contains_dot (join_dot key sub_key) = true.
Proof.
  unfold join_dot. induction key as [|c tl IH]; simpl; [reflexivity|].
  destruct (Ascii.eqb c dot); auto.
Qed.

Lemma dots_zero (s : string) : contains_dot s = false -> dots s = O.
Proof.
  induction s as [|c tl IH]; simpl; [reflexivity|].
  destruct (Ascii.eqb c dot); [discriminate | exact IH].
Qed.

Lemma dots_join (key sub_key : string) :
  contains_dot key = false -> dots (join_dot key sub_key) = S (dots sub_key).
Proof.
  unfold join_dot. induction key as [|c tl IH]; simpl; intros H; [reflexivity|].
  destruct (Ascii.eqb c dot); [discriminate | auto].
Qed.

Lemma dots_split (s root leaf : string) :
  split_dot s = Some (root, leaf) -> dots s = S (dots leaf).
Proof.
  revert root. induction s as [|c tl IH]; simpl; intros root; [discriminate|].
  destruct (Ascii.eqb c dot).
  - intros H; inversion H; subst. reflexivity.
  - destruct (split_dot tl) as [[r l]|]; [|discriminate].
    intros H; inversion H; subst. eapply IH; reflexivity.
Qed.

(** ** Well-formed configurations *)

Lemma distinct_nodup (l : list string) : distinct l = true <-> NoDup l.
Proof.
  induction l as [|x tl IH]; simpl.
  - split; [constructor | reflexivity].
  - rewrite andb_true_iff, negb_true_iff, IH. split.
    + intros [Hx Hnd]. constructor; [|exact Hnd].
      intros Hin. assert (existsb (String.eqb x) tl = true); [|congruence].
      apply existsb_exists. exists x. split; [exact Hin | apply String.eqb_refl].
    + intros H. inversion H as [|? ? Hni Hnd]; subst. split; [|exact Hnd].
      destruct (existsb (String.eqb x) tl) eqn:E; [|reflexivity].
      apply existsb_exists in E. destruct E as (y & Hin & Hy).
      apply String.eqb_eq in Hy. subst. contradiction.
Qed.

Lemma wf_cfg_nodup {L} (c : cfg L) : wf_cfg c = true -> NoDup (keys c).
Proof.
  unfold wf_cfg. simpl. rewrite andb_true_iff. intros [H _]. apply distinct_nodup. exact H.
Qed.

Lemma wf_cfg_child {L} (c : cfg L) k sub :
  wf_cfg c = true -> In (k, Dict sub) c -> wf_cfg sub = true.
Proof.
  unfold wf_cfg at 1. simpl. rewrite andb_true_iff. intros [_ H] Hin.
  rewrite forallb_forall in H. apply (H _ Hin).
Qed.

Lemma wf_cfg_get {L} (c : cfg L) k sub :
  wf_cfg c = true -> dict_get k c = Some (Dict sub) -> wf_cfg sub = true.
Proof. intros Hwf Hg. eapply wf_cfg_child; eauto using dict_get_some_in. Qed.

(** ** Schema expansion *)

Section AddFacts.
Variable registry : string -> option schema.

Local Notation lookup := (get_cfg_class registry).
Local Notation step := (add_step registry).
Local Notation expand := (add_default_args_rec registry).

Lemma keys_params_nodup (cls : schema) : NoDup (keys (params_of cls)).
Proof.
  unfold params_of.
  assert (H : forall fs (acc : cfg arg), NoDup (keys acc) ->
            NoDup (keys (fold_left (fun params f =>
                           dict_set (fname f) (Leaf (ftype f, fdefault f)) params) fs acc))).
  { induction fs as [|f tl IH]; simpl; intros acc Hnd; [exact Hnd|].
    apply IH. apply nodup_dict_set. exact Hnd. }
  apply H. constructor.
Qed.

Lemma params_leaves (cls : schema) k n :
  dict_get k (params_of cls) = Some n -> exists x, n = Leaf x.
Proof.
  unfold params_of.
  assert (H : forall fs (acc : cfg arg),
            (forall n, dict_get k acc = Some n -> exists x, n = Leaf x) ->
            forall n, dict_get k (fold_left (fun params f =>
                           dict_set (fname f) (Leaf (ftype f, fdefault f)) params) fs acc)
                      = Some n -> exists x, n = Leaf x).
  { induction fs as [|f tl IH]; simpl; intros acc Hacc; [exact Hacc|].
    apply IH. intros n0. rewrite dict_get_set.
    destruct (String.eqb k (fname f)); [|apply Hacc].
    intros H0; inversion H0; eauto. }
  apply H. simpl. discriminate.
Qed.

(** The three ways a pass through the loop body of [add_default_args]
    can succeed. *)
Lemma add_step_ok rec c acc key v acc' :
  step rec c acc (key, v) = Ok acc' ->
  (exists sub r, v = Dict sub /\ rec sub = Ok r /\ acc' = dict_set key (Dict r) acc) \/
  (exists val, v = Leaf val /\
               (endswith key class_suffix = false \/ is_missing (snd val) = true) /\
               acc' = dict_set key (Leaf val) acc) \/
  (exists val cls params r,
      v = Leaf val /\ endswith key class_suffix = true /\ is_missing (snd val) = false /\
      lookup (snd val) = Ok cls /\
      merged_params c (drop_suffix key class_suffix) cls = Ok params /\
      rec params = Ok r /\
      acc' = dict_set (drop_suffix key class_suffix) (Dict r)
                      (dict_set key (Leaf val) acc)).
Proof.
  unfold add_step. simpl. destruct v as [val|sub].
  - destruct (endswith key class_suffix) eqn:He.
    + destruct (is_missing (snd val)) eqn:Hm.
      * intros H; inversion H; subst. right; left. eauto 10.
      * intros H. apply bind_ok in H. destruct H as (cls & Hc & H).
        apply bind_ok in H. destruct H as (params & Hp & H).
        apply bind_ok in H. destruct H as (r & Hr & H).
        inversion H; subst. right; right. exists val, cls, params, r. auto 10.
    + intros H; inversion H; subst. right; left. eauto 10.
  - intros H. apply bind_ok in H. destruct H as (r & Hr & H).
    inversion H; subst. left. eauto.
Qed.

Lemma merged_params_ok c stem cls params :
  merged_params c stem cls = Ok params ->
  (exists sub, dict_get stem c = Some (Dict sub) /\
               params = dict_update (params_of cls) sub) \/
  (dict_get stem c = None /\ params = params_of cls).
Proof.
  unfold merged_params. destruct (dict_get stem c) as [[x|sub]|]; intros H; inversion H; eauto.
Qed.

(** A property of [res_cfg] that every pass through the loop body keeps
    holds at the end of the loop. *)
Lemma foldM_invariant {A B} (f : A -> B -> result A) (P : A -> Prop) (Q : B -> Prop) :
  (forall acc x acc', Q x -> P acc -> f acc x = Ok acc' -> P acc') ->
  forall l acc res, Forall Q l -> P acc -> foldM f l acc = Ok res -> P res.
Proof.
  intros Hstep. induction l as [|x tl IH]; simpl; intros acc res Hq Hp H.
  - inversion H; subst; exact Hp.
  - apply bind_ok in H. destruct H as (acc' & Hf & H).
    inversion Hq as [|? ? Hx Htl]; subst.
    apply (IH acc' res Htl); [|exact H].
    apply (Hstep acc x acc'); assumption.
Qed.

(** Likewise when one pass establishes the property. *)
Lemma foldM_establish {A B} (f : A -> B -> result A) (P : A -> Prop) (Q : B -> Prop) x0 :
  (forall acc x acc', Q x -> P acc -> f acc x = Ok acc' -> P acc') ->
  (forall acc acc', Q x0 -> f acc x0 = Ok acc' -> P acc') ->
  forall l acc res, Forall Q l -> In x0 l -> foldM f l acc = Ok res -> P res.
Proof.
  intros Hstep Hest. induction l as [|x tl IH]; simpl; intros acc res Hq Hin H;
    [destruct Hin|].
  apply bind_ok in H. destruct H as (acc' & Hf & H).
  inversion Hq as [|? ? Hx Htl]; subst.
  destruct Hin as [->|Hin].
  - eapply foldM_invariant; [exact Hstep | exact Htl | | exact H].
    apply (Hest acc acc'); assumption.
  - apply (IH acc' res Htl Hin H).
Qed.

(** [add_default_args] keeps the terminal entries of its argument. *)
Lemma expand_keeps_leaf d (m r : cfg arg) f x :
  expand d m = Ok r -> NoDup (keys m) ->
  dict_get f m = Some (Leaf x) -> dict_get f r = Some (Leaf x).
Proof.
  destruct d as [|d]; simpl; [discriminate|].
  intros H Hnd Hf.
  apply foldM_establish with (f := step (expand d) m)
           (P := fun acc => dict_get f acc = Some (Leaf x))
           (Q := fun kv => In kv m) (x0 := (f, Leaf x)) (l := m) (acc := []).
  - intros acc [k v] acc' Hin Hp Hs.
    apply add_step_ok in Hs.
    destruct Hs as [(sub & r0 & -> & _ & ->)|[(val & -> & _ & ->)|
                    (val & cls & params & r0 & -> & He & _ & _ & Hmp & _ & ->)]].
    + rewrite dict_get_set. destruct (String.eqb f k) eqn:E; [|exact Hp].
      apply String.eqb_eq in E. subst k.
      rewrite (dict_get_in _ _ _ Hnd Hin) in Hf. discriminate.
    + rewrite dict_get_set. destruct (String.eqb f k) eqn:E; [|exact Hp].
      apply String.eqb_eq in E. subst k.
      rewrite (dict_get_in _ _ _ Hnd Hin) in Hf. exact Hf.
    + rewrite dict_get_set.
      destruct (String.eqb f (drop_suffix k class_suffix)) eqn:E.
      * apply String.eqb_eq in E. subst f.
        unfold merged_params in Hmp. rewrite Hf in Hmp. discriminate.
      * rewrite dict_get_set. destruct (String.eqb f k) eqn:E'; [|exact Hp].
        apply String.eqb_eq in E'. subst k.
        rewrite (dict_get_in _ _ _ Hnd Hin) in Hf. exact Hf.
  - intros acc acc' Hin Hs. apply add_step_ok in Hs.
    destruct Hs as [(sub & r0 & Hv & _)|[(val & Hv & _ & ->)|
                    (val & cls & params & r0 & Hv & He & _ & _ & _ & _ & ->)]].
    + discriminate.
    + inversion Hv; subst. apply dict_get_set_eq.
    + inversion Hv; subst. rewrite dict_get_set_neq.
      * apply dict_get_set_eq.
      * intros Heq. symmetry in Heq. revert Heq. apply stem_neq_selector. exact He.
  - apply Forall_forall. auto.
  - apply dict_get_some_in. exact Hf.
  - exact H.
Qed.

(** More depth does not change a result. *)
Lemma foldM_ext_ok {A B} (f g : A -> B -> result A) :
  (forall acc x acc', f acc x = Ok acc' -> g acc x = Ok acc') ->
  forall l acc res, foldM f l acc = Ok res -> foldM g l acc = Ok res.
Proof.
  intros Hfg. induction l as [|x tl IH]; simpl; intros acc res H; [exact H|].
  apply bind_ok in H. destruct H as (acc' & Hf & H).
  rewrite (Hfg _ _ _ Hf). simpl. auto.
Qed.

Lemma expand_more d : forall n c r,
  expand d c = Ok r -> expand (d + n) c = Ok r.
Proof.
  induction d as [|d IH]; intros n c r; simpl; [discriminate|].
  apply foldM_ext_ok. intros acc [k v] acc'. unfold add_step. simpl.
  destruct v as [val|sub].
  - destruct (endswith k class_suffix); [|auto].
    destruct (is_missing (snd val)); [auto|].
    destruct (lookup (snd val)) as [cls|]; simpl; [|auto].
    destruct (merged_params c (drop_suffix k class_suffix) cls) as [params|]; simpl; [|auto].
    destruct (expand d params) as [r0|] eqn:E; simpl; [|discriminate].
    rewrite (IH n _ _ E). auto.
  - destruct (expand d sub) as [r0|] eqn:E; simpl; [|discriminate].
    rewrite (IH n _ _ E). auto.
Qed.
End AddFacts.

Section OverridePrecedence.
Variable registry : string -> option schema.
Variable depth : nat.

(** A terminal that sits under a key holding a dictionary is still
    there, under the same key, after [add_default_args]. *)
Lemma expand_keeps_nested_leaf d (c res sub : cfg arg) stem f x :
  add_default_args_rec registry (S d) c = Ok res ->
  NoDup (keys c) -> NoDup (keys sub) ->
  dict_get stem c = Some (Dict sub) ->
  dict_get f sub = Some (Leaf x) ->
  exists sub', dict_get stem res = Some (Dict sub') /\ dict_get f sub' = Some (Leaf x).
Proof.
  simpl. intros H Hnd Hnds Hstem Hf.
  apply foldM_establish with (f := add_step registry (add_default_args_rec registry d) c)
           (P := fun acc => exists sub', dict_get stem acc = Some (Dict sub') /\
                                         dict_get f sub' = Some (Leaf x))
           (Q := fun kv => In kv c) (x0 := (stem, Dict sub)) (l := c) (acc := []).
  - intros acc [k v] acc' Hin Hp Hs.
    apply add_step_ok in Hs.
    destruct Hs as [(s & r0 & -> & Hr & ->)|[(val & -> & _ & ->)|
                    (val & cls & params & r0 & -> & He & _ & _ & Hmp & Hr & ->)]].
    + rewrite dict_get_set. destruct (String.eqb stem k) eqn:E; [|exact Hp].
      apply String.eqb_eq in E. subst k.
      rewrite (dict_get_in _ _ _ Hnd Hin) in Hstem. inversion Hstem; subst s.
      exists r0. split; [reflexivity|]. eapply expand_keeps_leaf; eauto.
    + rewrite dict_get_set. destruct (String.eqb stem k) eqn:E; [|exact Hp].
      apply String.eqb_eq in E. subst k.
      rewrite (dict_get_in _ _ _ Hnd Hin) in Hstem. discriminate.
    + rewrite dict_get_set.
      destruct (String.eqb stem (drop_suffix k class_suffix)) eqn:E.
      * apply String.eqb_eq in E. rewrite <- E in Hmp.
        unfold merged_params in Hmp. rewrite Hstem in Hmp. inversion Hmp; subst params.
        exists r0. split; [reflexivity|].
        eapply expand_keeps_leaf; [exact Hr | |].
        -- apply nodup_dict_update. apply keys_params_nodup.
        -- rewrite dict_get_update by exact Hnds. rewrite Hf. reflexivity.
      * rewrite dict_get_set. destruct (String.eqb stem k) eqn:E'; [|exact Hp].
        apply String.eqb_eq in E'. subst k.
        rewrite (dict_get_in _ _ _ Hnd Hin) in Hstem. discriminate.
  - intros acc acc' Hin Hs. apply add_step_ok in Hs.
    destruct Hs as [(s & r0 & Hv & Hr & ->)|[(val & Hv & _)|
                    (val & cls & params & r0 & Hv & _)]]; try discriminate.
    inversion Hv; subst s. exists r0. split; [apply dict_get_set_eq|].
    eapply expand_keeps_leaf; eauto.
  - apply Forall_forall. auto.
  - apply dict_get_some_in. exact Hstem.
  - exact H.
Qed.

(** C5 (override precedence).  When a selector names a registered schema
    that declares [f] with default [D], and the stem already holds a
    dictionary with [f = V], [V] other than [D], then in what
    [add_default_args] returns the stem holds [f = V], not the default. *)
Theorem override_precedence (c res sub : cfg arg) (sel : string) (tsel : pytype)
        (name : value) (cls : schema) (f : string) (tp tV : pytype) (D V : value) :
  wf_cfg c = true ->
  endswith sel class_suffix = true ->
  dict_get sel c = Some (Leaf (tsel, name)) ->
  is_missing name = false ->
  get_cfg_class registry name = Ok cls ->
  In (mkField f tp D) (sfields cls) ->
  dict_get (drop_suffix sel class_suffix) c = Some (Dict sub) ->
  dict_get f sub = Some (Leaf (tV, V)) ->
  V <> D ->
  add_default_args registry depth c = Ok res ->
  exists sub',
    dict_get (drop_suffix sel class_suffix) res = Some (Dict sub') /\
    dict_get f sub' = Some (Leaf (tV, V)) /\
    dict_get f sub' <> Some (Leaf (tp, D)).
Proof.
  intros Hwf _ _ _ _ _ Hstem Hf Hne Hres.
  unfold add_default_args in Hres. destruct depth as [|d]; [discriminate|].
  destruct (@expand_keeps_nested_leaf d c res sub (drop_suffix sel class_suffix) f
              (tV, V) Hres) as (sub' & H1 & H2); auto.
  - apply wf_cfg_nodup. exact Hwf.
  - apply wf_cfg_nodup. eapply wf_cfg_get; eauto.
  - exists sub'. repeat split; auto. rewrite H2. intros H; inversion H; subst. auto.
Qed.
End OverridePrecedence.

Lemma override_precedence_witness :
  exists sub',
    dict_get "backbone"
             [("backbone_class", Leaf (TStr, VStr "B")); ("backbone", Dict sub')]
    = Some (Dict sub') /\
    dict_get "y" sub' = Some (Leaf (TInt, VInt 5)) /\
    dict_get "y" sub' <> Some (Leaf (TInt, VInt 2)).
Proof.
  destruct (@override_precedence Scenario.registry 1000
              [("backbone_class", Leaf (TStr, VStr "B"));
               ("backbone", Dict [("y", Leaf (TInt, VInt 5))])]
              [("backbone_class", Leaf (TStr, VStr "B"));
               ("backbone", Dict [("y", Leaf (TInt, VInt 5))])]
              [("y", Leaf (TInt, VInt 5))]
              "backbone_class" TStr (VStr "B") Scenario.schema_B "y" TInt TInt
              (VInt 2) (VInt 5))
    as (sub' & H1 & H2 & H3);
    try reflexivity.
  - left; reflexivity.
  - discriminate.
  - exists sub'. simpl in H1. inversion H1; subst. auto.
Defined.

(** ** Round trip between nested and flat form *)

Section RoundTrip.
Context {L : Type}.
Implicit Types (c d : cfg L) (g : dict L).

(** Induction over a configuration and the dictionaries nested in it. *)
Lemma cfg_induction (P : cfg L -> Prop) :
  P [] ->
  (forall k x tl, P tl -> P ((k, Leaf x) :: tl)) ->
  (forall k d tl, P d -> P tl -> P ((k, Dict d) :: tl)) ->
  forall c, P c.
Proof.
  intros Hnil Hleaf Hdict c.
  assert (H : forall n c, (cfg_size c <= n)%nat -> P c).
  { induction n as [|n IH]; intros [|[k [x|d]] tl] Hs; auto;
      unfold cfg_size in Hs; simpl in Hs;
      fold (cfg_size tl) in Hs; try fold (cfg_size d) in Hs; try lia.
    - apply Hleaf. apply IH. lia.
    - apply Hdict; apply IH; lia. }
  apply (H (cfg_size c)). lia.
Qed.

Lemma wf_cfg_cons k (v : node L) tl :
  wf_cfg ((k, v) :: tl) = true <->
  ~ In k (keys tl) /\ wf_node v = true /\ wf_cfg tl = true.
Proof.
  unfold wf_cfg. simpl. rewrite !andb_true_iff, negb_true_iff. split.
  - intros [[Hk Hd] [Hv Hf]]. repeat split; auto.
    intros Hin. assert (existsb (String.eqb k) (keys tl) = true); [|congruence].
    apply existsb_exists. exists k. split; [exact Hin | apply String.eqb_refl].
  - intros (Hk & Hv & Hd & Hf). repeat split; auto.
    destruct (existsb (String.eqb k) (keys tl)) eqn:E; [|reflexivity].
    apply existsb_exists in E. destruct E as (y & Hin & Hy).
    apply String.eqb_eq in Hy. subst. contradiction.
Qed.

Lemma dot_free_cons k (v : node L) tl :
  dot_free ((k, v) :: tl) = true <->
  contains_dot k = false /\ dot_free_node v = true /\ dot_free tl = true.
Proof.
  unfold dot_free. simpl. rewrite !andb_true_iff, negb_true_iff. tauto.
Qed.

Lemma root_of_plain k : contains_dot k = false -> root_of k = k.
Proof. unfold root_of. intros H. apply split_dot_none in H. rewrite H. reflexivity. Qed.

Lemma root_of_join k sk : contains_dot k = false -> root_of (join_dot k sk) = k.
Proof. unfold root_of. intros H. rewrite split_dot_join by exact H. reflexivity. Qed.

Lemma join_dot_inj k a b : join_dot k a = join_dot k b -> a = b.
Proof.
  unfold join_dot. induction k as [|ch tl IH]; simpl; intros H.
  - inversion H; reflexivity.
  - inversion H; auto.
Qed.

Lemma flat_spec_leaf k (x : L) (tl : cfg L) :
  flat_spec ((k, Leaf x) :: tl) = (k, x) :: flat_spec tl.
Proof. reflexivity. Qed.

Lemma flat_spec_dict k d (tl : cfg L) :
  flat_spec ((k, Dict d) :: tl) = map (prefix_key k) (flat_spec d) ++ flat_spec tl.
Proof. reflexivity. Qed.

Lemma keys_prefix k (g : dict L) : keys (map (prefix_key k) g) = map (join_dot k) (keys g).
Proof. unfold keys. rewrite !map_map. reflexivity. Qed.

(** The flat keys of a well-formed configuration are distinct, and each
    starts with a top-level key. *)
Lemma flat_spec_keys c :
  wf_cfg c = true -> dot_free c = true ->
  NoDup (keys (flat_spec c)) /\
  (forall q, In q (keys (flat_spec c)) -> In (root_of q) (keys c)).
Proof.
  induction c as [|k x tl IH|k d tl IHd IH] using cfg_induction; intros Hwf Hdf.
  - split; [constructor | intros q []].
  - apply wf_cfg_cons in Hwf. destruct Hwf as (Hk & _ & Hwf).
    apply dot_free_cons in Hdf. destruct Hdf as (Hc & _ & Hdf).
    destruct (IH Hwf Hdf) as [Hnd Hroot].
    rewrite flat_spec_leaf. simpl. split.
    + constructor; [|exact Hnd]. intros Hin. apply Hroot in Hin.
      rewrite root_of_plain in Hin by exact Hc. contradiction.
    + intros q [<-|Hin]; [left; symmetry; apply root_of_plain; exact Hc|].
      right. apply Hroot. exact Hin.
  - apply wf_cfg_cons in Hwf. destruct Hwf as (Hk & Hwd & Hwf).
    apply dot_free_cons in Hdf. destruct Hdf as (Hc & Hdd & Hdf).
    destruct (IH Hwf Hdf) as [Hnd Hroot].
    destruct (IHd Hwd Hdd) as [Hndd _].
    rewrite flat_spec_dict. unfold keys. rewrite map_app. fold (keys (flat_spec tl)).
    fold (keys (map (prefix_key k) (flat_spec d))). rewrite keys_prefix. split.
    + apply NoDup_app.
      * apply Injective_map_NoDup; [|exact Hndd].
        intros a b. apply join_dot_inj.
      * exact Hnd.
      * intros q Hq Hq'. apply in_map_iff in Hq. destruct Hq as (sk & <- & _).
        apply Hroot in Hq'. rewrite root_of_join in Hq' by exact Hc. contradiction.
    + intros q Hq. apply in_app_iff in Hq. destruct Hq as [Hq|Hq].
      * apply in_map_iff in Hq. destruct Hq as (sk & <- & _).
        rewrite root_of_join by exact Hc. left; reflexivity.
      * right. apply Hroot. exact Hq.
Qed.

(** Assigning the prefixed entries of a nested dictionary appends them
    when none of their keys is there yet. *)
Lemma set_prefixed_appends k g : forall acc,
  NoDup (keys g) ->
  (forall sk, In sk (keys g) -> ~ In (join_dot k sk) (keys acc)) ->
  fold_left (fun res sub => dict_set (join_dot k (fst sub)) (snd sub) res) g acc
  = acc ++ map (prefix_key k) g.
Proof.
  induction g as [|[sk sv] tl IH]; simpl; intros acc Hnd Hfresh.
  - rewrite app_nil_r. reflexivity.
  - inversion Hnd as [|? ? Hni Hnd']; subst.
    rewrite dict_set_fresh by (apply Hfresh; left; reflexivity).
    rewrite IH.
    + rewrite <- app_assoc. reflexivity.
    + exact Hnd'.
    + intros sk' Hin. unfold keys. rewrite map_app, in_app_iff. simpl.
      intros [H|[H|[]]].
      * revert H. apply Hfresh. right. exact Hin.
      * apply join_dot_inj in H. subst. contradiction.
Qed.

(** On a well-formed configuration without dots in keys,
    [deep_to_flat] is the concatenation [flat_spec]. *)
Lemma deep_to_flat_fold c :
  wf_cfg c = true -> dot_free c = true ->
  forall acc,
    (forall q, In q (keys acc) -> ~ In (root_of q) (keys c)) ->
    fold_left (deep_step deep_to_flat_node) c acc = acc ++ flat_spec c.
Proof.
  induction c as [|k x tl IH|k d tl IHd IH] using cfg_induction; intros Hwf Hdf acc Hacc.
  - simpl. rewrite app_nil_r. reflexivity.
  - apply wf_cfg_cons in Hwf. destruct Hwf as (Hk & _ & Hwf).
    apply dot_free_cons in Hdf. destruct Hdf as (Hc & _ & Hdf).
    simpl. unfold deep_step at 2. simpl.
    assert (Hfresh : ~ In k (keys acc)).
    { intros Hin. apply (Hacc k Hin). rewrite root_of_plain by exact Hc. left; reflexivity. }
    rewrite dict_set_fresh by exact Hfresh.
    rewrite IH; auto.
    + rewrite flat_spec_leaf, <- app_assoc. reflexivity.
    + intros q Hq. unfold keys in Hq. rewrite map_app, in_app_iff in Hq. simpl in Hq.
      destruct Hq as [Hq|[<-|[]]].
      * intros Hin. apply (Hacc q Hq). right. exact Hin.
      * rewrite root_of_plain by exact Hc. exact Hk.
  - apply wf_cfg_cons in Hwf. destruct Hwf as (Hk & Hwd & Hwf).
    apply dot_free_cons in Hdf. destruct Hdf as (Hc & Hdd & Hdf).
    simpl. unfold deep_step at 2. simpl.
    change (fold_left (deep_step deep_to_flat_node) d []) with (deep_to_flat d).
    assert (Hd : deep_to_flat d = flat_spec d).
    { unfold deep_to_flat. rewrite (IHd Hwd Hdd []); [reflexivity | intros q []]. }
    rewrite Hd.
    destruct (flat_spec_keys d Hwd Hdd) as [Hndd _].
    rewrite set_prefixed_appends.
    + rewrite IH; auto.
      * rewrite flat_spec_dict, <- app_assoc. reflexivity.
      * intros q Hq. unfold keys in Hq. rewrite map_app, in_app_iff in Hq.
        destruct Hq as [Hq|Hq].
        -- intros Hin. apply (Hacc q Hq). right. exact Hin.
        -- fold (keys (map (prefix_key k) (flat_spec d))) in Hq.
           rewrite keys_prefix in Hq. apply in_map_iff in Hq.
           destruct Hq as (sk & <- & _). rewrite root_of_join by exact Hc. exact Hk.
    + exact Hndd.
    + intros sk _ Hin. apply (Hacc _ Hin).
      rewrite root_of_join by exact Hc. left; reflexivity.
Qed.

Lemma deep_to_flat_spec c :
  wf_cfg c = true -> dot_free c = true -> deep_to_flat c = flat_spec c.
Proof.
  intros Hwf Hdf. unfold deep_to_flat.
  rewrite (deep_to_flat_fold c Hwf Hdf []); [reflexivity | intros q []].
Qed.

Lemma dict_get_last {V} k (v : V) (acc : dict V) :
  ~ In k (keys acc) -> dict_get k (acc ++ [(k, v)]) = Some v.
Proof.
  intros Hni. rewrite <- (dict_set_fresh k v acc Hni). apply dict_get_set_eq.
Qed.

Lemma dict_set_last {V} k (v v' : V) (acc : dict V) :
  ~ In k (keys acc) -> dict_set k v' (acc ++ [(k, v)]) = acc ++ [(k, v')].
Proof.
  induction acc as [|[k0 v0] tl IH]; simpl; intros Hni.
  - rewrite String.eqb_refl. reflexivity.
  - destruct (String.eqb k k0) eqn:E.
    + apply String.eqb_eq in E. subst. exfalso; auto.
    + rewrite IH; auto.
Qed.

(** The first loop of [flat_to_deep] on a terminal entry. *)
Lemma group_step_plain k (x : L) (acc : dict (@slot L)) :
  contains_dot k = false -> ~ In k (keys acc) ->
  group_step acc (k, x) = Ok (acc ++ [(k, Term x)]).
Proof.
  intros Hc Hni. unfold group_step. simpl.
  apply split_dot_none in Hc. rewrite Hc.
  rewrite dict_set_fresh by exact Hni. reflexivity.
Qed.

(** ... on an entry of the group that was assigned last. *)
Lemma group_step_more k sk (sv : L) g0 (acc : dict (@slot L)) :
  contains_dot k = false -> ~ In k (keys acc) -> ~ In sk (keys g0) ->
  group_step (acc ++ [(k, Group g0)]) (join_dot k sk, sv)
  = Ok (acc ++ [(k, Group (g0 ++ [(sk, sv)]))]).
Proof.
  intros Hc Hni Hsk. unfold group_step. simpl.
  rewrite split_dot_join by exact Hc.
  assert (Hm : dict_mem k (acc ++ [(k, Group g0)]) = true).
  { unfold dict_mem. rewrite dict_get_last by exact Hni. reflexivity. }
  rewrite Hm. rewrite dict_get_last by exact Hni.
  rewrite dict_set_last by exact Hni.
  rewrite dict_set_fresh by exact Hsk. reflexivity.
Qed.

(** ... on the first entry of a group. *)
Lemma group_step_first k sk (sv : L) (acc : dict (@slot L)) :
  contains_dot k = false -> ~ In k (keys acc) ->
  group_step acc (join_dot k sk, sv) = Ok (acc ++ [(k, Group [(sk, sv)])]).
Proof.
  intros Hc Hni. unfold group_step. simpl.
  rewrite split_dot_join by exact Hc.
  assert (Hm : dict_mem k acc = false) by (apply dict_mem_false; exact Hni).
  rewrite Hm. rewrite dict_set_fresh by exact Hni.
  rewrite dict_get_last by exact Hni.
  rewrite dict_set_last by exact Hni. reflexivity.
Qed.

Lemma group_block_more k (acc : dict (@slot L)) rest : forall g g0,
  contains_dot k = false -> ~ In k (keys acc) -> NoDup (keys (g0 ++ g)) ->
  foldM group_step (map (prefix_key k) g ++ rest) (acc ++ [(k, Group g0)])
  = foldM group_step rest (acc ++ [(k, Group (g0 ++ g))]).
Proof.
  induction g as [|[sk sv] tl IH]; intros g0 Hc Hni Hnd; simpl.
  - rewrite app_nil_r. reflexivity.
  - unfold prefix_key at 1. simpl.
    rewrite group_step_more; auto.
    + simpl. rewrite IH; auto.
      * rewrite <- app_assoc. reflexivity.
      * rewrite <- app_assoc. exact Hnd.
    + unfold keys in Hnd. rewrite map_app in Hnd. simpl in Hnd.
      apply NoDup_remove_2 in Hnd. intros Hin. apply Hnd.
      apply in_or_app. left. exact Hin.
Qed.

Lemma group_block k (acc : dict (@slot L)) rest g :
  contains_dot k = false -> ~ In k (keys acc) -> NoDup (keys g) -> g <> [] ->
  foldM group_step (map (prefix_key k) g ++ rest) acc
  = foldM group_step rest (acc ++ [(k, Group g)]).
Proof.
  intros Hc Hni Hnd Hne. destruct g as [|[sk sv] tl]; [congruence|].
  simpl. unfold prefix_key at 1. simpl.
  rewrite group_step_first by assumption. simpl.
  apply (@group_block_more k acc rest tl [(sk, sv)] Hc Hni Hnd).
Qed.

Lemma no_empty_cons_leaf k (x : L) tl :
  no_empty_dict ((k, Leaf x) :: tl) = true <-> no_empty_dict tl = true.
Proof. unfold no_empty_dict. simpl. tauto. Qed.

Lemma no_empty_cons_dict k d tl :
  no_empty_dict ((k, Dict d) :: tl) = true <->
  d <> [] /\ no_empty_dict d = true /\ no_empty_dict tl = true.
Proof.
  unfold no_empty_dict. simpl. destruct d as [|e d']; simpl.
  - split; [discriminate | intros [H _]; congruence].
  - rewrite andb_true_iff. split; [intros [H1 H2]; repeat split; auto; discriminate|].
    intros (_ & H1 & H2). auto.
Qed.

Lemma flat_spec_nonempty c :
  no_empty_dict c = true -> c <> [] -> flat_spec c <> [].
Proof.
  induction c as [|k x tl IH|k d tl IHd IH] using cfg_induction; intros Hne Hc.
  - congruence.
  - rewrite flat_spec_leaf. discriminate.
  - apply no_empty_cons_dict in Hne. destruct Hne as (Hd & Hned & _).
    rewrite flat_spec_dict. specialize (IHd Hned Hd).
    destruct (flat_spec d); [congruence | discriminate].
Qed.

(** The first loop of [flat_to_deep] on the flat form of a configuration
    rebuilds one slot per top-level entry. *)
Lemma group_flat_spec c : forall acc,
  wf_cfg c = true -> dot_free c = true -> no_empty_dict c = true ->
  (forall k, In k (keys c) -> ~ In k (keys acc)) ->
  foldM group_step (flat_spec c) acc = Ok (acc ++ map slot_of c).
Proof.
  induction c as [|[k [x|d]] tl IH]; intros acc Hwf Hdf Hne Hacc.
  - simpl. rewrite app_nil_r. reflexivity.
  - apply wf_cfg_cons in Hwf. destruct Hwf as (Hk & _ & Hwf).
    apply dot_free_cons in Hdf. destruct Hdf as (Hc & _ & Hdf).
    apply no_empty_cons_leaf in Hne.
    rewrite flat_spec_leaf. simpl.
    rewrite group_step_plain; [|exact Hc|apply Hacc; left; reflexivity]. simpl.
    rewrite IH; auto.
    + rewrite <- app_assoc. reflexivity.
    + intros q Hq. unfold keys. rewrite map_app, in_app_iff. simpl.
      intros [H|[H|[]]].
      * revert H. apply Hacc. right. exact Hq.
      * subst. contradiction.
  - apply wf_cfg_cons in Hwf. destruct Hwf as (Hk & Hwd & Hwf).
    apply dot_free_cons in Hdf. destruct Hdf as (Hc & Hdd & Hdf).
    apply no_empty_cons_dict in Hne. destruct Hne as (Hd & Hned & Hne).
    rewrite flat_spec_dict.
    rewrite group_block.
    + rewrite IH; auto.
      * rewrite <- app_assoc. reflexivity.
      * intros q Hq. unfold keys. rewrite map_app, in_app_iff. simpl.
        intros [H|[H|[]]].
        -- revert H. apply Hacc. right. exact Hq.
        -- subst. contradiction.
    + exact Hc.
    + apply Hacc. left; reflexivity.
    + apply (flat_spec_keys d Hwd Hdd).
    + apply flat_spec_nonempty; assumption.
Qed.

(** The second loop puts the nested dictionaries back. *)
Lemma resolve_flat_spec (rec : dict L -> result (cfg L)) c :
  (forall k d, In (k, Dict d) c -> rec (flat_spec d) = Ok d) ->
  resolve_groups rec (map slot_of c) = Ok c.
Proof.
  induction c as [|[k [x|d]] tl IH]; intros Hrec; simpl.
  - reflexivity.
  - rewrite IH; [reflexivity|]. intros k' d' Hin. apply (Hrec k'). right. exact Hin.
  - rewrite (Hrec k d) by (left; reflexivity). simpl.
    rewrite IH; [reflexivity|]. intros k' d' Hin. apply (Hrec k'). right. exact Hin.
Qed.

Lemma depth_le_nesting c k (v : node L) :
  In (k, v) c -> (depth_node v <= nesting c)%nat.
Proof.
  unfold nesting. induction c as [|[k0 v0] tl IH]; simpl; intros Hin; [destruct Hin|].
  destruct Hin as [H|H].
  - inversion H; subst. lia.
  - specialize (IH H). lia.
Qed.

Lemma wf_cfg_in c k d : wf_cfg c = true -> In (k, Dict d) c -> wf_cfg d = true.
Proof. apply wf_cfg_child. Qed.

Lemma dot_free_in c k d : dot_free c = true -> In (k, Dict d) c -> dot_free d = true.
Proof.
  unfold dot_free at 1. simpl. rewrite forallb_forall. intros H Hin.
  specialize (H _ Hin). simpl in H. apply andb_true_iff in H. apply H.
Qed.

Lemma no_empty_in c k d :
  no_empty_dict c = true -> In (k, Dict d) c -> no_empty_dict d = true.
Proof.
  unfold no_empty_dict at 1. simpl. rewrite forallb_forall. intros H Hin.
  specialize (H _ Hin). simpl in H. destruct d; [discriminate | exact H].
Qed.

(** With fuel beyond the depth of nesting, [flat_to_deep] undoes
    [flat_spec]. *)
Lemma flat_to_deep_rec_spec n : forall c,
  wf_cfg c = true -> dot_free c = true -> no_empty_dict c = true ->
  (nesting c <= n)%nat ->
  flat_to_deep_rec (S n) (flat_spec c) = Ok c.
Proof.
  induction n as [|n IH]; intros c Hwf Hdf Hne Hn; simpl.
  - rewrite (group_flat_spec c [] Hwf Hdf Hne) by (intros k _ []). simpl.
    apply resolve_flat_spec. intros k d Hin.
    apply depth_le_nesting in Hin. simpl in Hin. lia.
  - rewrite (group_flat_spec c [] Hwf Hdf Hne) by (intros k _ []). simpl.
    apply resolve_flat_spec. intros k d Hin.
    apply IH.
    + eapply wf_cfg_in; eauto.
    + eapply dot_free_in; eauto.
    + eapply no_empty_in; eauto.
    + apply depth_le_nesting in Hin. simpl in Hin. fold (nesting d) in Hin. lia.
Qed.

Lemma max_dots_app (a b : dict L) :
  max_dots (a ++ b) = Nat.max (max_dots a) (max_dots b).
Proof. unfold max_dots. rewrite map_app. apply list_max_app. Qed.

Lemma max_dots_prefix k (g : dict L) :
  contains_dot k = false -> g <> [] ->
  max_dots (map (prefix_key k) g) = S (max_dots g).
Proof.
  intros Hc. induction g as [|[sk sv] tl IH]; intros Hne; [congruence|].
  unfold max_dots in *. simpl. rewrite dots_join by exact Hc.
  destruct tl as [|e tl'].
  - simpl. lia.
  - rewrite IH by discriminate. lia.
Qed.

Lemma nesting_cons k (v : node L) (tl : cfg L) :
  nesting ((k, v) :: tl) = Nat.max (depth_node v) (nesting tl).
Proof. reflexivity. Qed.

Lemma max_dots_cons k (x : L) (g : dict L) :
  max_dots ((k, x) :: g) = Nat.max (dots k) (max_dots g).
Proof. reflexivity. Qed.

Lemma depth_node_dict (d : cfg L) : depth_node (Dict d) = S (nesting d).
Proof. reflexivity. Qed.

(** The keys of the flat form hold at least as many dots as the
    configuration is deep. *)
Lemma nesting_le_max_dots c :
  dot_free c = true -> no_empty_dict c = true ->
  (nesting c <= max_dots (flat_spec c))%nat.
Proof.
  induction c as [|k x tl IH|k d tl IHd IH] using cfg_induction; intros Hdf Hne.
  - unfold nesting, max_dots. simpl. lia.
  - apply dot_free_cons in Hdf. destruct Hdf as (Hc & _ & Hdf).
    apply no_empty_cons_leaf in Hne. specialize (IH Hdf Hne).
    rewrite flat_spec_leaf, nesting_cons, max_dots_cons. simpl depth_node. lia.
  - apply dot_free_cons in Hdf. destruct Hdf as (Hc & Hdd & Hdf).
    apply no_empty_cons_dict in Hne. destruct Hne as (Hd & Hned & Hne).
    specialize (IH Hdf Hne). specialize (IHd Hdd Hned).
    rewrite flat_spec_dict, max_dots_app, nesting_cons, depth_node_dict.
    rewrite max_dots_prefix; [|exact Hc|apply flat_spec_nonempty; assumption].
    lia.
Qed.

(** X24.  For a nested configuration with distinct keys in which no key
    holds the path separator and no nested dictionary is empty,
    [flat_to_deep(deep_to_flat(cfg))] is [cfg], keys in the same
    order. *)
Theorem round_trip c :
  wf_cfg c = true -> dot_free c = true -> no_empty_dict c = true ->
  flat_to_deep (deep_to_flat c) = Ok c.
Proof.
  intros Hwf Hdf Hne. rewrite (deep_to_flat_spec c Hwf Hdf).
  unfold flat_to_deep. apply flat_to_deep_rec_spec; auto.
  apply nesting_le_max_dots; assumption.
Qed.
End RoundTrip.

(** C2 (round trip).  The code breaks the claim, and the docstring of
    [flat_to_deep], which calls it the inverse of [deep_to_flat]: an
    empty nested dictionary leaves no entry in the flat form, so the
    configuration [{a: {}}], with distinct keys and without dots, comes
    back as the empty configuration, which is not equal to it. *)
Lemma empty_dict_is_lost :
  wf_cfg [("a", @Dict value [])] = true /\
  dot_free [("a", @Dict value [])] = true /\
  flat_to_deep (deep_to_flat [("a", @Dict value [])]) = Ok [] /\
  same_cfg (fun _ _ => true) [] [("a", @Dict value [])] = false.
Proof. repeat split. Qed.

Lemma round_trip_witness :
  flat_to_deep (deep_to_flat
                  [("a", Dict [("b", Leaf (VInt 1)); ("c", Leaf (VInt 2))]);
                   ("d", Leaf (VInt 3))])
  = Ok [("a", Dict [("b", Leaf (VInt 1)); ("c", Leaf (VInt 2))]);
        ("d", Leaf (VInt 3))].
Proof. apply round_trip; reflexivity. Defined.

(** ** Looking a flat key up after [flat_to_deep] *)

Lemma strip_prefix_app (p r : string) : strip_prefix p (p ++ r) = Some r.
Proof.
  induction p as [|c tl IH]; simpl; [reflexivity|].
  rewrite Ascii.eqb_refl. exact IH.
Qed.

Lemma join_dot_assoc (a b c : string) :
  join_dot (join_dot a b) c = join_dot a (join_dot b c).
Proof.
  unfold join_dot. induction a as [|ch tl IH]; simpl; [|rewrite IH; reflexivity].
  reflexivity.
Qed.

Lemma join_dot_empty (p r : string) : (join_dot p EmptyString ++ r)%string = join_dot p r.
Proof.
  unfold join_dot. induction p as [|ch tl IH]; simpl; [reflexivity|].
  rewrite IH. reflexivity.
Qed.

Lemma not_shadowed {V} (k : string) (m : dict V) p r :
  shadowed k m = false -> In p (keys m) -> k <> join_dot p r.
Proof.
  unfold shadowed. intros Hs Hin Hk.
  assert (H : existsb (fun p => match strip_prefix (join_dot p EmptyString) k with
                                | Some _ => true
                                | None => false
                                end) (keys m) = true); [|congruence].
  apply existsb_exists. exists p. split; [exact Hin|].
  rewrite Hk, <- (join_dot_empty p r), strip_prefix_app. reflexivity.
Qed.

Lemma split_dot_some (s root leaf : string) :
  split_dot s = Some (root, leaf) -> s = join_dot root leaf /\ contains_dot root = false.
Proof.
  unfold join_dot. revert root. induction s as [|c tl IH]; simpl; intros root; [discriminate|].
  destruct (Ascii.eqb c dot) eqn:E.
  - intros H; inversion H; subst. apply Ascii.eqb_eq in E. subst. split; reflexivity.
  - destruct (split_dot tl) as [[r l]|]; [|discriminate].
    intros H; inversion H; subst.
    destruct (IH r eq_refl) as [H1 H2]. split.
    + simpl. f_equal. exact H1.
    + simpl. rewrite E. exact H2.
Qed.

Lemma components_plain (s : string) : contains_dot s = false -> components s = [s].
Proof.
  induction s as [|c tl IH]; simpl; [reflexivity|].
  destruct (Ascii.eqb c dot); [discriminate|].
  intros H. rewrite (IH H). reflexivity.
Qed.

Lemma components_nonempty (s : string) : components s <> [].
Proof.
  induction s as [|c tl IH]; simpl; [discriminate|].
  destruct (Ascii.eqb c dot); [discriminate|].
  destruct (components tl); [contradiction | discriminate].
Qed.

Lemma components_join (root leaf : string) :
  contains_dot root = false ->
  components (join_dot root leaf) = root :: components leaf.
Proof.
  unfold join_dot. induction root as [|c tl IH]; simpl; intros H.
  - reflexivity.
  - destruct (Ascii.eqb c dot); [discriminate|]. rewrite (IH H). reflexivity.
Qed.

Section FlatLookup.
Context {L : Type}.
Implicit Types (m g : dict L).

Lemma group_step_ok (acc acc' : dict (@slot L)) q (v : L) :
  group_step acc (q, v) = Ok acc' ->
  (split_dot q = None /\ acc' = dict_set q (Term v) acc) \/
  (exists root leaf g,
      split_dot q = Some (root, leaf) /\
      (dict_get root acc = Some (Group g) \/ (dict_get root acc = None /\ g = [])) /\
      acc' = dict_set root (Group (dict_set leaf v g))
                      (if dict_mem root acc then acc else dict_set root (Group []) acc)).
Proof.
  unfold group_step. simpl. destruct (split_dot q) as [[root leaf]|].
  - destruct (dict_get root acc) as [[x|g]|] eqn:E.
    + assert (Hm : dict_mem root acc = true) by (unfold dict_mem; rewrite E; reflexivity).
      rewrite Hm, E. discriminate.
    + assert (Hm : dict_mem root acc = true) by (unfold dict_mem; rewrite E; reflexivity).
      rewrite Hm, E. intros H; inversion H; subst. right. exists root, leaf, g.
      split; [reflexivity|]. split; [auto|]. rewrite Hm. reflexivity.
    + assert (Hm : dict_mem root acc = false) by (unfold dict_mem; rewrite E; reflexivity).
      rewrite Hm, dict_get_set_eq. intros H; inversion H; subst.
      right. exists root, leaf, [].
      split; [reflexivity|]. split; [auto|]. rewrite Hm. reflexivity.
  - intros H; inversion H; subst. left. auto.
Qed.

Lemma dict_get_set_twice {V} (q k : string) (v w : V) (acc : dict V) :
  dict_get q (dict_set k v (if dict_mem k acc then acc else dict_set k w acc))
  = if String.eqb q k then Some v else dict_get q acc.
Proof.
  rewrite dict_get_set. destruct (String.eqb q k) eqn:E; [reflexivity|].
  destruct (dict_mem k acc); [reflexivity|].
  rewrite dict_get_set, E. reflexivity.
Qed.

(** Every group collected by the first loop has distinct keys, and each
    of them comes from a flat key. *)
Lemma groups_sound m (slots : dict (@slot L)) :
  foldM group_step m [] = Ok slots ->
  forall a g, dict_get a slots = Some (Group g) ->
              NoDup (keys g) /\ forall l, In l (keys g) -> In (join_dot a l) (keys m).
Proof.
  intros H.
  apply foldM_invariant with (f := @group_step L)
      (P := fun acc => forall a g, dict_get a acc = Some (Group g) ->
                NoDup (keys g) /\ forall l, In l (keys g) -> In (join_dot a l) (keys m))
      (Q := fun kv => In kv m) (l := m) (acc := []).
  - intros acc [q v] acc' Hin Hp Hs. apply group_step_ok in Hs.
    destruct Hs as [[Hq ->]|(root & leaf & g0 & Hq & Hg0 & ->)]; intros a g.
    + rewrite dict_get_set. destruct (String.eqb a q); [discriminate | apply Hp].
    + rewrite dict_get_set_twice. destruct (String.eqb a root) eqn:E; [|apply Hp].
      apply String.eqb_eq in E. subst a. intros Hg; inversion Hg; subst g. clear Hg.
      assert (Hold : NoDup (keys g0) /\
                     forall l, In l (keys g0) -> In (join_dot root l) (keys m)).
      { destruct Hg0 as [Hg0|[_ ->]]; [apply (Hp _ _ Hg0)|].
        split; [constructor | intros l []]. }
      destruct Hold as [Hnd Hsub]. split; [apply nodup_dict_set; exact Hnd|].
      intros l Hl. apply in_keys_dict_set in Hl. destruct Hl as [->|Hl]; [|auto].
      apply split_dot_some in Hq. destruct Hq as [Hq _]. rewrite <- Hq.
      apply (in_map fst) in Hin. exact Hin.
  - apply Forall_forall. auto.
  - intros a g Hg. discriminate.
  - exact H.
Qed.

(** A flat key without a dot ends as a terminal of the first loop. *)
Lemma group_plain_key m (slots : dict (@slot L)) k F :
  foldM group_step m [] = Ok slots -> NoDup (keys m) ->
  dict_get k m = Some F -> split_dot k = None ->
  dict_get k slots = Some (Term F).
Proof.
  intros H Hnd Hk Hsp.
  apply foldM_establish with (f := @group_step L)
      (P := fun acc => dict_get k acc = Some (Term F))
      (Q := fun kv => In kv m) (x0 := (k, F)) (l := m) (acc := []).
  - intros acc [q v] acc' Hin Hp Hs. apply group_step_ok in Hs.
    destruct Hs as [[Hq ->]|(root & leaf & g0 & Hq & Hg0 & ->)].
    + rewrite dict_get_set. destruct (String.eqb k q) eqn:E; [|exact Hp].
      apply String.eqb_eq in E. subst q.
      rewrite (dict_get_in _ _ _ Hnd Hin) in Hk. congruence.
    + rewrite dict_get_set_twice. destruct (String.eqb k root) eqn:E; [|exact Hp].
      apply String.eqb_eq in E. subst root.
      destruct Hg0 as [Hg0|[Hg0 _]]; congruence.
  - intros acc acc' Hin Hs. apply group_step_ok in Hs.
    destruct Hs as [[Hq ->]|(root & leaf & g0 & Hq & _)]; [|congruence].
    apply dict_get_set_eq.
  - apply Forall_forall. auto.
  - apply dict_get_some_in. exact Hk.
  - exact H.
Qed.

(** A flat key [root.leaf] ends in the group of [root], unless a
    terminal is assigned to [root] itself. *)
Lemma group_dotted_key m (slots : dict (@slot L)) k root leaf F :
  foldM group_step m [] = Ok slots -> NoDup (keys m) ->
  dict_get k m = Some F -> split_dot k = Some (root, leaf) ->
  ~ In root (keys m) ->
  exists g, dict_get root slots = Some (Group g) /\ dict_get leaf g = Some F.
Proof.
  intros H Hnd Hk Hsp Hroot.
  apply foldM_establish with (f := @group_step L)
      (P := fun acc => exists g, dict_get root acc = Some (Group g) /\
                                 dict_get leaf g = Some F)
      (Q := fun kv => In kv m) (x0 := (k, F)) (l := m) (acc := []).
  - intros acc [q v] acc' Hin (g & Hg & Hl) Hs. apply group_step_ok in Hs.
    destruct Hs as [[Hq ->]|(root' & leaf' & g0 & Hq & Hg0 & ->)].
    + rewrite dict_get_set. destruct (String.eqb root q) eqn:E; [|eauto].
      apply String.eqb_eq in E. subst q. exfalso. apply Hroot.
      apply (in_map fst) in Hin. exact Hin.
    + rewrite dict_get_set_twice. destruct (String.eqb root root') eqn:E; [|eauto].
      apply String.eqb_eq in E. subst root'.
      destruct Hg0 as [Hg0|[Hg0 _]]; [|congruence].
      rewrite Hg in Hg0. inversion Hg0; subst g0.
      eexists. split; [reflexivity|].
      rewrite dict_get_set. destruct (String.eqb leaf leaf') eqn:E'; [|exact Hl].
      apply String.eqb_eq in E'. subst leaf'.
      assert (q = k).
      { apply split_dot_some in Hq. apply split_dot_some in Hsp.
        destruct Hq as [-> _]. destruct Hsp as [-> _]. reflexivity. }
      subst q. rewrite (dict_get_in _ _ _ Hnd Hin) in Hk. congruence.
  - intros acc acc' Hin Hs. apply group_step_ok in Hs.
    destruct Hs as [[Hq _]|(root' & leaf' & g0 & Hq & _ & ->)]; [congruence|].
    rewrite Hsp in Hq. inversion Hq; subst.
    eexists. rewrite dict_get_set_twice, String.eqb_refl. split; [reflexivity|].
    apply dict_get_set_eq.
  - apply Forall_forall. auto.
  - apply dict_get_some_in. exact Hk.
  - exact H.
Qed.

Lemma resolve_groups_get (rec : dict L -> result (cfg L)) : forall slots c' q,
  resolve_groups rec slots = Ok c' ->
  (forall x, dict_get q slots = Some (Term x) -> dict_get q c' = Some (Leaf x)) /\
  (forall g, dict_get q slots = Some (Group g) ->
             exists d, rec g = Ok d /\ dict_get q c' = Some (Dict d)).
Proof.
  induction slots as [|[key [x|g]] tl IH]; intros c' q; simpl.
  - intros H; inversion H; subst. split; intros; discriminate.
  - intros H. apply bind_ok in H. destruct H as (r & Hr & H). inversion H; subst.
    simpl. destruct (String.eqb q key).
    + split; [intros y Hy; inversion Hy; reflexivity | intros; discriminate].
    + apply IH. exact Hr.
  - intros H. apply bind_ok in H. destruct H as (d & Hd & H).
    apply bind_ok in H. destruct H as (r & Hr & H). inversion H; subst.
    simpl. destruct (String.eqb q key).
    + split; [intros; discriminate|]. intros g' Hg'. inversion Hg'; subst. eauto.
    + apply IH. exact Hr.
Qed.

(** The entry of a flat key is found along its path in the nested form,
    when the key does not lie below a key holding a terminal. *)
Lemma flat_to_deep_rec_path n : forall m c' k F,
  flat_to_deep_rec n m = Ok c' -> NoDup (keys m) ->
  dict_get k m = Some F -> shadowed k m = false ->
  get_path (components k) c' = Some (Leaf F).
Proof.
  induction n as [|n IH]; intros m c' k F; simpl; [discriminate|].
  intros H Hnd Hk Hsh. apply bind_ok in H. destruct H as (slots & Hs & Hr).
  destruct (split_dot k) as [[root leaf]|] eqn:Hsp.
  - destruct (split_dot_some _ Hsp) as [Hkeq Hc].
    assert (Hroot : ~ In root (keys m)).
    { intros Hin. apply (@not_shadowed _ k m root leaf Hsh Hin). exact Hkeq. }
    destruct (@group_dotted_key m slots k root leaf F Hs Hnd Hk Hsp Hroot) as (g & Hg & Hl).
    destruct (@groups_sound m slots Hs root g Hg) as [Hndg Hsub].
    destruct (proj2 (@resolve_groups_get _ slots c' root Hr) g Hg) as (d & Hd & Hc').
    rewrite Hkeq, components_join by exact Hc.
    assert (Hpath : get_path (components leaf) d = Some (Leaf F)).
    { apply (IH g d leaf F Hd Hndg Hl).
      destruct (shadowed leaf g) eqn:E; [|reflexivity].
      unfold shadowed in E. apply existsb_exists in E. destruct E as (p & Hp & Hpre).
      destruct (strip_prefix (join_dot p EmptyString) leaf) as [r|] eqn:Hst; [|discriminate].
      exfalso. apply (@not_shadowed _ k m (join_dot root p) r Hsh (Hsub _ Hp)).
      rewrite Hkeq, join_dot_assoc. f_equal.
      clear - Hst. rewrite <- join_dot_empty.
      revert leaf Hst. generalize (join_dot p EmptyString) as pre.
      induction pre as [|c tl IHp]; simpl; intros leaf Hst.
      - inversion Hst; reflexivity.
      - destruct leaf as [|c' leaf']; [discriminate|].
        destruct (Ascii.eqb c c') eqn:E; [|discriminate].
        apply Ascii.eqb_eq in E. subst. f_equal. auto. }
    simpl. destruct (components leaf) eqn:Ecl; [exfalso; eapply components_nonempty; eauto|].
    rewrite Hc'. exact Hpath.
  - rewrite components_plain by (apply split_dot_none; exact Hsp). simpl.
    apply (proj1 (@resolve_groups_get _ slots c' k Hr)).
    eapply group_plain_key; eauto.
Qed.
End FlatLookup.

(** ** The file merger *)

Section DeepToFlatKeys.
Context {L : Type}.

Lemma fold_set_nodup {A} (key : A -> string) (val : A -> L) (l : list A) :
  forall acc : dict L,
    NoDup (keys acc) ->
    NoDup (keys (fold_left (fun res sub => dict_set (key sub) (val sub) res) l acc)).
Proof.
  induction l as [|x tl IH]; simpl; intros acc Hnd; [exact Hnd|].
  apply IH. apply nodup_dict_set. exact Hnd.
Qed.

(** The keys of a flat form are distinct, whatever was flattened. *)
Lemma deep_to_flat_nodup (c : cfg L) : NoDup (keys (deep_to_flat c)).
Proof.
  unfold deep_to_flat.
  assert (H : forall (l : cfg L) (acc : dict L),
            NoDup (keys acc) ->
            NoDup (keys (fold_left (deep_step deep_to_flat_node) l acc))).
  { induction l as [|[k v] tl IH]; simpl; intros acc Hnd; [exact Hnd|].
    apply IH. unfold deep_step. simpl. destruct v as [x|d].
    - apply nodup_dict_set. exact Hnd.
    - apply fold_set_nodup with (key := fun sub => join_dot k (fst sub)) (val := snd).
      exact Hnd. }
  apply H. constructor.
Qed.
End DeepToFlatKeys.

Section FileMerger.
Variable parse_known_args : list argument -> list string -> result (dict value * list string).
Variable load_yaml : value -> result (node value).

Local Notation apply_file := (apply_cfg_file parse_known_args load_yaml).

(** X25.  With a terminal under the [cfg_file] key of the
    configuration: when the path resolved from the tokens is the missing
    sentinel, [apply_cfg_file] returns the configuration as it is;
    otherwise it returns the nested form of the flat configuration updated
    with the flat entries of the file, in which a key of the file has the
    value of the file and any other key keeps its own, so that for a flat
    key [k] with default [D] that the file sets to [F], the configuration
    returned holds [F] along the path of [k]. *)
Theorem file_override_merger (c : cfg value) (args : list string) (dflt : value)
        (namespace : dict value) (rest : list string) :
  dict_get cfg_file_key c = Some (Leaf dflt) ->
  parse_known_args [ {| dest := cfg_file_key; adefault := Some dflt;
                        atype := ByType TStr |} ] args = Ok (namespace, rest) ->
  (dict_get cfg_file_key namespace = Some VMissing -> apply_file c args = Ok c) /\
  (forall path loaded,
      dict_get cfg_file_key namespace = Some path ->
      is_missing path = false ->
      load_yaml path = Ok (Dict loaded) ->
      let merged := dict_update (deep_to_flat c) (deep_to_flat loaded) in
      apply_file c args = flat_to_deep merged /\
      (forall k, dict_get k merged
                 = match dict_get k (deep_to_flat loaded) with
                   | Some F => Some F
                   | None => dict_get k (deep_to_flat c)
                   end) /\
      (forall k D F c',
          dict_get k (deep_to_flat c) = Some D ->
          dict_get k (deep_to_flat loaded) = Some F ->
          shadowed k merged = false ->
          apply_file c args = Ok c' ->
          get_path (components k) c' = Some (Leaf F))).
Proof.
  intros Hc Hp. split.
  - intros Hn. unfold apply_cfg_file. rewrite Hc, Hp. simpl. rewrite Hn. reflexivity.
  - intros path loaded Hn Hm Hl merged.
    assert (Happ : apply_file c args = flat_to_deep merged).
    { unfold apply_cfg_file. rewrite Hc, Hp. simpl. rewrite Hn.
      destruct path; try discriminate; rewrite Hl; reflexivity. }
    assert (Hget : forall k, dict_get k merged
                             = match dict_get k (deep_to_flat loaded) with
                               | Some F => Some F
                               | None => dict_get k (deep_to_flat c)
                               end).
    { intros k. apply dict_get_update. apply deep_to_flat_nodup. }
    split; [exact Happ|]. split; [exact Hget|].
    intros k D F c' _ HF Hsh Hok.
    rewrite Happ in Hok. unfold flat_to_deep in Hok.
    eapply flat_to_deep_rec_path; [exact Hok | | | exact Hsh].
    + apply nodup_dict_update. apply deep_to_flat_nodup.
    + rewrite Hget, HF. reflexivity.
Qed.
End FileMerger.

Lemma file_override_merger_witness :
  apply_cfg_file Scenario.argparse Scenario.no_file
    [("cfg_file", Leaf VMissing); ("opt", Dict [("lr", Leaf (VInt 1))])] []
  = Ok [("cfg_file", Leaf VMissing); ("opt", Dict [("lr", Leaf (VInt 1))])]
  /\
  apply_cfg_file Scenario.argparse
    (fun _ => Ok (Dict [("opt", Dict [("lr", Leaf (VInt 7))])]))
    [("cfg_file", Leaf VMissing); ("opt", Dict [("lr", Leaf (VInt 1))])]
    ["--cfg_file"; "run.yaml"]
  = Ok [("cfg_file", Leaf VMissing); ("opt", Dict [("lr", Leaf (VInt 7))])]
  /\
  get_path (components "opt.lr")
           [("cfg_file", Leaf VMissing); ("opt", Dict [("lr", Leaf (VInt 7))])]
  = Some (Leaf (VInt 7)).
Proof.
  split.
  - apply (proj1 (@file_override_merger Scenario.argparse Scenario.no_file
                    [("cfg_file", Leaf VMissing); ("opt", Dict [("lr", Leaf (VInt 1))])]
                    [] VMissing [("cfg_file", VMissing)] [] eq_refl eq_refl)).
    reflexivity.
  - split; [reflexivity|].
    apply (proj2 (proj2 (proj2 (@file_override_merger Scenario.argparse
                    (fun _ => Ok (Dict [("opt", Dict [("lr", Leaf (VInt 7))])]))
                    [("cfg_file", Leaf VMissing); ("opt", Dict [("lr", Leaf (VInt 1))])]
                    ["--cfg_file"; "run.yaml"] VMissing
                    [("cfg_file", VStr "run.yaml")] [] eq_refl eq_refl)
                    (VStr "run.yaml") [("opt", Dict [("lr", Leaf (VInt 7))])]
                    eq_refl eq_refl eq_refl))
             "opt.lr" (VInt 1) (VInt 7)
             [("cfg_file", Leaf VMissing); ("opt", Dict [("lr", Leaf (VInt 7))])]);
      reflexivity.
Defined.

(** C6 (file-override merger).  The merger does what the claim says,
    but resolution does not yield the value of the file when there is no
    command line at all, the case for which the docstring of
    [parse_args] says that only the configuration file is read: for the
    configuration [{cfg_file: run.yaml, a: 1}], a file that holds
    [{a: 7}] and the empty token list, [apply_cfg_file] returns [a = 7],
    and [parse_args] then raises the stall error in its first pass.
    With the file named on the command line instead, [parse_args]
    returns [a = 7]. *)
Theorem file_value_not_resolved :
  apply_cfg_file Scenario.argparse (fun _ => Ok (Dict [("a", Leaf (VInt 7))]))
                 [("cfg_file", Leaf (VStr "run.yaml")); ("a", Leaf (VInt 1))] []
  = Ok [("cfg_file", Leaf (VStr "run.yaml")); ("a", Leaf (VInt 7))]
  /\
  parse_args_run Scenario.registry Scenario.argparse
                 (fun _ => Ok (Dict [("a", Leaf (VInt 7))])) [] 1000 5
                 [("cfg_file", OVal (VStr "run.yaml")); ("a", OVal (VInt 1))] (Some [])
  = (1%nat, Some (Raise NoProgress))
  /\
  parse_args_run Scenario.registry Scenario.argparse
                 (fun _ => Ok (Dict [("a", Leaf (VInt 7))])) [] 1000 5
                 [("cfg_file", OVal VMissing); ("a", OVal (VInt 1))]
                 (Some ["--cfg_file"; "run.yaml"])
  = (2%nat, Some (Ok [("a", OVal (VInt 7)); ("cfg_file", OVal (VStr "run.yaml"))])).
Proof. repeat split; vm_compute; reflexivity. Qed.

(** ** The order of the keys after schema expansion *)

Lemma existsb_eqb_in (k : string) (ks : list string) :
  existsb (String.eqb k) ks = true <-> In k ks.
Proof.
  rewrite existsb_exists. split.
  - intros (x & Hin & Hx). apply String.eqb_eq in Hx. subst. exact Hin.
  - intros Hin. exists k. split; [exact Hin | apply String.eqb_refl].
Qed.

Lemma add_key_in k ks : In k ks -> add_key k ks = ks.
Proof.
  intros H. unfold add_key. apply existsb_eqb_in in H. rewrite H. reflexivity.
Qed.

Lemma add_key_fresh k ks : ~ In k ks -> add_key k ks = ks ++ [k].
Proof.
  intros H. unfold add_key. destruct (existsb (String.eqb k) ks) eqn:E; [|reflexivity].
  apply existsb_eqb_in in E. contradiction.
Qed.

Lemma in_add_key x k ks : In x (add_key k ks) <-> x = k \/ In x ks.
Proof.
  unfold add_key. destruct (existsb (String.eqb k) ks) eqn:E.
  - apply existsb_eqb_in in E. split; [auto | intros [->|H]; auto].
  - rewrite in_app_iff. simpl. intuition.
Qed.

Lemma nodup_add_key k ks : NoDup ks -> NoDup (add_key k ks).
Proof.
  intros Hnd. unfold add_key. destruct (existsb (String.eqb k) ks) eqn:E; [exact Hnd|].
  apply NoDup_app; auto.
  - constructor; [intros [] | constructor].
  - intros x Hx [Hk|[]]. subst. apply existsb_eqb_in in Hx. congruence.
Qed.

Lemma keys_dict_set_add {V} k (v : V) (d : dict V) :
  keys (dict_set k v d) = add_key k (keys d).
Proof.
  rewrite keys_dict_set. unfold add_key.
  destruct (dict_mem k d) eqn:E.
  - apply dict_mem_true in E. apply existsb_eqb_in in E. rewrite E. reflexivity.
  - apply dict_mem_false in E.
    destruct (existsb (String.eqb k) (keys d)) eqn:E'; [|reflexivity].
    apply existsb_eqb_in in E'. contradiction.
Qed.

Section KeyOrder.
Variable sigma : string -> option string.

Local Notation vis := (visit sigma).
Local Notation vall := (visit_all sigma).

Lemma visit_all_app ks a b : vall ks (a ++ b) = vall (vall ks a) b.
Proof. unfold visit_all. apply fold_left_app. Qed.

Lemma visit_all_cons ks a b : vall ks (a :: b) = vall (vis ks a) b.
Proof. reflexivity. Qed.

Lemma add_key_extends k ks : exists D, add_key k ks = ks ++ D.
Proof.
  unfold add_key. destruct (existsb (String.eqb k) ks).
  - exists []. rewrite app_nil_r. reflexivity.
  - eauto.
Qed.

Lemma visit_extends ks k : exists D, vis ks k = ks ++ D.
Proof.
  unfold visit. destruct (add_key_extends k ks) as [D1 H1]. rewrite H1.
  destruct (sigma k) as [u|].
  - destruct (add_key_extends u (ks ++ D1)) as [D2 H2]. rewrite H2.
    exists (D1 ++ D2). rewrite app_assoc. reflexivity.
  - eauto.
Qed.

(** Keys only enter at the end. *)
Lemma visit_all_extends todo : forall ks, exists Z, vall ks todo = ks ++ Z.
Proof.
  induction todo as [|k tl IH]; intros ks.
  - exists []. simpl. rewrite app_nil_r. reflexivity.
  - rewrite visit_all_cons. destruct (visit_extends ks k) as [D HD]. rewrite HD.
    destruct (IH (ks ++ D)) as [Z HZ]. rewrite HZ.
    exists (D ++ Z). rewrite app_assoc. reflexivity.
Qed.

Lemma in_visit x ks k :
  In x (vis ks k) <-> In x ks \/ x = k \/ sigma k = Some x.
Proof.
  unfold visit. destruct (sigma k) as [u|].
  - rewrite !in_add_key. split.
    + intros [->|[->|H]]; auto.
    + intros [H|[->|H]]; auto. inversion H; auto.
  - rewrite in_add_key. split.
    + intros [->|H]; auto.
    + intros [H|[->|H]]; auto. discriminate.
Qed.

Lemma in_visit_all x todo : forall ks,
  In x (vall ks todo) <->
  In x ks \/ In x todo \/ exists a, In a todo /\ sigma a = Some x.
Proof.
  induction todo as [|k tl IH]; intros ks.
  - simpl. split; [auto | intros [H|[[]|(a & [] & _)]]; exact H].
  - rewrite visit_all_cons, IH, in_visit. simpl. split.
    + intros [[H|[->|H]]|[H|(a & Ha & Hs)]]; eauto 6.
    + intros [H|[[->|H]|(a & [->|Ha] & Hs)]]; eauto 6.
Qed.

Lemma nodup_visit ks k : NoDup ks -> NoDup (vis ks k).
Proof.
  intros H. unfold visit. destruct (sigma k); auto using nodup_add_key.
Qed.

Lemma nodup_visit_all todo : forall ks, NoDup ks -> NoDup (vall ks todo).
Proof.
  induction todo as [|k tl IH]; intros ks H; [exact H|].
  rewrite visit_all_cons. apply IH. apply nodup_visit. exact H.
Qed.

(** Keys that are there already and are no selectors change nothing. *)
Lemma visit_all_absorb todo : forall ks,
  (forall x, In x todo -> In x ks /\ sigma x = None) -> vall ks todo = ks.
Proof.
  induction todo as [|k tl IH]; intros ks H; [reflexivity|].
  rewrite visit_all_cons.
  destruct (H k (or_introl eq_refl)) as [Hin Hs].
  unfold visit. rewrite Hs, add_key_in by exact Hin.
  apply IH. intros x Hx. apply H. right. exact Hx.
Qed.

Hypothesis stems_inert : forall a u, sigma a = Some u -> sigma u = None.

(** Visiting the keys that a visit added, in their order, adds them
    again in the same order. *)
Lemma visit_all_replay todo : forall ks Z,
  NoDup todo ->
  (forall b, In b todo -> sigma b <> None -> ~ In b ks) ->
  vall ks todo = ks ++ Z ->
  vall ks Z = ks ++ Z.
Proof.
  induction todo as [|b tl IH]; intros ks Z Hnd Hsel Heq.
  - simpl in Heq. assert (Z = []).
    { apply (app_inv_head ks). rewrite app_nil_r. symmetry. exact Heq. }
    subst. simpl. rewrite app_nil_r. reflexivity.
  - rewrite visit_all_cons in Heq.
    inversion Hnd as [|? ? Hb Hnd']; subst.
    destruct (visit_extends ks b) as [D HD].
    destruct (visit_all_extends tl (vis ks b)) as [Z' HZ'].
    assert (HZ : Z = D ++ Z').
    { apply (app_inv_head ks). rewrite <- Heq, HZ', HD, app_assoc. reflexivity. }
    subst Z. rewrite visit_all_app.
    assert (Hreplay : vall ks D = vis ks b).
    { clear IH Heq HZ'. unfold visit in HD |- *.
      destruct (sigma b) as [u|] eqn:Hs.
      - assert (Hnb : ~ In b ks) by (apply Hsel; [left; reflexivity | congruence]).
        rewrite (add_key_fresh b ks Hnb) in HD |- *.
        destruct (in_dec string_dec u (ks ++ [b])) as [Hu|Hu].
        + rewrite (add_key_in u (ks ++ [b]) Hu) in HD |- *.
          apply app_inv_head in HD. subst D.
          rewrite visit_all_cons. simpl. unfold visit.
          rewrite Hs, (add_key_fresh b ks Hnb). apply add_key_in. exact Hu.
        + rewrite (add_key_fresh u (ks ++ [b]) Hu) in HD |- *.
          rewrite <- app_assoc in HD. apply app_inv_head in HD. subst D.
          simpl app. rewrite !visit_all_cons. simpl. unfold visit.
          rewrite Hs, (add_key_fresh b ks Hnb), (add_key_fresh u (ks ++ [b]) Hu).
          rewrite (stems_inert Hs).
          apply add_key_in. apply in_or_app. right. left. reflexivity.
      - destruct (in_dec string_dec b ks) as [Hb'|Hb'].
        + rewrite (add_key_in b ks Hb') in HD |- *.
          assert (D = []).
          { apply (app_inv_head ks). rewrite app_nil_r. symmetry. exact HD. }
          subst D. reflexivity.
        + rewrite (add_key_fresh b ks Hb') in HD |- *.
          apply app_inv_head in HD. subst D.
          rewrite visit_all_cons. simpl. unfold visit.
          rewrite Hs. apply add_key_fresh. exact Hb'. }
    rewrite Hreplay, app_assoc, <- HD.
    apply (IH (vis ks b) Z' Hnd'); [|exact HZ'].
    intros b' Hb' Hsb' Hin.
    apply in_visit in Hin. destruct Hin as [Hin|[->|Hin]].
    + revert Hin. apply Hsel; [right; exact Hb' | exact Hsb'].
    + contradiction.
    + apply Hsb'. apply (stems_inert Hin).
Qed.
End KeyOrder.

Lemma before_app_r a b (l1 l2 : list string) :
  In a l1 -> In b l2 -> before a b (l1 ++ l2).
Proof.
  intros Ha Hb. apply in_split in Ha. destruct Ha as (x1 & x2 & ->).
  exists x1, (x2 ++ l2). split.
  - rewrite <- app_assoc. reflexivity.
  - apply in_or_app. right. exact Hb.
Qed.

Lemma before_extend a b (l z : list string) : before a b l -> before a b (l ++ z).
Proof.
  intros (x1 & x2 & -> & Hb). exists x1, (x2 ++ z). split.
  - rewrite <- app_assoc. reflexivity.
  - apply in_or_app. left. exact Hb.
Qed.

Lemma next_to_before a b l : next_to a b l -> before a b l.
Proof. intros (x1 & x2 & ->). exists x1, (b :: x2). split; [reflexivity | left; reflexivity]. Qed.

Lemma before_in a b l : before a b l -> In a l /\ In b l.
Proof.
  intros (x1 & x2 & -> & Hb). split; apply in_or_app; right; [left; reflexivity|].
  right. exact Hb.
Qed.

Lemma before_asym a b l : NoDup l -> before a b l -> before b a l -> False.
Proof.
  intros Hnd (x1 & x2 & Hx & Hb) (y1 & y2 & Hy & Ha).
  revert l y1 Hnd Hx Hy. induction x1 as [|c x1 IH]; intros l y1 Hnd Hx Hy; subst l.
  - inversion Hnd as [|? ? Hna _]; subst. destruct y1 as [|d y1]; simpl in Hy.
    + inversion Hy; subst. contradiction.
    + inversion Hy; subst. apply Hna. apply in_or_app. right. right. exact Ha.
  - simpl in Hnd. inversion Hnd as [|? ? Hnc Hnd']; subst.
    destruct y1 as [|d y1]; simpl in Hy.
    + inversion Hy; subst. apply Hnc. apply in_or_app. right. right. exact Hb.
    + inversion Hy; subst. eapply (IH _ y1 Hnd'); eauto.
Qed.

(** ** What [add_default_args] assigns, and in what order *)

Lemma foldM_app_ok {A B} (f : A -> B -> result A) l1 : forall l2 acc r,
  foldM f (l1 ++ l2) acc = Ok r ->
  exists mid, foldM f l1 acc = Ok mid /\ foldM f l2 mid = Ok r.
Proof.
  induction l1 as [|x tl IH]; simpl; intros l2 acc r H; [eauto|].
  apply bind_ok in H. destruct H as (acc' & Hf & H).
  rewrite Hf. simpl. apply IH. exact H.
Qed.

Lemma foldM_steps_ok {A B} (f : A -> B -> result A) l : forall acc r x,
  foldM f l acc = Ok r -> In x l -> exists a a', f a x = Ok a'.
Proof.
  induction l as [|y tl IH]; simpl; intros acc r x H Hin; [destruct Hin|].
  apply bind_ok in H. destruct H as (acc' & Hf & H).
  destruct Hin as [->|Hin]; [eauto | eapply IH; eauto].
Qed.

Lemma foldM_total {A B} (f : A -> B -> result A) l :
  (forall x acc, In x l -> exists acc', f acc x = Ok acc') ->
  forall acc, exists r, foldM f l acc = Ok r.
Proof.
  induction l as [|y tl IH]; simpl; intros H acc; [eauto|].
  destruct (H y acc (or_introl eq_refl)) as [acc' Hf]. rewrite Hf. simpl.
  apply IH. intros x a Hx. apply H. right. exact Hx.
Qed.

Lemma stem_of_some e q :
  stem_of e = Some q ->
  exists val, snd e = Leaf val /\ endswith (fst e) class_suffix = true /\
              is_missing (snd val) = false /\ q = drop_suffix (fst e) class_suffix.
Proof.
  unfold stem_of. destruct (snd e) as [val|sub]; [|discriminate].
  destruct (endswith (fst e) class_suffix) eqn:He; [|discriminate].
  destruct (is_missing (snd val)) eqn:Hm; [discriminate|].
  simpl. intros H; inversion H; subst. eauto.
Qed.

(** A stem has one selector. *)
Lemma stem_of_inj e1 e2 q : stem_of e1 = Some q -> stem_of e2 = Some q -> fst e1 = fst e2.
Proof.
  intros H1 H2. apply stem_of_some in H1. apply stem_of_some in H2.
  destruct H1 as (v1 & _ & E1 & _ & Q1). destruct H2 as (v2 & _ & E2 & _ & Q2).
  eapply selector_inj; eauto. congruence.
Qed.

Lemma stem_of_neq e q : stem_of e = Some q -> q <> fst e.
Proof.
  intros H. apply stem_of_some in H. destruct H as (v & _ & E & _ & ->).
  apply stem_neq_selector. exact E.
Qed.

Lemma stem_in_entry (l : cfg arg) e :
  NoDup (keys l) -> In e l -> stem_in l (fst e) = stem_of e.
Proof.
  intros Hnd Hin. unfold stem_in. destruct e as [k v]. simpl.
  rewrite (dict_get_in _ _ _ Hnd Hin). reflexivity.
Qed.

Lemma stem_in_some (l : cfg arg) k q :
  stem_in l k = Some q -> exists v, In (k, v) l /\ stem_of (k, v) = Some q.
Proof.
  unfold stem_in. destruct (dict_get k l) as [v|] eqn:E; [|discriminate].
  intros H. exists v. split; [apply dict_get_some_in; exact E | exact H].
Qed.

Unset Implicit Arguments.

Section Expansion.
Variable registry : string -> option schema.
Variable rec : cfg arg -> result (cfg arg).

Local Notation step := (add_step registry rec).
Local Notation lookup := (get_cfg_class registry).

(** The effect of one pass of the loop body of [add_default_args], by
    the kind of the entry. *)
Lemma step_dict l acc k sub acc' :
  step l acc (k, Dict sub) = Ok acc' ->
  exists r, rec sub = Ok r /\ acc' = dict_set k (Dict r) acc.
Proof.
  intros H. apply add_step_ok in H.
  destruct H as [(s & r & Hv & Hr & ->)|[(val & Hv & _)|(val & ? & ? & ? & Hv & _)]];
    try discriminate.
  inversion Hv; subst. eauto.
Qed.

Lemma step_plain l acc k val acc' :
  step l acc (k, Leaf val) = Ok acc' -> stem_of (k, Leaf val) = None ->
  acc' = dict_set k (Leaf val) acc.
Proof.
  intros H Hs. apply add_step_ok in H.
  destruct H as [(s & r & Hv & _)|[(val' & Hv & _ & ->)|
                 (val' & cls & params & r & Hv & He & Hm & _)]]; try discriminate.
  - inversion Hv; subst. reflexivity.
  - inversion Hv; subst val'. unfold stem_of in Hs. simpl in Hs.
    rewrite He, Hm in Hs. discriminate.
Qed.

Lemma step_selector l acc k val q acc' :
  step l acc (k, Leaf val) = Ok acc' -> stem_of (k, Leaf val) = Some q ->
  exists cls params r,
    lookup (snd val) = Ok cls /\
    merged_params l q cls = Ok params /\
    rec params = Ok r /\
    acc' = dict_set q (Dict r) (dict_set k (Leaf val) acc).
Proof.
  intros H Hs. apply stem_of_some in Hs. simpl in Hs.
  destruct Hs as (val0 & Hv0 & He & Hm & ->). inversion Hv0; subst val0.
  apply add_step_ok in H.
  destruct H as [(s & r & Hv & _)|[(val' & Hv & [Hc|Hc] & _)|
                 (val' & cls & params & r & Hv & _ & _ & Hl & Hp & Hr & ->)]];
    try discriminate; try (inversion Hv; subst; congruence).
  inversion Hv; subst val'. eauto 10.
Qed.

(** The keys after a pass. *)
Lemma step_keys l acc e acc' :
  step l acc e = Ok acc' ->
  keys acc' = visit (fun k => if String.eqb k (fst e) then stem_of e else None)
                    (keys acc) (fst e).
Proof.
  destruct e as [k [val|sub]]; simpl; intros H; unfold visit; rewrite String.eqb_refl.
  - destruct (stem_of (k, Leaf val)) as [q|] eqn:Hs.
    + destruct (step_selector _ _ _ _ _ _ H Hs) as (cls & params & r & _ & _ & _ & ->).
      rewrite !keys_dict_set_add. reflexivity.
    + rewrite (step_plain _ _ _ _ _ H Hs). apply keys_dict_set_add.
  - destruct (step_dict _ _ _ _ _ H) as (r & _ & ->). apply keys_dict_set_add.
Qed.

Lemma fold_keys (sigma : string -> option string) l es : forall acc r,
  foldM (step l) es acc = Ok r ->
  (forall e, In e es -> sigma (fst e) = stem_of e) ->
  keys r = visit_all sigma (keys acc) (keys es).
Proof.
  induction es as [|e tl IH]; simpl; intros acc r H Hs.
  - inversion H; reflexivity.
  - apply bind_ok in H. destruct H as (acc' & Hf & H).
    rewrite (IH _ _ H) by (intros; apply Hs; right; assumption).
    f_equal. rewrite (step_keys _ _ _ _ Hf). unfold visit.
    rewrite String.eqb_refl, (Hs e (or_introl eq_refl)). reflexivity.
Qed.

(** A pass leaves alone the keys that are neither the key of the entry
    nor its stem. *)
Lemma step_untouched l acc e acc' q :
  step l acc e = Ok acc' -> fst e <> q -> stem_of e <> Some q ->
  dict_get q acc' = dict_get q acc.
Proof.
  destruct e as [k [val|sub]]; simpl; intros H Hk Hs.
  - destruct (stem_of (k, Leaf val)) as [u|] eqn:Hu.
    + destruct (step_selector _ _ _ _ _ _ H Hu) as (cls & params & r & _ & _ & _ & ->).
      rewrite !dict_get_set_neq; congruence.
    + rewrite (step_plain _ _ _ _ _ H Hu). apply dict_get_set_neq. congruence.
  - destruct (step_dict _ _ _ _ _ H) as (r & _ & ->). apply dict_get_set_neq. congruence.
Qed.

Lemma fold_untouched l es q : forall acc r,
  foldM (step l) es acc = Ok r ->
  (forall e, In e es -> fst e <> q /\ stem_of e <> Some q) ->
  dict_get q r = dict_get q acc.
Proof.
  induction es as [|e tl IH]; simpl; intros acc r H Hes.
  - inversion H; reflexivity.
  - apply bind_ok in H. destruct H as (acc' & Hf & H).
    rewrite (IH _ _ H) by (intros; apply Hes; right; assumption).
    destruct (Hes e (or_introl eq_refl)) as [H1 H2].
    eapply step_untouched; eauto.
Qed.

(** When [add_default_args] returns, no stem is a selector. *)
Lemma stems_inert_ok l r :
  foldM (step l) l [] = Ok r -> NoDup (keys l) ->
  forall a u, stem_in l a = Some u -> stem_in l u = None.
Proof.
  intros H Hnd a u Ha. apply stem_in_some in Ha. destruct Ha as (v & Hin & Hs).
  destruct (@foldM_steps_ok _ _ _ _ _ _ _ H Hin) as (acc & acc' & Hstep).
  destruct (@stem_of_some _ _ Hs) as (val & Hv & _). simpl in Hv. subst v.
  destruct (step_selector _ _ _ _ _ _ Hstep Hs) as (cls & params & r0 & _ & Hp & _).
  unfold merged_params in Hp. unfold stem_in.
  destruct (dict_get u l) as [[x|sub]|]; try discriminate; reflexivity.
Qed.

Lemma keys_app {V} (l1 l2 : dict V) : keys (l1 ++ l2) = keys l1 ++ keys l2.
Proof. unfold keys. apply map_app. Qed.

Lemma nodup_split {V} (l1 l2 : dict V) k v :
  NoDup (keys (l1 ++ (k, v) :: l2)) ->
  ~ In k (keys l1) /\ ~ In k (keys l2) /\
  (forall x, In x (keys l1) -> ~ In x (keys l2)).
Proof.
  rewrite keys_app. simpl. intros H.
  pose proof (NoDup_remove_2 _ _ _ H) as Hk.
  repeat split.
  - intros Hin. apply Hk. apply in_or_app. left. exact Hin.
  - intros Hin. apply Hk. apply in_or_app. right. exact Hin.
  - intros x H1 H2. apply NoDup_remove_1 in H.
    induction (keys l1) as [|c tl IH]; simpl in *; [destruct H1|].
    inversion H as [|? ? Hc Hnd]; subst. destruct H1 as [->|H1].
    + apply Hc. apply in_or_app. right. exact H2.
    + apply IH; try assumption.
      intros Hin. apply Hk. right. exact Hin.
Qed.

(** The value under the key of an entry right after its pass. *)
Lemma step_own l acc q v acc' :
  step l acc (q, v) = Ok acc' ->
  match v with
  | Leaf x => dict_get q acc' = Some (Leaf x)
  | Dict s => exists s', rec s = Ok s' /\ dict_get q acc' = Some (Dict s')
  end.
Proof.
  destruct v as [val|sub]; intros H.
  - destruct (stem_of (q, Leaf val)) as [u|] eqn:Hs.
    + destruct (step_selector _ _ _ _ _ _ H Hs) as (cls & params & r & _ & _ & _ & ->).
      rewrite dict_get_set_neq; [apply dict_get_set_eq|].
      intros Heq. apply (@stem_of_neq _ _ Hs). symmetry. exact Heq.
    + rewrite (step_plain _ _ _ _ _ H Hs). apply dict_get_set_eq.
  - destruct (step_dict _ _ _ _ _ H) as (r & Hr & ->).
    exists r. split; [exact Hr | apply dict_get_set_eq].
Qed.

(** What a key holds in the result when no selector names it as its
    stem: the value of its own pass. *)
Lemma own_value l r q :
  foldM (step l) l [] = Ok r -> NoDup (keys l) ->
  (forall e, In e l -> stem_of e <> Some q) ->
  match dict_get q l with
  | None => dict_get q r = None
  | Some (Leaf x) => dict_get q r = Some (Leaf x)
  | Some (Dict s) => exists s', rec s = Ok s' /\ dict_get q r = Some (Dict s')
  end.
Proof.
  intros H Hnd Hsel. destruct (dict_get q l) as [v|] eqn:Hq.
  - apply dict_get_some_in in Hq. apply in_split in Hq. destruct Hq as (l1 & l2 & Hl).
    remember (add_step registry rec l) as f eqn:Hf.
    rewrite Hl in H. apply foldM_app_ok in H. destruct H as (mid & _ & H).
    simpl in H. apply bind_ok in H. destruct H as (mid' & Hstep & H).
    subst f.
    pose proof Hnd as Hnd'. rewrite Hl in Hnd'.
    destruct (nodup_split _ _ _ _ Hnd') as (_ & Hk2 & _).
    assert (Hun : dict_get q r = dict_get q mid').
    { apply (fold_untouched _ _ _ _ _ H). intros e He. split.
      - intros Heq. apply Hk2. rewrite <- Heq. apply (in_map fst) in He. exact He.
      - apply Hsel. rewrite Hl. apply in_or_app. right. right. exact He. }
    pose proof (step_own _ _ _ _ _ Hstep) as Hown.
    destruct v as [x|s]; [congruence|].
    destruct Hown as (s' & Hs' & Hg). exists s'. split; congruence.
  - rewrite (fold_untouched _ _ q _ _ H); [reflexivity|].
    intros e He. split; [|apply Hsel; exact He].
    intros Heq. apply dict_get_none in Hq. apply Hq. rewrite <- Heq.
    apply (in_map fst) in He. exact He.
Qed.

(** What the stem of a selector holds in the result, and where it
    stands: the expansion of the schema when the stem comes first or is
    new, the value of its own pass when it comes after the selector. *)
Lemma stem_value l r k val q :
  foldM (step l) l [] = Ok r -> NoDup (keys l) ->
  In (k, Leaf val) l -> stem_of (k, Leaf val) = Some q ->
  exists cls,
    lookup (snd val) = Ok cls /\
    ((dict_get q l = None /\
      exists s', rec (params_of cls) = Ok s' /\ dict_get q r = Some (Dict s') /\
                 next_to k q (keys r))
     \/
     (exists s s1 s2,
         dict_get q l = Some (Dict s) /\ rec s = Ok s1 /\
         rec (dict_update (params_of cls) s) = Ok s2 /\
         ((before q k (keys l) /\ dict_get q r = Some (Dict s2) /\ before q k (keys r))
          \/
          (before k q (keys l) /\ dict_get q r = Some (Dict s1) /\
           next_to k q (keys r))))).
Proof.
  intros H Hnd Hin Hs.
  pose proof (stems_inert_ok _ _ H Hnd) as Hinert.
  assert (Hsk : stem_in l k = Some q).
  { rewrite <- Hs. apply (@stem_in_entry l (k, Leaf val) Hnd Hin). }
  assert (Hqk : q <> k) by (apply (@stem_of_neq _ _ Hs)).
  destruct (in_split _ _ Hin) as (l1 & l2 & Hl).
  pose proof H as Hfull.
  remember (add_step registry rec l) as f eqn:Hf.
  rewrite Hl in H. apply foldM_app_ok in H. destruct H as (mid & Hmid & H).
  simpl in H. apply bind_ok in H. destruct H as (mid' & Hstep & Hrest).
  subst f.
  pose proof Hnd as Hnd'. rewrite Hl in Hnd'.
  destruct (nodup_split _ _ _ _ Hnd') as (Hk1 & Hk2 & Hdisj).
  destruct (step_selector _ _ _ _ _ _ Hstep Hs) as (cls & params & r0 & Hcls & Hp & Hr0 & Hmid').
  exists cls. split; [exact Hcls|].
  (* no other entry assigns [q] as its stem *)
  assert (Hother : forall e, In e l -> stem_of e = Some q -> fst e = k).
  { intros e He Hse. apply (@stem_of_inj e (k, Leaf val) q Hse Hs). }
  (* the keys before and after the pass of the selector *)
  assert (Hkmid : keys mid = visit_all (stem_in l) [] (keys l1)).
  { apply (fold_keys (stem_in l) _ _ _ _ Hmid). intros e He.
    apply stem_in_entry; [exact Hnd|]. rewrite Hl. apply in_or_app. left. exact He. }
  assert (Hnk : ~ In k (keys mid)).
  { rewrite Hkmid, in_visit_all. intros [[]|[Hk|(a & Ha & Hsa)]].
    - contradiction.
    - apply Hinert in Hsa. congruence. }
  assert (Hkr : exists Z, keys r = keys mid' ++ Z).
  { rewrite (fold_keys (stem_in l) _ _ _ _ Hrest).
    - apply visit_all_extends.
    - intros e He. apply stem_in_entry; [exact Hnd|].
      rewrite Hl. apply in_or_app. right. right. exact He. }
  destruct Hkr as [Z HZ].
  assert (Hkmid' : keys mid' = add_key q (keys mid ++ [k])).
  { rewrite Hmid', !keys_dict_set_add, (add_key_fresh k _ Hnk). reflexivity. }
  (* when [q] is not assigned before the selector, it comes right after it *)
  assert (Hnext : ~ In q (keys l1) -> next_to k q (keys r)).
  { intros Hq1.
    assert (Hnq : ~ In q (keys mid ++ [k])).
    { rewrite in_app_iff, Hkmid, in_visit_all. simpl.
      intros [[[]|[Hq|(a & Ha & Hsa)]]|[Hq|[]]]; try congruence; try contradiction.
      apply stem_in_some in Hsa. destruct Hsa as (v & Hv & Hsv).
      specialize (Hother _ Hv Hsv). simpl in Hother. subst a. contradiction. }
    rewrite (add_key_fresh q _ Hnq) in Hkmid'.
    exists (keys mid), Z. rewrite HZ, Hkmid', <- !app_assoc. reflexivity. }
  (* the passes after the selector that are not the pass of [q] leave [q] alone *)
  assert (Hafter : forall e, In e l2 -> stem_of e <> Some q).
  { intros e He Hse. apply Hk2. rewrite <- (Hother e); [apply (in_map fst) in He; exact He| |exact Hse].
    rewrite Hl. apply in_or_app. right. right. exact He. }
  assert (Hq_mid' : dict_get q mid' = Some (Dict r0)).
  { rewrite Hmid'. apply dict_get_set_eq. }
  destruct (@merged_params_ok _ _ _ _ Hp) as [(s & Hqs & Hparams)|[Hqn Hparams]]; subst params.
  - right.
    assert (Hqin : In (q, Dict s) l) by (apply dict_get_some_in; exact Hqs).
    destruct (@foldM_steps_ok _ _ _ _ _ _ _ Hfull Hqin) as (a & a' & Hstepq).
    destruct (step_dict _ _ _ _ _ Hstepq) as (s1 & Hs1 & _).
    exists s, s1, r0. repeat split; try assumption.
    rewrite Hl in Hqin. apply in_app_or in Hqin. destruct Hqin as [Hq1|[Hq|Hq2]].
    + left. apply (in_map fst) in Hq1. simpl in Hq1. repeat split.
      * rewrite Hl, keys_app. apply before_app_r; [exact Hq1 | left; reflexivity].
      * rewrite (fold_untouched _ _ q _ _ Hrest); [exact Hq_mid'|].
        intros e He. split; [|apply Hafter; exact He].
        intros Heq. apply (Hdisj q Hq1). rewrite <- Heq. apply (in_map fst) in He. exact He.
      * assert (Hqm : In q (keys mid)).
        { rewrite Hkmid, in_visit_all. right. left. exact Hq1. }
        rewrite (add_key_in q (keys mid ++ [k])) in Hkmid'
          by (apply in_or_app; left; exact Hqm).
        rewrite HZ, Hkmid', <- app_assoc.
        apply before_app_r; [exact Hqm | left; reflexivity].
    + inversion Hq.
    + right. pose proof Hq2 as Hq2k. apply (in_map fst) in Hq2k. simpl in Hq2k.
      assert (Hq1 : ~ In q (keys l1)) by (intros Hq1; apply (Hdisj q Hq1); exact Hq2k).
      repeat split.
      * rewrite Hl, keys_app. exists (keys l1), (keys l2). split; [reflexivity | exact Hq2k].
      * destruct (in_split _ _ Hq2) as (l3 & l4 & Hl2).
        remember (add_step registry rec l) as f eqn:Hf.
        rewrite Hl2 in Hrest. apply foldM_app_ok in Hrest.
        destruct Hrest as (mid2 & _ & Hrest).
        simpl in Hrest. apply bind_ok in Hrest. destruct Hrest as (mid3 & Hstepq' & Hrest).
        subst f.
        destruct (step_own _ _ _ _ _ Hstepq') as (s1' & Hs1' & Hg).
        assert (s1' = s1) by congruence. subst s1'.
        rewrite (fold_untouched _ _ q _ _ Hrest); [exact Hg|].
        intros e He. split.
        -- intros Heq. rewrite Hl2 in Hnd'.
           assert (Hnd2 : NoDup (keys (l3 ++ (q, Dict s) :: l4))).
           { rewrite keys_app in Hnd'. apply NoDup_app_remove_l in Hnd'.
             simpl in Hnd'. inversion Hnd'; assumption. }
           destruct (nodup_split _ _ _ _ Hnd2) as (_ & Hq4 & _).
           apply Hq4. rewrite <- Heq. apply (in_map fst) in He. exact He.
        -- apply Hafter. rewrite Hl2. apply in_or_app. right. right. exact He.
      * apply Hnext. exact Hq1.
  - left. split; [exact Hqn|]. exists r0. repeat split.
    + exact Hr0.
    + rewrite (fold_untouched _ _ q _ _ Hrest); [exact Hq_mid'|].
      intros e He. split; [|apply Hafter; exact He].
      intros Heq. apply dict_get_none in Hqn. apply Hqn.
      rewrite Hl, keys_app. apply in_or_app. right. right.
      rewrite <- Heq. apply (in_map fst) in He. exact He.
    + apply Hnext. intros Hq1. apply dict_get_none in Hqn. apply Hqn.
      rewrite Hl, keys_app. apply in_or_app. left. exact Hq1.
Qed.
End Expansion.

(** ** More on dictionaries and on the order of keys *)

Lemma absent_from_true ks k : absent_from ks k = true <-> ~ In k ks.
Proof.
  unfold absent_from. rewrite negb_true_iff. split.
  - intros H Hin. apply existsb_eqb_in in Hin. congruence.
  - intros H. destruct (existsb (String.eqb k) ks) eqn:E; [|reflexivity].
    apply existsb_eqb_in in E. contradiction.
Qed.

Lemma fold_add_key (todo : list string) : forall ks,
  NoDup todo ->
  fold_left (fun acc k => add_key k acc) todo ks = ks ++ filter (absent_from ks) todo.
Proof.
  induction todo as [|k tl IH]; intros ks Hnd; simpl.
  - rewrite app_nil_r. reflexivity.
  - inversion Hnd as [|? ? Hk Hnd']; subst. rewrite (IH _ Hnd').
    destruct (absent_from ks k) eqn:E.
    + apply absent_from_true in E. rewrite (add_key_fresh _ _ E), <- app_assoc. simpl.
      f_equal. f_equal. apply filter_ext_in. intros x Hx.
      destruct (absent_from ks x) eqn:Ex.
      * apply absent_from_true. apply absent_from_true in Ex.
        rewrite in_app_iff. simpl. intros [H|[H|[]]]; [contradiction|]. subst. contradiction.
      * destruct (absent_from (ks ++ [k]) x) eqn:Ex'; [|reflexivity].
        apply absent_from_true in Ex'. exfalso. apply Ex'. apply in_or_app. left.
        destruct (in_dec string_dec x ks) as [Hin|Hin]; [exact Hin|].
        apply absent_from_true in Hin. congruence.
    + assert (Hin : In k ks).
      { destruct (in_dec string_dec k ks) as [Hin|Hin]; [exact Hin|].
        apply absent_from_true in Hin. congruence. }
      rewrite (add_key_in _ _ Hin). reflexivity.
Qed.

(** The keys of [d.update(e)]: those of [d], then the new ones of [e]. *)
Lemma keys_dict_update {V} (d e : dict V) :
  NoDup (keys e) ->
  keys (dict_update d e) = keys d ++ filter (absent_from (keys d)) (keys e).
Proof.
  intros Hnd. rewrite <- (fold_add_key (keys e) (keys d) Hnd).
  unfold dict_update. clear Hnd. revert d.
  induction e as [|[k v] tl IH]; intros d; simpl; [reflexivity|].
  rewrite IH, keys_dict_set_add. reflexivity.
Qed.

Lemma dict_update_nil {V} (c : dict V) : NoDup (keys c) -> dict_update [] c = c.
Proof.
  intros Hnd. apply dict_ext.
  - apply nodup_dict_update. constructor.
  - rewrite (keys_dict_update [] c Hnd). simpl.
    rewrite <- (filter_ext_in (fun _ => true)).
    + clear. induction (keys c) as [|x tl IH]; simpl; [reflexivity | f_equal; exact IH].
    + intros. reflexivity.
  - intros k. rewrite (dict_get_update k [] c Hnd). simpl.
    destruct (dict_get k c); reflexivity.
Qed.

Lemma filter_none {A} (f : A -> bool) (l : list A) :
  (forall x, In x l -> f x = false) -> filter f l = [].
Proof.
  induction l as [|x tl IH]; simpl; intros H; [reflexivity|].
  rewrite (H x (or_introl eq_refl)). apply IH. intros y Hy. apply H. right. exact Hy.
Qed.

Lemma filter_all {A} (f : A -> bool) (l : list A) :
  (forall x, In x l -> f x = true) -> filter f l = l.
Proof.
  induction l as [|x tl IH]; simpl; intros H; [reflexivity|].
  rewrite (H x (or_introl eq_refl)). f_equal. apply IH. intros y Hy. apply H. right. exact Hy.
Qed.

Lemma absent_from_false ks k : absent_from ks k = false <-> In k ks.
Proof.
  unfold absent_from. rewrite negb_false_iff. apply existsb_eqb_in.
Qed.

(** Updating twice with the same dictionary is updating once, when the
    updated one is in front. *)
Lemma dict_update_absorb {V} (p c : dict V) :
  NoDup (keys p) -> NoDup (keys c) ->
  dict_update p (dict_update p c) = dict_update p c.
Proof.
  intros Hp Hc.
  assert (Hpc : NoDup (keys (dict_update p c))) by (apply nodup_dict_update; exact Hp).
  apply dict_ext.
  - apply nodup_dict_update. exact Hp.
  - rewrite (keys_dict_update p _ Hpc), (keys_dict_update p c Hc).
    f_equal. rewrite filter_app.
    rewrite (filter_none (absent_from (keys p)) (keys p)).
    + simpl. apply filter_all. intros x Hx. apply filter_In in Hx. apply Hx.
    + intros x Hx. apply absent_from_false. exact Hx.
  - intros k. rewrite (dict_get_update k p _ Hpc), (dict_get_update k p c Hc).
    destruct (dict_get k c); [reflexivity|]. destruct (dict_get k p); reflexivity.
Qed.

Lemma before_app_l_inv a b (x y : list string) :
  NoDup (x ++ y) -> before a b (x ++ y) -> In b x -> before a b x.
Proof.
  intros Hnd (l1 & l2 & Heq & Hb) Hbx.
  revert l1 Heq Hnd. induction x as [|c x IH]; intros l1 Heq Hnd; [destruct Hbx|].
  simpl in Hnd. inversion Hnd as [|? ? Hc Hnd']; subst.
  destruct l1 as [|d l1]; simpl in Heq; injection Heq as E1 E2; subst.
  - exists [], x. split; [reflexivity|].
    destruct Hbx as [->|Hbx]; [|exact Hbx].
    exfalso. apply Hc. exact Hb.
  - destruct Hbx as [->|Hbx].
    + exfalso. apply Hc. rewrite E2. apply in_or_app. right. right. exact Hb.
    + destruct (IH Hbx l1 E2 Hnd') as (m1 & m2 & -> & Hm).
      exists (d :: m1), m2. split; [reflexivity | exact Hm].
Qed.

Lemma before_app_r_inv a b (x y : list string) :
  before a b (x ++ y) -> ~ In a x -> before a b y.
Proof.
  intros (l1 & l2 & Heq & Hb) Hax.
  revert l1 Heq. induction x as [|c x IH]; intros l1 Heq.
  - simpl in Heq. exists l1, l2. auto.
  - destruct l1 as [|d l1]; simpl in Heq; injection Heq as E1 E2; subst.
    + exfalso. apply Hax. left. reflexivity.
    + apply (IH (fun H => Hax (or_intror H)) l1 E2).
Qed.

Lemma before_filter (f : string -> bool) a b (l : list string) :
  before a b (filter f l) -> before a b l.
Proof.
  intros (l1 & l2 & Heq & Hb).
  revert l1 Heq. induction l as [|c l IH]; intros l1 Heq; simpl in Heq.
  - destruct l1; discriminate.
  - destruct (f c) eqn:E.
    + destruct l1 as [|d l1]; simpl in Heq; injection Heq as E1 E2; subst.
      * exists [], l. split; [reflexivity|].
        apply filter_In in Hb. apply Hb.
      * destruct (IH l1 E2) as (m1 & m2 & -> & Hm).
        exists (d :: m1), m2. split; [reflexivity | exact Hm].
    + destruct (IH l1 Heq) as (m1 & m2 & -> & Hm).
      exists (c :: m1), m2. split; [reflexivity | exact Hm].
Qed.

Lemma wf_cfg_iff {L} (c : cfg L) :
  wf_cfg c = true <->
  NoDup (keys c) /\ (forall k s, In (k, Dict s) c -> wf_cfg s = true).
Proof.
  unfold wf_cfg at 1. simpl. rewrite andb_true_iff, distinct_nodup, forallb_forall. split.
  - intros [Hnd H]. split; [exact Hnd|]. intros k s Hin. apply (H _ Hin).
  - intros [Hnd H]. split; [exact Hnd|]. intros [k [x|s]] Hin; simpl; [reflexivity|].
    apply (H k s Hin).
Qed.

Lemma in_dict_set {V} k (v : V) (d : dict V) e :
  In e (dict_set k v d) -> e = (k, v) \/ In e d.
Proof.
  induction d as [|[k' v'] tl IH]; simpl.
  - intros [H|[]]; auto.
  - destruct (String.eqb k k'); simpl; intros [H|H]; auto.
    destruct (IH H); auto.
Qed.

Lemma wf_dict_set {L} k (v : node L) (acc : cfg L) :
  wf_cfg acc = true -> wf_node v = true -> wf_cfg (dict_set k v acc) = true.
Proof.
  rewrite !wf_cfg_iff. intros [Hnd H] Hv. split; [apply nodup_dict_set; exact Hnd|].
  intros k' s Hin. apply in_dict_set in Hin. destruct Hin as [Heq|Hin].
  - inversion Heq; subst. exact Hv.
  - apply (H k' s Hin).
Qed.

Lemma wf_dict_update {L} (d e : cfg L) :
  wf_cfg d = true -> wf_cfg e = true -> wf_cfg (dict_update d e) = true.
Proof.
  intros Hd He. apply wf_cfg_iff in He. destruct He as [_ He].
  unfold dict_update. revert d Hd. induction e as [|[k v] tl IH]; simpl; intros d Hd;
    [exact Hd|].
  apply IH.
  - intros k' s Hin. apply (He k' s). right. exact Hin.
  - apply wf_dict_set; [exact Hd|]. destruct v as [x|s]; [reflexivity|].
    apply (He k s). left. reflexivity.
Qed.

Lemma wf_params (cls : schema) : wf_cfg (params_of cls) = true.
Proof.
  unfold params_of.
  assert (H : forall fs (acc : cfg arg), wf_cfg acc = true ->
            wf_cfg (fold_left (fun params f =>
                      dict_set (fname f) (Leaf (ftype f, fdefault f)) params) fs acc) = true).
  { induction fs as [|f tl IH]; simpl; intros acc Hacc; [exact Hacc|].
    apply IH. apply wf_dict_set; [exact Hacc | reflexivity]. }
  apply H. reflexivity.
Qed.

Lemma selector_dec (l : cfg arg) q :
  (exists e, In e l /\ stem_of e = Some q) \/ (forall e, In e l -> stem_of e <> Some q).
Proof.
  induction l as [|e tl IH].
  - right. intros e [].
  - destruct IH as [(e' & Hin & Hs)|Hno].
    + left. exists e'. split; [right; exact Hin | exact Hs].
    + destruct (stem_of e) as [u|] eqn:Hs.
      * destruct (string_dec u q) as [->|Hne].
        -- left. exists e. split; [left; reflexivity | exact Hs].
        -- right. intros e' [<-|Hin]; [congruence | apply Hno; exact Hin].
      * right. intros e' [<-|Hin]; [congruence | apply Hno; exact Hin].
Qed.

(** ** Expanding an expanded configuration *)

Section Settling.
Variable registry : string -> option schema.
Variable rec : cfg arg -> result (cfg arg).

Local Notation step := (add_step registry rec).
Local Notation lookup := (get_cfg_class registry).

(** The passes of the loop body that return. *)
Lemma step_dict_run m acc k s r :
  rec s = Ok r -> step m acc (k, Dict s) = Ok (dict_set k (Dict r) acc).
Proof. intros H. unfold add_step. simpl. rewrite H. reflexivity. Qed.

Lemma step_plain_run m acc k val :
  stem_of (k, Leaf val) = None ->
  step m acc (k, Leaf val) = Ok (dict_set k (Leaf val) acc).
Proof.
  unfold stem_of, add_step. simpl. destruct (endswith k class_suffix); [|reflexivity].
  destruct (is_missing (snd val)); [reflexivity | discriminate].
Qed.

Lemma step_selector_run m acc k val q cls params r :
  stem_of (k, Leaf val) = Some q -> lookup (snd val) = Ok cls ->
  merged_params m q cls = Ok params -> rec params = Ok r ->
  step m acc (k, Leaf val) = Ok (dict_set q (Dict r) (dict_set k (Leaf val) acc)).
Proof.
  intros Hs Hc Hp Hr. apply stem_of_some in Hs. simpl in Hs.
  destruct Hs as (val0 & Hv & He & Hm & ->). inversion Hv; subst val0.
  unfold add_step. simpl. rewrite He, Hm, Hc. simpl. rewrite Hp. simpl. rewrite Hr.
  reflexivity.
Qed.

Lemma merged_params_dict m q cls s :
  dict_get q m = Some (Dict s) ->
  merged_params m q cls = Ok (dict_update (params_of cls) s).
Proof. intros H. unfold merged_params. rewrite H. reflexivity. Qed.

Hypothesis rec_wf : keeps_wf rec.
Hypothesis rec_settles : settles rec.
Hypothesis rec_carries : carries rec.

(** The recursive call is idempotent. *)
Lemma rec_idem c r : wf_cfg c = true -> rec c = Ok r -> rec r = Ok r.
Proof.
  intros Hwf H. pose proof (rec_wf c r Hwf H) as Hr.
  rewrite <- (dict_update_nil r (wf_cfg_nodup r Hr)) at 1.
  apply (rec_settles [] c r eq_refl Hwf).
  rewrite (dict_update_nil c (wf_cfg_nodup c Hwf)). exact H.
Qed.

Lemma rec_settles_defaults p r : wf_cfg p = true -> rec p = Ok r -> rec (dict_update p r) = Ok r.
Proof. intros Hwf H. apply (rec_settles p [] r Hwf eq_refl). exact H. Qed.

Section Result.
Variables l n : cfg arg.
Hypothesis l_wf : wf_cfg l = true.
Hypothesis run : foldM (step l) l [] = Ok n.

Lemma l_nodup : NoDup (keys l).
Proof. apply wf_cfg_nodup. exact l_wf. Qed.

Lemma expanded_keys : keys n = visit_all (stem_in l) [] (keys l).
Proof.
  apply (fold_keys registry rec (stem_in l) l l [] n run).
  intros e He. apply stem_in_entry; [exact l_nodup | exact He].
Qed.

Lemma expanded_nodup : NoDup (keys n).
Proof. rewrite expanded_keys. apply nodup_visit_all. constructor. Qed.

Lemma expanded_in k :
  In k (keys n) <-> In k (keys l) \/ exists a, In a (keys l) /\ stem_in l a = Some k.
Proof.
  rewrite expanded_keys, in_visit_all. simpl. tauto.
Qed.

(** The entries that are not mappings are those of the input. *)
Lemma expanded_leaf k x :
  dict_get k n = Some (Leaf x) <-> dict_get k l = Some (Leaf x).
Proof.
  destruct (selector_dec l k) as [(e & Hin & Hs)|Hno].
  - destruct e as [k0 v0]. destruct (@stem_of_some _ _ Hs) as (val & Hv & _).
    simpl in Hv. subst v0.
    destruct (stem_value registry rec l n k0 val k run l_nodup Hin Hs)
      as (cls & _ & [(Hl & s' & _ & Hn & _)|(s & s1 & s2 & Hl & _ & _ & [(_ & Hn & _)|(_ & Hn & _)])]);
      rewrite Hl, Hn; split; discriminate.
  - pose proof (own_value registry rec l n k run l_nodup Hno) as H.
    destruct (dict_get k l) as [[y|s]|].
    + rewrite H. tauto.
    + destruct H as (s' & _ & ->). split; discriminate.
    + rewrite H. tauto.
Qed.

(** So the selectors and their stems are those of the input. *)
Lemma expanded_stem_in k : stem_in n k = stem_in l k.
Proof.
  unfold stem_in.
  destruct (dict_get k n) as [[x|s]|] eqn:Hn.
  - apply expanded_leaf in Hn. rewrite Hn. reflexivity.
  - destruct (dict_get k l) as [[y|s0]|] eqn:Hl; try reflexivity.
    apply expanded_leaf in Hl. congruence.
  - destruct (dict_get k l) as [[y|s0]|] eqn:Hl; try reflexivity.
    apply expanded_leaf in Hl. congruence.
Qed.

(** Every mapping of the result is a result of the recursive call, which
    leaves it as it is. *)
Lemma expanded_settled k s : dict_get k n = Some (Dict s) -> rec s = Ok s.
Proof.
  intros Hn. destruct (selector_dec l k) as [(e & Hin & Hs)|Hno].
  - destruct e as [k0 v0]. destruct (@stem_of_some _ _ Hs) as (val & Hv & _).
    simpl in Hv. subst v0.
    destruct (stem_value registry rec l n k0 val k run l_nodup Hin Hs)
      as (cls & _ & [(Hl & s' & Hr & Hn' & _)|
                     (s0 & s1 & s2 & Hl & Hr1 & Hr2 & [(_ & Hn' & _)|(_ & Hn' & _)])]);
      rewrite Hn in Hn'; injection Hn' as ->.
    + apply (rec_idem _ _ (wf_params cls) Hr).
    + refine (rec_idem _ _ _ Hr2). apply wf_dict_update; [apply wf_params|].
      apply (@wf_cfg_get _ l k s0 l_wf Hl).
    + apply (rec_idem _ _ (@wf_cfg_get _ l k s0 l_wf Hl) Hr1).
  - pose proof (own_value registry rec l n k run l_nodup Hno) as H.
    destruct (dict_get k l) as [[y|s0]|] eqn:Hl; try congruence.
    destruct H as (s' & Hr & Hn'). rewrite Hn in Hn'. injection Hn' as ->.
    apply (rec_idem _ _ (@wf_cfg_get _ l k s0 l_wf Hl) Hr).
Qed.

(** The stem of a selector holds a mapping on which, laid over the
    defaults of the schema, the recursive call returns. *)
Lemma expanded_stem k val q :
  In (k, Leaf val) l -> stem_of (k, Leaf val) = Some q ->
  exists cls s r,
    lookup (snd val) = Ok cls /\ dict_get q n = Some (Dict s) /\
    rec (dict_update (params_of cls) s) = Ok r.
Proof.
  intros Hin Hs.
  destruct (stem_value registry rec l n k val q run l_nodup Hin Hs)
    as (cls & Hc & [(Hl & s' & Hr & Hn & _)|
                    (s0 & s1 & s2 & Hl & Hr1 & Hr2 & [(_ & Hn & _)|(_ & Hn & _)])]).
  - exists cls, s', s'. repeat split; try assumption.
    apply (rec_settles_defaults _ _ (wf_params cls) Hr).
  - exists cls, s2, s2. repeat split; try assumption.
    apply (rec_settles _ s0 _ (wf_params cls) (@wf_cfg_get _ l q s0 l_wf Hl) Hr2).
  - destruct (rec_carries (params_of cls) s0 s1 (wf_params cls)
                          (@wf_cfg_get _ l q s0 l_wf Hl) Hr1 (ex_intro _ s2 Hr2)) as [y Hy].
    exists cls, s1, y. repeat split; assumption.
Qed.

(** The keys of every level of the result are distinct. *)
Lemma expanded_wf : wf_cfg n = true.
Proof.
  apply wf_cfg_iff. split; [exact expanded_nodup|].
  intros k s Hin. pose proof (dict_get_in _ _ _ expanded_nodup Hin) as Hn.
  destruct (selector_dec l k) as [(e & Hine & Hs)|Hno].
  - destruct e as [k0 v0]. destruct (@stem_of_some _ _ Hs) as (val & Hv & _).
    simpl in Hv. subst v0.
    destruct (stem_value registry rec l n k0 val k run l_nodup Hine Hs)
      as (cls & _ & [(Hl & s' & Hr & Hn' & _)|
                     (s0 & s1 & s2 & Hl & Hr1 & Hr2 & [(_ & Hn' & _)|(_ & Hn' & _)])]);
      rewrite Hn in Hn'; injection Hn' as ->.
    + apply (rec_wf _ _ (wf_params cls) Hr).
    + refine (rec_wf _ _ _ Hr2). apply wf_dict_update; [apply wf_params|].
      apply (@wf_cfg_get _ l k s0 l_wf Hl).
    + apply (rec_wf _ _ (@wf_cfg_get _ l k s0 l_wf Hl) Hr1).
  - pose proof (own_value registry rec l n k run l_nodup Hno) as H.
    destruct (dict_get k l) as [[y|s0]|] eqn:Hl; try congruence.
    destruct H as (s' & Hr & Hn'). rewrite Hn in Hn'. injection Hn' as ->.
    apply (rec_wf _ _ (@wf_cfg_get _ l k s0 l_wf Hl) Hr).
Qed.
End Result.

(** No other selector has the stem of a selector that is not there. *)
Lemma no_selector_of (c : cfg arg) k val q :
  stem_of (k, Leaf val) = Some q -> dict_get k c = None ->
  forall e, In e c -> stem_of e <> Some q.
Proof.
  intros Hs Hk e He Hse. apply dict_get_none in Hk. apply Hk.
  pose proof (@stem_of_inj e (k, Leaf val) q Hse Hs) as Heq. simpl in Heq.
  rewrite <- Heq. apply (in_map fst) in He. exact He.
Qed.

(** [carries] goes from the recursive call to the loop. *)
Lemma expand_carries p c r :
  wf_cfg p = true -> wf_cfg c = true ->
  foldM (step c) c [] = Ok r ->
  (exists x, foldM (step (dict_update p c)) (dict_update p c) [] = Ok x) ->
  exists y, foldM (step (dict_update p r)) (dict_update p r) [] = Ok y.
Proof.
  intros Hp Hc Hr [x Hx].
  pose proof (expanded_nodup c r Hc Hr) as Hrnd.
  pose proof (wf_cfg_nodup c Hc) as Hcnd.
  assert (Hmnd : NoDup (keys (dict_update p r)))
    by (apply nodup_dict_update; apply wf_cfg_nodup; exact Hp).
  assert (Hm : forall k, dict_get k (dict_update p r)
                         = match dict_get k r with Some v => Some v | None => dict_get k p end)
    by (intros k; apply dict_get_update; exact Hrnd).
  assert (Hlc : forall k, dict_get k (dict_update p c)
                          = match dict_get k c with Some v => Some v | None => dict_get k p end)
    by (intros k; apply dict_get_update; exact Hcnd).
  assert (Hsub : forall k, dict_get k r = None -> dict_get k c = None).
  { intros k Hk. apply dict_get_none. apply dict_get_none in Hk. intros Hin. apply Hk.
    apply (expanded_in c r Hc Hr). left. exact Hin. }
  apply foldM_total. intros [k v] acc Hin.
  pose proof (dict_get_in _ _ _ Hmnd Hin) as Hk. rewrite Hm in Hk.
  destruct (dict_get k r) as [w|] eqn:Hrk.
  - injection Hk as ->. destruct v as [val|s].
    + pose proof Hrk as Hck. apply (expanded_leaf c r Hc Hr) in Hck.
      destruct (stem_of (k, Leaf val)) as [q|] eqn:Hs.
      * destruct (expanded_stem c r Hc Hr k val q (dict_get_some_in _ _ Hck) Hs)
          as (cls & s & r0 & Hcls & Hq & Hrec).
        eexists. eapply (step_selector_run _ _ _ _ _ cls _ _ Hs Hcls); [|exact Hrec].
        apply merged_params_dict. rewrite Hm, Hq. reflexivity.
      * eexists. apply step_plain_run. exact Hs.
    + eexists. apply step_dict_run. apply (expanded_settled c r Hc Hr k s Hrk).
  - pose proof (Hsub k Hrk) as Hck.
    assert (Hinlc : In (k, v) (dict_update p c)).
    { apply dict_get_some_in. rewrite Hlc, Hck. exact Hk. }
    destruct (@foldM_steps_ok _ _ _ _ _ _ _ Hx Hinlc) as (a & a' & Hstep).
    destruct v as [val|s].
    + destruct (stem_of (k, Leaf val)) as [q|] eqn:Hs.
      * destruct (step_selector _ _ _ _ _ _ _ _ Hstep Hs)
          as (cls & params0 & r0 & Hcls & Hp0 & Hr0 & _).
        pose proof (no_selector_of c k val q Hs Hck) as Hno.
        destruct (dict_get q r) as [w|] eqn:Hrq.
        -- pose proof (own_value registry rec c r q Hr Hcnd Hno) as Hown.
           destruct (dict_get q c) as [[y|s0]|] eqn:Hcq.
           ++ unfold merged_params in Hp0. rewrite Hlc, Hcq in Hp0. discriminate.
           ++ destruct Hown as (s' & Hrec & Hrq').
              unfold merged_params in Hp0. rewrite Hlc, Hcq in Hp0. injection Hp0 as <-.
              destruct (rec_carries (params_of cls) s0 s' (wf_params cls)
                          (@wf_cfg_get _ c q s0 Hc Hcq) Hrec (ex_intro _ r0 Hr0)) as [y Hy].
              eexists. eapply (step_selector_run _ _ _ _ _ cls _ _ Hs Hcls); [|exact Hy].
              apply merged_params_dict. rewrite Hm, Hrq. congruence.
           ++ congruence.
        -- pose proof (Hsub q Hrq) as Hcq.
           eexists. eapply (step_selector_run _ _ _ _ _ cls params0 _ Hs Hcls); [|exact Hr0].
           rewrite <- Hp0. unfold merged_params. rewrite Hm, Hlc, Hrq, Hcq. reflexivity.
      * eexists. apply step_plain_run. exact Hs.
    + destruct (step_dict _ _ _ _ _ _ _ Hstep) as (r0 & Hr0 & _).
      eexists. apply step_dict_run. exact Hr0.
Qed.

Lemma nodup_app_disjoint (x y : list string) a :
  NoDup (x ++ y) -> In a x -> In a y -> False.
Proof.
  intros Hnd Hx Hy. apply in_split in Hy. destruct Hy as (y1 & y2 & ->).
  rewrite app_assoc in Hnd. apply NoDup_remove_2 in Hnd. apply Hnd.
  apply in_or_app. left. apply in_or_app. left. exact Hx.
Qed.

(** The order of the keys of the result when the keys of the result are
    visited again, those of [A] first. *)
Lemma replay_keys (sigma : string -> option string) (A B : list string) :
  (forall a u, sigma a = Some u -> sigma u = None) ->
  NoDup (A ++ B) ->
  visit_all sigma [] (A ++ filter (absent_from A) (visit_all sigma [] (A ++ B)))
  = visit_all sigma [] (A ++ B).
Proof.
  intros Hinert Hnd.
  assert (HN : NoDup (visit_all sigma [] (A ++ B))) by (apply nodup_visit_all; constructor).
  rewrite (visit_all_app sigma [] A B) in *.
  set (W := visit_all sigma [] A) in *.
  destruct (visit_all_extends sigma B W) as [Z HZ]. rewrite HZ in *.
  assert (HW : forall x, In x W -> ~ In x A -> sigma x = None).
  { intros x Hx HxA. apply in_visit_all in Hx.
    destruct Hx as [[]|[Hx|(a & _ & Ha)]]; [contradiction|].
    apply (Hinert a x Ha). }
  rewrite filter_app, (filter_all (absent_from A) Z).
  - rewrite !visit_all_app. fold W.
    rewrite (@visit_all_absorb sigma (filter (absent_from A) W) W).
    + apply (@visit_all_replay sigma Hinert B W Z).
      * apply NoDup_app_remove_l in Hnd. exact Hnd.
      * intros b Hb Hsb HbW. apply Hsb. apply (HW b HbW).
        intros HbA. apply (nodup_app_disjoint A B b Hnd HbA Hb).
      * exact HZ.
    + intros x Hx. apply filter_In in Hx. destruct Hx as [Hx Hf].
      split; [exact Hx|]. apply (HW x Hx). apply absent_from_true. exact Hf.
  - intros x Hx. apply absent_from_true. intros HxA.
    apply (nodup_app_disjoint W Z x HN); [|exact Hx].
    apply in_visit_all. right. left. exact HxA.
Qed.

Lemma before_filter_in (f : string -> bool) a b (ks : list string) :
  before a b ks -> f a = true -> f b = true -> before a b (filter f ks).
Proof.
  intros (l1 & l2 & -> & Hb) Ha Hfb. exists (filter f l1), (filter f l2). split.
  - rewrite filter_app. simpl. rewrite Ha. reflexivity.
  - apply filter_In. split; assumption.
Qed.

Lemma before_app_l a b (x y : list string) : before a b y -> before a b (x ++ y).
Proof.
  intros (l1 & l2 & -> & Hb). exists (x ++ l1), l2. split; [|exact Hb].
  rewrite <- app_assoc. reflexivity.
Qed.

(** Moving the keys of [A] to the front keeps the order of two keys of
    [N] that stand in this order in [A ++ B] when the second is in [A]. *)
Lemma before_front (A B N : list string) a b :
  NoDup (A ++ B) -> before a b N ->
  (In b A -> before a b (A ++ B)) ->
  before a b (A ++ filter (absent_from A) N).
Proof.
  intros Hnd HN HA. destruct (in_dec string_dec b A) as [Hb|Hb].
  - apply before_extend. apply (before_app_l_inv a b A B Hnd (HA Hb) Hb).
  - destruct (before_in HN) as [HaN HbN].
    destruct (in_dec string_dec a A) as [Ha|Ha].
    + apply before_app_r; [exact Ha|]. apply filter_In. split; [exact HbN|].
      apply absent_from_true. exact Hb.
    + apply before_app_l. apply before_filter_in; [exact HN| |]; apply absent_from_true; assumption.
Qed.

(** [settles] goes from the recursive call to the loop. *)
Lemma expand_settles p c n :
  wf_cfg p = true -> wf_cfg c = true ->
  foldM (step (dict_update p c)) (dict_update p c) [] = Ok n ->
  foldM (step (dict_update p n)) (dict_update p n) [] = Ok n.
Proof.
  intros Hp Hc Hn.
  pose proof (wf_cfg_nodup p Hp) as Hpnd. pose proof (wf_cfg_nodup c Hc) as Hcnd.
  pose proof (keys_dict_update p c Hcnd) as Hkl.
  assert (Habs : dict_update p (dict_update p c) = dict_update p c)
    by (apply dict_update_absorb; assumption).
  set (l := dict_update p c) in *.
  assert (Hl : wf_cfg l = true) by (apply wf_dict_update; assumption).
  pose proof (wf_cfg_nodup l Hl) as Hlnd.
  pose proof (expanded_nodup l n Hl Hn) as Hnnd.
  pose proof (keys_dict_update p n Hnnd) as Hkm.
  (* the second expansion returns *)
  destruct (expand_carries p l n Hp Hl Hn) as [n' Hn'].
  { exists n. rewrite Habs. exact Hn. }
  assert (Hmwf : wf_cfg (dict_update p n) = true)
    by (apply wf_dict_update; [exact Hp | apply (expanded_wf l n Hl Hn)]).
  set (m := dict_update p n) in *.
  pose proof (wf_cfg_nodup m Hmwf) as Hmnd.
  assert (Hm : forall k, dict_get k m = dict_get k n).
  { intros k. unfold m. rewrite dict_get_update by exact Hnnd.
    destruct (dict_get k n) eqn:Hk; [reflexivity|].
    apply dict_get_none. apply dict_get_none in Hk. intros Hin. apply Hk.
    apply (expanded_in l n Hl Hn). left. unfold l. apply in_keys_dict_update. left. exact Hin. }
  assert (Hsig : forall k, stem_in m k = stem_in l k).
  { intros k. rewrite <- (expanded_stem_in l n Hl Hn k). unfold stem_in. rewrite Hm.
    reflexivity. }
  pose proof (stems_inert_ok registry rec l n Hn Hlnd) as Hinert.
  pose proof (expanded_keys l n Hl Hn) as Hkn.
  assert (Hkn' : keys n' = visit_all (stem_in l) [] (keys m)).
  { apply (fold_keys registry rec (stem_in l) m m [] n' Hn'). intros e He.
    rewrite <- Hsig. apply stem_in_entry; assumption. }
  assert (Hkeys : keys n' = keys n).
  { rewrite Hkn', Hkm, Hkn, Hkl.
    apply replay_keys; [exact Hinert | rewrite <- Hkl; exact Hlnd]. }
  assert (Hord : forall a b, before a b (keys n) ->
                   (In b (keys p) -> before a b (keys l)) -> before a b (keys m)).
  { intros a b H1 H2. rewrite Hkm.
    apply (before_front (keys p) (filter (absent_from (keys p)) (keys c)) (keys n));
      [rewrite <- Hkl; exact Hlnd | exact H1 | rewrite <- Hkl; exact H2]. }
  rewrite Hn'. f_equal. apply dict_ext; [rewrite Hkeys; exact Hnnd | exact Hkeys|].
  intros q. destruct (selector_dec m q) as [(e & Hin & Hs)|Hno].
  - destruct e as [k v0]. destruct (@stem_of_some _ _ Hs) as (val & Hv & _).
    simpl in Hv. subst v0.
    assert (Hinl : In (k, Leaf val) l).
    { apply dict_get_some_in. apply (expanded_leaf l n Hl Hn). rewrite <- Hm.
      apply dict_get_in; assumption. }
    destruct (stem_value registry rec l n k val q Hn Hlnd Hinl Hs) as (cls & Hcls & Hcase).
    destruct (stem_value registry rec m n' k val q Hn' Hmnd Hin Hs) as (cls' & Hcls' & Hcase').
    assert (cls' = cls) by congruence. subst cls'.
    destruct Hcase as [(Hlq & s' & Hr & Hnq & Hnext)|
                       (s0 & s1 & s2 & Hlq & Hr1 & Hr2 &
                        [(Hbl & Hnq & Hbn)|(Hbl & Hnq & Hnext)])].
    + assert (Hkq : before k q (keys m)).
      { apply Hord; [apply next_to_before; exact Hnext|].
        intros Hqp. exfalso. apply dict_get_none in Hlq. apply Hlq.
        unfold l. apply in_keys_dict_update. left. exact Hqp. }
      destruct Hcase' as [(Hmq & _)|
                          (t & t1 & t2 & Hmq & Ht1 & Ht2 & [(Hbm & _)|(_ & Hn'q & _)])].
      * rewrite Hm, Hnq in Hmq. discriminate.
      * exfalso. apply (@before_asym _ _ _ Hmnd Hbm Hkq).
      * rewrite Hm, Hnq in Hmq. injection Hmq as <-.
        pose proof (rec_idem _ _ (wf_params cls) Hr). congruence.
    + assert (Hqk : before q k (keys m)) by (apply Hord; [exact Hbn | intros _; exact Hbl]).
      destruct Hcase' as [(Hmq & _)|
                          (t & t1 & t2 & Hmq & Ht1 & Ht2 & [(_ & Hn'q & _)|(Hbm & _)])].
      * rewrite Hm, Hnq in Hmq. discriminate.
      * rewrite Hm, Hnq in Hmq. injection Hmq as <-.
        pose proof (rec_settles _ s0 _ (wf_params cls) (@wf_cfg_get _ l q s0 Hl Hlq) Hr2).
        congruence.
      * exfalso. apply (@before_asym _ _ _ Hmnd Hbm Hqk).
    + assert (Hkq : before k q (keys m)).
      { apply Hord; [apply next_to_before; exact Hnext | intros _; exact Hbl]. }
      destruct Hcase' as [(Hmq & _)|
                          (t & t1 & t2 & Hmq & Ht1 & Ht2 & [(Hbm & _)|(_ & Hn'q & _)])].
      * rewrite Hm, Hnq in Hmq. discriminate.
      * exfalso. apply (@before_asym _ _ _ Hmnd Hbm Hkq).
      * rewrite Hm, Hnq in Hmq. injection Hmq as <-.
        pose proof (rec_idem _ _ (@wf_cfg_get _ l q s0 Hl Hlq) Hr1). congruence.
  - pose proof (own_value registry rec m n' q Hn' Hmnd Hno) as Hown.
    rewrite Hm in Hown. destruct (dict_get q n) as [[x|s]|] eqn:Hnq; try exact Hown.
    destruct Hown as (s'' & Hr & Hn'q). rewrite Hn'q.
    pose proof (expanded_settled l n Hl Hn q s Hnq). congruence.
Qed.
End Settling.

(** The three properties hold of [add_default_args] at every recursion
    limit. *)
Lemma expand_properties (registry : string -> option schema) (d : nat) :
  keeps_wf (add_default_args_rec registry d) /\
  settles (add_default_args_rec registry d) /\
  carries (add_default_args_rec registry d).
Proof.
  induction d as [|d (HW & HS & HC)].
  - repeat split.
    + intros c r _ H. discriminate.
    + intros p c n _ _ H. discriminate.
    + intros p c r _ _ H. discriminate.
  - repeat split.
    + intros c r Hc Hr. simpl in Hr. eapply expanded_wf; eassumption.
    + intros p c n Hp Hc Hn. simpl in *. eapply expand_settles; eassumption.
    + intros p c r Hp Hc Hr Hx. simpl in *. eapply expand_carries; eassumption.
Qed.

(** C9 (idempotence of schema expansion).  For every configuration [x]
    in argument format, [add_default_args (add_default_args x)] is
    [add_default_args x]: when the expansion of [x] returns [y], every
    selector of [y] holds a registered schema name and its stem holds
    the fields of the schema, and the expansion of [y] returns [y]; when
    the expansion of [x] raises, so does the composition.  The keys of
    every dictionary of [x] are distinct, as those of a Python [dict]
    are. *)
Theorem expansion_idempotent (registry : string -> option schema) (depth : nat)
        (x : cfg arg) :
  wf_cfg x = true ->
  (y <- add_default_args registry depth x ;; add_default_args registry depth y)
  = add_default_args registry depth x.
Proof.
  intros Hx. unfold add_default_args.
  destruct (expand_properties registry depth) as (HW & HS & HC).
  destruct (add_default_args_rec registry depth x) as [y|e] eqn:Hy; simpl; [|reflexivity].
  apply (rec_idem (add_default_args_rec registry depth) HW HS x y Hx Hy).
Qed.

Lemma expansion_idempotent_witness :
  wf_cfg [("backbone", Dict [("z", Leaf (TInt, VInt 5))]);
          ("backbone_class", Leaf (TStr, VStr "A"));
          ("head", Dict [("neck_class", Leaf (TStr, VStr "B"))])] = true /\
  (y <- add_default_args Scenario.registry 5
          [("backbone", Dict [("z", Leaf (TInt, VInt 5))]);
           ("backbone_class", Leaf (TStr, VStr "A"));
           ("head", Dict [("neck_class", Leaf (TStr, VStr "B"))])] ;;
   add_default_args Scenario.registry 5 y)
  = add_default_args Scenario.registry 5
      [("backbone", Dict [("z", Leaf (TInt, VInt 5))]);
       ("backbone_class", Leaf (TStr, VStr "A"));
       ("head", Dict [("neck_class", Leaf (TStr, VStr "B"))])] /\
  add_default_args Scenario.registry 5
      [("backbone", Dict [("z", Leaf (TInt, VInt 5))]);
       ("backbone_class", Leaf (TStr, VStr "A"));
       ("head", Dict [("neck_class", Leaf (TStr, VStr "B"))])]
  = Ok [("backbone", Dict [("x", Leaf (TInt, VInt 1)); ("z", Leaf (TInt, VInt 5))]);
        ("backbone_class", Leaf (TStr, VStr "A"));
        ("head", Dict [("neck_class", Leaf (TStr, VStr "B"));
                       ("neck", Dict [("y", Leaf (TInt, VInt 2))])])].
Proof.
  split; [reflexivity|]. split; [|reflexivity].
  apply (expansion_idempotent Scenario.registry 5
           [("backbone", Dict [("z", Leaf (TInt, VInt 5))]);
            ("backbone_class", Leaf (TStr, VStr "A"));
            ("head", Dict [("neck_class", Leaf (TStr, VStr "B"))])]).
  reflexivity.
Defined.

(* ================================================================== *)
(** * Further properties of the converters *)

Lemma node_induction {L} (P : node L -> Prop) :
  (forall x, P (Leaf x)) ->
  (forall items, (forall kv, In kv items -> P (snd kv)) -> P (Dict items)) ->
  forall n, P n.
Proof.
  intros HL HD. fix IH 1. intros [x|items]; [apply HL|].
  apply HD. induction items as [|a tl IHtl]; intros kv Hin; [destruct Hin|].
  destruct Hin as [<-|Hin]; [apply IH | apply IHtl; exact Hin].
Qed.

Lemma forallb_agree {A} (f g : A -> bool) (l : list A) :
  (forall x, In x l -> f x = g x) -> forallb f l = forallb g l.
Proof.
  induction l as [|x tl IH]; intros H; simpl; [reflexivity|].
  rewrite (H x (or_introl eq_refl)), IH; [reflexivity|].
  intros y Hy. apply H. right. exact Hy.
Qed.

(** A loop [for key, val in items: res[key] = f(val)] over distinct
    fresh keys appends the converted entries. *)
Lemma foldM_set_map {A B} (f : A -> result B) (g : A -> B) (items : list (string * A)) :
  forall acc,
    (forall kv, In kv items -> f (snd kv) = Ok (g (snd kv))) ->
    NoDup (keys acc ++ keys items) ->
    foldM (fun res kv => a <- f (snd kv) ;; Ok (dict_set (fst kv) a res)) items acc
    = Ok (acc ++ map (fun kv => (fst kv, g (snd kv))) items).
Proof.
  induction items as [|[k v] tl IH]; intros acc Hf Hnd; simpl.
  - rewrite app_nil_r. reflexivity.
  - pose proof (Hf (k, v) (or_introl eq_refl)) as Hv. simpl in Hv. rewrite Hv. simpl.
    assert (Hk : ~ In k (keys acc)).
    { intros Hin. apply (nodup_app_disjoint (keys acc) (keys ((k, v) :: tl)) k Hnd Hin).
      left. reflexivity. }
    rewrite (dict_set_fresh _ _ _ Hk). rewrite IH.
    + rewrite <- app_assoc. reflexivity.
    + intros kv Hin. apply Hf. right. exact Hin.
    + rewrite keys_app. simpl. rewrite <- app_assoc. exact Hnd.
Qed.

(** The loop returns exactly when every conversion does. *)
Lemma foldM_set_is_ok {A B} (f : A -> result B) (items : list (string * A)) :
  forall acc,
    is_ok (foldM (fun res kv => a <- f (snd kv) ;; Ok (dict_set (fst kv) a res)) items acc)
    = forallb (fun kv => is_ok (f (snd kv))) items.
Proof.
  induction items as [|[k v] tl IH]; intros acc; simpl; [reflexivity|].
  destruct (f v) as [a|e]; simpl; [apply IH | reflexivity].
Qed.

Lemma foldM_set_raise {A B} (f : A -> result B) (items : list (string * A)) e :
  forall acc,
    foldM (fun res kv => a <- f (snd kv) ;; Ok (dict_set (fst kv) a res)) items acc = Raise e ->
    exists kv, In kv items /\ f (snd kv) = Raise e.
Proof.
  induction items as [|[k v] tl IH]; intros acc; simpl; [discriminate|].
  destruct (f v) as [a|e'] eqn:Hf; simpl.
  - intros H. destruct (IH _ H) as (kv & Hin & Hkv). exists kv. auto.
  - intros H. exists (k, v). split; [left; reflexivity | simpl; congruence].
Qed.

(** ** [to_arg_format] *)

Lemma arg_leaf_typed v : hashable v = true -> arg_leaf v = Ok (typed_leaf v).
Proof.
  intros H. unfold arg_leaf. rewrite H. destruct v; reflexivity.
Qed.

Lemma arg_leaf_is_ok v : is_ok (arg_leaf v) = hashable v.
Proof.
  unfold arg_leaf. destruct (hashable v); [destruct v|]; reflexivity.
Qed.

Lemma arg_leaf_raise v e : arg_leaf v = Raise e -> e = TypeError.
Proof.
  unfold arg_leaf. destruct (hashable v); [destruct v; discriminate|]. congruence.
Qed.

Lemma to_arg_format_node_typed : forall n,
  wf_node n = true -> all_hashable_node n = true ->
  to_arg_format_node n = Ok (typed_node n).
Proof.
  apply (node_induction (fun n => wf_node n = true -> all_hashable_node n = true ->
                                  to_arg_format_node n = Ok (typed_node n))).
  - intros v _ Hh. simpl in *. rewrite (arg_leaf_typed v Hh). reflexivity.
  - intros items IH Hwf Hh. simpl in Hh. rewrite forallb_forall in Hh.
    change (wf_cfg items = true) in Hwf.
    simpl. rewrite (foldM_set_map to_arg_format_node typed_node items []).
    + reflexivity.
    + intros kv Hin. apply (IH kv Hin); [|apply (Hh kv Hin)].
      destruct kv as [k [x|d]]; [reflexivity|].
      apply (@wf_cfg_child _ items k d Hwf Hin).
    + simpl. apply wf_cfg_nodup. exact Hwf.
Qed.

Lemma to_arg_format_node_is_ok : forall n,
  is_ok (to_arg_format_node n) = all_hashable_node n.
Proof.
  apply (node_induction (fun n => is_ok (to_arg_format_node n) = all_hashable_node n)).
  - intros v. simpl. rewrite <- arg_leaf_is_ok. destruct (arg_leaf v); reflexivity.
  - intros items IH. simpl.
    rewrite <- (forallb_agree _ _ items IH).
    rewrite <- (foldM_set_is_ok to_arg_format_node items []).
    match goal with |- is_ok (bind ?r _) = _ => destruct r; reflexivity end.
Qed.

Lemma to_arg_format_node_raise : forall n e,
  to_arg_format_node n = Raise e -> e = TypeError.
Proof.
  apply (node_induction (fun n => forall e, to_arg_format_node n = Raise e -> e = TypeError)).
  - intros v e. simpl. destruct (arg_leaf v) as [p|e'] eqn:Hl; simpl; [discriminate|].
    intros H. injection H as <-. apply (arg_leaf_raise v e' Hl).
  - intros items IH e. simpl. intros H. apply bind_raise in H.
    destruct H as [H|(a & _ & H)]; [|discriminate].
    apply foldM_set_raise in H. destruct H as (kv & Hin & Hkv).
    apply (IH kv Hin e Hkv).
Qed.

(** X1.  On a configuration with distinct keys whose terminals can all
    be hashed, [to_arg_format] returns the same configuration, keys and
    order unchanged, with every terminal [val] replaced by
    [(type(val), val)], the type being [str] for [None] and [MISSING]. *)
Theorem to_arg_format_typed (c : cfg value) :
  wf_cfg c = true -> all_hashable c = true -> to_arg_format c = Ok (typed c).
Proof.
  intros Hwf Hh. unfold to_arg_format, typed.
  unfold all_hashable in Hh. simpl in Hh. rewrite forallb_forall in Hh.
  rewrite (foldM_set_map to_arg_format_node typed_node c []).
  - reflexivity.
  - intros kv Hin. apply to_arg_format_node_typed; [|apply (Hh kv Hin)].
    destruct kv as [k [x|d]]; [reflexivity|].
    apply (@wf_cfg_child _ c k d Hwf Hin).
  - simpl. apply wf_cfg_nodup. exact Hwf.
Qed.

Lemma to_arg_format_typed_witness :
  to_arg_format [("a", Leaf (VInt 3)); ("b", Dict [("c", Leaf (VStr "s"))]);
                 ("d", Leaf VNone)]
  = Ok [("a", Leaf (TInt, VInt 3)); ("b", Dict [("c", Leaf (TStr, VStr "s"))]);
        ("d", Leaf (TStr, VNone))].
Proof.
  apply (to_arg_format_typed
           [("a", Leaf (VInt 3)); ("b", Dict [("c", Leaf (VStr "s"))]); ("d", Leaf VNone)]);
    reflexivity.
Defined.

(** X2.  [to_arg_format] returns exactly when every terminal, at every
    level, can be hashed; a list, or a tuple that holds one, makes the
    membership test of line 69 raise [TypeError], and no other error is
    raised. *)
Theorem to_arg_format_unhashable (c : cfg value) :
  is_ok (to_arg_format c) = all_hashable c /\
  (forall e, to_arg_format c = Raise e -> e = TypeError).
Proof.
  split.
  - unfold to_arg_format.
    etransitivity; [apply (foldM_set_is_ok to_arg_format_node c [])|].
    unfold all_hashable. simpl. apply forallb_agree. intros kv _. apply to_arg_format_node_is_ok.
  - intros e H. unfold to_arg_format in H. apply foldM_set_raise in H.
    destruct H as (kv & _ & Hkv). apply (to_arg_format_node_raise _ _ Hkv).
Qed.

(** ** [to_dict_format] *)

Lemma fold_set_map {A B} (g : A -> B) (items : list (string * A)) :
  forall acc,
    NoDup (keys acc ++ keys items) ->
    fold_left (fun res kv => dict_set (fst kv) (g (snd kv)) res) items acc
    = acc ++ map (fun kv => (fst kv, g (snd kv))) items.
Proof.
  induction items as [|[k v] tl IH]; intros acc Hnd; simpl.
  - rewrite app_nil_r. reflexivity.
  - assert (Hk : ~ In k (keys acc)).
    { intros Hin. apply (nodup_app_disjoint (keys acc) (keys ((k, v) :: tl)) k Hnd Hin).
      left. reflexivity. }
    rewrite (dict_set_fresh _ _ _ Hk). rewrite IH.
    + rewrite <- app_assoc. reflexivity.
    + rewrite keys_app. simpl. rewrite <- app_assoc. exact Hnd.
Qed.

Lemma keys_map_snd {A B} (g : A -> B) (items : list (string * A)) :
  keys (map (fun kv => (fst kv, g (snd kv))) items) = keys items.
Proof.
  unfold keys. rewrite map_map. apply map_ext. intros kv. reflexivity.
Qed.

Lemma map_snd_id {A} (g : A -> A) (items : list (string * A)) :
  (forall kv, In kv items -> g (snd kv) = snd kv) ->
  map (fun kv => (fst kv, g (snd kv))) items = items.
Proof.
  induction items as [|[k v] tl IH]; intros H; simpl; [reflexivity|].
  pose proof (H (k, v) (or_introl eq_refl)) as Hv. simpl in Hv. rewrite Hv.
  f_equal. apply IH. intros kv Hin. apply H. right. exact Hin.
Qed.

Lemma to_dict_format_plain_node : forall n,
  wf_node n = true -> to_dict_format_obj (plain_obj n) = n.
Proof.
  apply (node_induction (fun n => wf_node n = true -> to_dict_format_obj (plain_obj n) = n)).
  - intros v _. reflexivity.
  - intros items IH Hwf. change (wf_cfg items = true) in Hwf. simpl.
    rewrite (fold_set_map to_dict_format_obj
               (map (fun kv => (fst kv, plain_obj (snd kv))) items) []).
    + simpl. rewrite map_map. simpl. f_equal.
      apply (map_snd_id (fun v => to_dict_format_obj (plain_obj v))).
      intros kv Hin. apply (IH kv Hin).
      destruct kv as [k [x|d]]; [reflexivity|].
      apply (@wf_cfg_child _ items k d Hwf Hin).
    + simpl. rewrite keys_map_snd. apply wf_cfg_nodup. exact Hwf.
Qed.

(** X3.  On a configuration that holds no dataclass instance and whose
    keys are distinct at every level, [to_dict_format] returns a copy:
    the same keys, in the same order, with the same values. *)
Theorem to_dict_format_plain (c : cfg value) :
  wf_cfg c = true -> to_dict_format (plain_cfg c) = c.
Proof.
  intros Hwf. unfold to_dict_format, plain_cfg.
  rewrite (fold_set_map to_dict_format_obj
             (map (fun kv => (fst kv, plain_obj (snd kv))) c) []).
  - simpl. rewrite map_map. simpl.
    apply (map_snd_id (fun v => to_dict_format_obj (plain_obj v))).
    intros kv Hin. apply to_dict_format_plain_node.
    destruct kv as [k [x|d]]; [reflexivity|].
    apply (@wf_cfg_child _ c k d Hwf Hin).
  - simpl. rewrite keys_map_snd. apply wf_cfg_nodup. exact Hwf.
Qed.

Lemma to_dict_format_plain_witness :
  to_dict_format [("a", OVal (VInt 3)); ("b", ODict [("c", OVal (VStr "s"))])]
  = [("a", Leaf (VInt 3)); ("b", Dict [("c", Leaf (VStr "s"))])].
Proof.
  apply (to_dict_format_plain [("a", Leaf (VInt 3)); ("b", Dict [("c", Leaf (VStr "s"))])]).
  reflexivity.
Defined.

(** ** [flat_to_deep]: what it returns *)

Lemma dot_free_iff {L} (c : cfg L) :
  dot_free c = true <->
  (forall k, In k (keys c) -> contains_dot k = false) /\
  (forall k s, In (k, Dict s) c -> dot_free s = true).
Proof.
  unfold dot_free at 1. simpl. rewrite forallb_forall. split.
  - intros H. split.
    + intros k Hin. apply in_map_iff in Hin. destruct Hin as ([k' v] & <- & Hin).
      specialize (H _ Hin). apply andb_true_iff in H. destruct H as [H _].
      apply negb_true_iff in H. exact H.
    + intros k s Hin. specialize (H _ Hin). apply andb_true_iff in H. apply H.
  - intros [Hk Hs] [k v] Hin. simpl. apply andb_true_iff. split.
    + apply negb_true_iff. apply Hk. apply (in_map fst) in Hin. exact Hin.
    + destruct v as [x|s]; [reflexivity | apply (Hs k s Hin)].
Qed.

Section FlatToDeepShape.
Context {L : Type}.

Lemma group_step_keys (acc acc' : dict (@slot L)) q (v : L) :
  group_step acc (q, v) = Ok acc' ->
  forall k, In k (keys acc') -> In k (keys acc) \/ contains_dot k = false.
Proof.
  intros H k Hin. apply group_step_ok in H.
  destruct H as [[Hs ->]|(root & leaf & g & Hs & _ & ->)].
  - apply in_keys_dict_set in Hin. destruct Hin as [->|Hin]; [|left; exact Hin].
    right. apply split_dot_none. exact Hs.
  - apply split_dot_some in Hs. destruct Hs as [_ Hroot].
    apply in_keys_dict_set in Hin. destruct Hin as [->|Hin]; [right; exact Hroot|].
    destruct (dict_mem root acc); [left; exact Hin|].
    apply in_keys_dict_set in Hin. destruct Hin as [->|Hin]; [right; exact Hroot | left; exact Hin].
Qed.

Lemma group_fold_dot_free (c : dict L) : forall (acc slots : dict (@slot L)),
  foldM group_step c acc = Ok slots ->
  (forall k, In k (keys acc) -> contains_dot k = false) ->
  forall k, In k (keys slots) -> contains_dot k = false.
Proof.
  induction c as [|[q v] tl IH]; intros acc slots H Hacc; simpl in H.
  - injection H as <-. exact Hacc.
  - apply bind_ok in H. destruct H as (acc' & Hstep & H).
    apply (IH acc' slots H). intros k Hin.
    destruct (group_step_keys acc acc' q v Hstep k Hin) as [Hk|Hk]; [apply Hacc; exact Hk | exact Hk].
Qed.

Lemma group_fold_nodup (c : dict L) : forall (acc slots : dict (@slot L)),
  foldM group_step c acc = Ok slots -> NoDup (keys acc) -> NoDup (keys slots).
Proof.
  induction c as [|[q v] tl IH]; intros acc slots H Hacc; simpl in H.
  - injection H as <-. exact Hacc.
  - apply bind_ok in H. destruct H as (acc' & Hstep & H).
    apply (IH acc' slots H). apply group_step_ok in Hstep.
    destruct Hstep as [[_ ->]|(root & leaf & g & _ & _ & ->)].
    + apply nodup_dict_set. exact Hacc.
    + apply nodup_dict_set. destruct (dict_mem root acc); [exact Hacc|].
      apply nodup_dict_set. exact Hacc.
Qed.

(** The second loop keeps the keys and their order; what it puts under
    a key that held a group is a result of the recursive call. *)
Lemma resolve_groups_shape (rec : dict L -> result (cfg L)) : forall slots c',
  resolve_groups rec slots = Ok c' ->
  keys c' = keys slots /\
  (forall k d, In (k, Dict d) c' -> exists g, In (k, Group g) slots /\ rec g = Ok d).
Proof.
  induction slots as [|[key [x|g]] tl IH]; intros c' H; simpl in H.
  - injection H as <-. split; [reflexivity | intros k d []].
  - apply bind_ok in H. destruct H as (r & Hr & H). injection H as <-.
    destruct (IH r Hr) as [Hk Hd]. split; [simpl; f_equal; exact Hk|].
    intros k d [Heq|Hin]; [discriminate|].
    destruct (Hd k d Hin) as (g & Hg & Hrec). exists g. split; [right; exact Hg | exact Hrec].
  - apply bind_ok in H. destruct H as (d0 & Hd0 & H).
    apply bind_ok in H. destruct H as (r & Hr & H). injection H as <-.
    destruct (IH r Hr) as [Hk Hd]. split; [simpl; f_equal; exact Hk|].
    intros k d [Heq|Hin].
    + injection Heq as <- <-. exists g. split; [left; reflexivity | exact Hd0].
    + destruct (Hd k d Hin) as (g' & Hg & Hrec). exists g'. split; [right; exact Hg | exact Hrec].
Qed.

Lemma flat_to_deep_rec_shape n : forall (c : dict L) r,
  flat_to_deep_rec n c = Ok r -> wf_cfg r = true /\ dot_free r = true.
Proof.
  induction n as [|n IH]; intros c r H; simpl in H; [discriminate|].
  apply bind_ok in H. destruct H as (slots & Hslots & H).
  destruct (resolve_groups_shape _ _ _ H) as [Hk Hd]. split.
  - apply wf_cfg_iff. split.
    + rewrite Hk. apply (group_fold_nodup c [] slots Hslots). constructor.
    + intros k d Hin. destruct (Hd k d Hin) as (g & _ & Hrec). apply (IH g d Hrec).
  - apply dot_free_iff. split.
    + rewrite Hk. apply (group_fold_dot_free c [] slots Hslots). intros k [].
    + intros k d Hin. destruct (Hd k d Hin) as (g & _ & Hrec). apply (IH g d Hrec).
Qed.

(** X4.  Whatever flat dictionary it is given, when [flat_to_deep]
    returns, the keys of the result are distinct at every level and none
    of them holds a dot: every dot of a flat key has become a level of
    nesting. *)
Theorem flat_to_deep_dot_free (c : dict L) (r : cfg L) :
  flat_to_deep c = Ok r -> wf_cfg r = true /\ dot_free r = true.
Proof. apply flat_to_deep_rec_shape. Qed.
End FlatToDeepShape.

Lemma flat_to_deep_dot_free_witness :
  flat_to_deep [("a.b.c", 1%Z); ("d", 2%Z); ("a.e", 3%Z)]
  = Ok [("a", Dict [("b", Dict [("c", Leaf 1%Z)]); ("e", Leaf 3%Z)]); ("d", Leaf 2%Z)] /\
  wf_cfg [("a", Dict [("b", Dict [("c", Leaf 1%Z)]); ("e", Leaf 3%Z)]); ("d", Leaf 2%Z)] = true /\
  dot_free [("a", Dict [("b", Dict [("c", Leaf 1%Z)]); ("e", Leaf 3%Z)]); ("d", Leaf 2%Z)] = true.
Proof.
  split; [reflexivity|].
  apply (flat_to_deep_dot_free [("a.b.c", 1%Z); ("d", 2%Z); ("a.e", 3%Z)]). reflexivity.
Defined.

(** ** [flat_to_deep]: how it fails *)

Lemma foldM_app {A B} (f : A -> B -> result A) (l1 l2 : list B) : forall acc,
  foldM f (l1 ++ l2) acc = (mid <- foldM f l1 acc ;; foldM f l2 mid).
Proof.
  induction l1 as [|x tl IH]; intros acc; simpl; [reflexivity|].
  destruct (f acc x) as [acc'|e]; simpl; [apply IH | reflexivity].
Qed.

Lemma in_max_dots {L} (m : dict L) q : In q (keys m) -> (dots q <= max_dots m)%nat.
Proof.
  intros Hin. unfold max_dots.
  assert (H : Forall (fun k => (k <= list_max (map (fun kv => dots (fst kv)) m))%nat)
                     (map (fun kv => dots (fst kv)) m))
    by (apply list_max_le; apply Nat.le_refl).
  rewrite Forall_forall in H. apply H.
  apply in_map_iff in Hin. destruct Hin as (kv & <- & Hin).
  apply in_map_iff. exists kv. split; [reflexivity | exact Hin].
Qed.

Section FlatToDeepErrors.
Context {L : Type}.

(** The only error of the first loop is the assignment below a
    terminal. *)
Lemma group_step_raise (acc : dict (@slot L)) kv e :
  group_step acc kv = Raise e -> e = TypeError.
Proof.
  unfold group_step. destruct (split_dot (fst kv)) as [[root leaf]|]; [|discriminate].
  destruct (dict_mem root acc) eqn:Hm.
  - unfold dict_mem in Hm. destruct (dict_get root acc) as [[x|g]|]; try discriminate.
    intros H. congruence.
  - rewrite dict_get_set_eq. discriminate.
Qed.

Lemma group_fold_raise (c : dict L) : forall (acc : dict (@slot L)) e,
  foldM group_step c acc = Raise e -> e = TypeError.
Proof.
  induction c as [|kv tl IH]; intros acc e H; simpl in H; [discriminate|].
  apply bind_raise in H. destruct H as [H|(acc' & _ & H)].
  - apply (group_step_raise acc kv e H).
  - apply (IH acc' e H).
Qed.

Lemma groups_nonempty (c : dict L) : forall (acc slots : dict (@slot L)),
  foldM group_step c acc = Ok slots ->
  (forall a g, dict_get a acc = Some (Group g) -> g <> []) ->
  forall a g, dict_get a slots = Some (Group g) -> g <> [].
Proof.
  induction c as [|[q v] tl IH]; intros acc slots H Hacc; simpl in H.
  - injection H as <-. exact Hacc.
  - apply bind_ok in H. destruct H as (acc' & Hstep & H).
    apply (IH acc' slots H). intros a g Ha. apply group_step_ok in Hstep.
    destruct Hstep as [[_ ->]|(root & leaf & g0 & _ & _ & ->)].
    + rewrite dict_get_set in Ha. destruct (String.eqb a q); [discriminate|].
      apply (Hacc a g Ha).
    + rewrite dict_get_set in Ha. destruct (String.eqb a root) eqn:E.
      * injection Ha as <-. destruct g0 as [|[k0 v0] g0]; simpl; [discriminate|].
        destruct (String.eqb leaf k0); discriminate.
      * destruct (dict_mem root acc); [apply (Hacc a g Ha)|].
        rewrite dict_get_set, E in Ha. apply (Hacc a g Ha).
Qed.

(** The keys collected under a root have one dot less than a key of the
    flat dictionary. *)
Lemma group_max_dots (m : dict L) (slots : dict (@slot L)) a g :
  foldM group_step m [] = Ok slots -> dict_get a slots = Some (Group g) ->
  (S (max_dots g) <= max_dots m)%nat.
Proof.
  intros H Ha.
  assert (Hdot : contains_dot a = false).
  { apply (group_fold_dot_free m [] slots H); [intros k []|].
    apply dict_get_some_key in Ha. exact Ha. }
  destruct (@groups_sound L m slots H a g Ha) as [_ Hkeys].
  assert (Hne : g <> []) by (apply (groups_nonempty m [] slots H (fun a g Hg => ltac:(discriminate)) a g Ha)).
  assert (Hle : forall l, In l (keys g) -> (S (dots l) <= max_dots m)%nat).
  { intros l Hl. rewrite <- (dots_join a l Hdot). apply in_max_dots. apply Hkeys. exact Hl. }
  destruct g as [|[l0 v0] g]; [congruence|].
  pose proof (Hle l0 (or_introl eq_refl)) as H0.
  assert (Hmax : (max_dots ((l0, v0) :: g) <= pred (max_dots m))%nat).
  { unfold max_dots at 1. apply list_max_le. apply Forall_forall. intros n Hn.
    apply in_map_iff in Hn. destruct Hn as ([l v] & <- & Hin). simpl.
    apply (in_map fst) in Hin. specialize (Hle l Hin). lia. }
  lia.
Qed.

Lemma resolve_groups_raise (rec : dict L -> result (cfg L)) : forall slots e,
  resolve_groups rec slots = Raise e ->
  exists k g, In (k, Group g) slots /\ rec g = Raise e.
Proof.
  induction slots as [|[key [x|g]] tl IH]; intros e H; simpl in H; [discriminate| |].
  - apply bind_raise in H. destruct H as [H|(r & _ & H)]; [|discriminate].
    destruct (IH e H) as (k & g & Hin & Hg). exists k, g. split; [right; exact Hin | exact Hg].
  - apply bind_raise in H. destruct H as [H|(d & _ & H)].
    + exists key, g. split; [left; reflexivity | exact H].
    + apply bind_raise in H. destruct H as [H|(r & _ & H)]; [|discriminate].
      destruct (IH e H) as (k & g' & Hin & Hg). exists k, g'. split; [right; exact Hin | exact Hg].
Qed.

Lemma flat_to_deep_rec_raise n : forall (c : dict L) e,
  (max_dots c < n)%nat -> flat_to_deep_rec n c = Raise e -> e = TypeError.
Proof.
  induction n as [|n IH]; intros c e Hn H; [lia|]. simpl in H.
  apply bind_raise in H. destruct H as [H|(slots & Hslots & H)].
  - apply (group_fold_raise c [] e H).
  - apply resolve_groups_raise in H. destruct H as (k & g & Hin & Hg).
    apply (IH g e); [|exact Hg].
    assert (Hget : dict_get k slots = Some (Group g)).
    { apply dict_get_in; [|exact Hin]. apply (group_fold_nodup c [] slots Hslots). constructor. }
    pose proof (group_max_dots c slots k g Hslots Hget). lia.
Qed.

(** X5.  The only error [flat_to_deep] raises is the [TypeError] of
    line 151, the assignment [res_cfg[root][leaf] = val] where
    [res_cfg[root]] is a terminal; its recursion ends, one dot of the
    keys being consumed per level. *)
Theorem flat_to_deep_type_error (c : dict L) (e : exn) :
  flat_to_deep c = Raise e -> e = TypeError.
Proof.
  apply flat_to_deep_rec_raise. lia.
Qed.

(** After a terminal was put under [k], the first loop keeps it there or
    raises. *)
Lemma group_fold_keeps_term (c : dict L) k : forall (acc slots : dict (@slot L)),
  foldM group_step c acc = Ok slots ->
  (exists x, dict_get k acc = Some (Term x)) ->
  exists x, dict_get k slots = Some (Term x).
Proof.
  induction c as [|[q v] tl IH]; intros acc slots H Hacc; simpl in H.
  - injection H as <-. exact Hacc.
  - apply bind_ok in H. destruct H as (acc' & Hstep & H).
    apply (IH acc' slots H). destruct Hacc as [x Hx]. apply group_step_ok in Hstep.
    destruct Hstep as [[_ ->]|(root & leaf & g & _ & Hroot & ->)].
    + rewrite dict_get_set. destruct (String.eqb k q); eauto.
    + assert (Hne : String.eqb k root = false).
      { apply String.eqb_neq. intros ->. destruct Hroot as [Hr|[Hr _]]; congruence. }
      rewrite dict_get_set, Hne. destruct (dict_mem root acc); [eauto|].
      rewrite dict_get_set, Hne. eauto.
Qed.

(** X6.  A flat dictionary that holds a terminal under a key [k] without
    dot and, further on, a key [k.leaf] below it, makes [flat_to_deep]
    raise [TypeError]. *)
Theorem flat_to_deep_conflict (l1 l2 l3 : dict L) (k q leaf : string) (v w : L) :
  contains_dot k = false -> split_dot q = Some (k, leaf) ->
  flat_to_deep (l1 ++ (k, v) :: l2 ++ (q, w) :: l3) = Raise TypeError.
Proof.
  intros Hk Hq.
  destruct (flat_to_deep (l1 ++ (k, v) :: l2 ++ (q, w) :: l3)) as [r|e] eqn:H.
  - exfalso. unfold flat_to_deep in H. simpl in H.
    apply bind_ok in H. destruct H as (slots & H & _).
    apply foldM_app_ok in H. destruct H as (a1 & _ & H).
    simpl in H. apply bind_ok in H. destruct H as (a2 & Hstep & H).
    apply foldM_app_ok in H. destruct H as (a3 & H2 & H).
    simpl in H. apply bind_ok in H. destruct H as (a4 & Hstepq & _).
    assert (Ha2 : exists x, dict_get k a2 = Some (Term x)).
    { unfold group_step in Hstep. simpl in Hstep.
      apply split_dot_none in Hk. rewrite Hk in Hstep. injection Hstep as <-.
      exists v. apply dict_get_set_eq. }
    destruct (group_fold_keeps_term l2 k a2 a3 H2 Ha2) as [x Hx].
    unfold group_step in Hstepq. simpl in Hstepq. rewrite Hq in Hstepq.
    assert (Hm : dict_mem k a3 = true) by (unfold dict_mem; rewrite Hx; reflexivity).
    rewrite Hm, Hx in Hstepq. discriminate.
  - f_equal. unfold flat_to_deep in H.
    apply (flat_to_deep_rec_raise _ _ e (Nat.lt_succ_diag_r _) H).
Qed.
End FlatToDeepErrors.

Lemma flat_to_deep_type_error_witness :
  exists e, flat_to_deep [("a.b", 1%Z); ("a.b.c", 2%Z)] = Raise e /\ e = TypeError.
Proof.
  eexists. split; [reflexivity|].
  apply (flat_to_deep_type_error [("a.b", 1%Z); ("a.b.c", 2%Z)]). reflexivity.
Defined.

Lemma flat_to_deep_conflict_witness :
  flat_to_deep ([("x", 0%Z)] ++ ("a", 1%Z) :: [("y", 5%Z)] ++ ("a.b", 2%Z) :: [])
  = Raise TypeError.
Proof.
  apply (flat_to_deep_conflict [("x", 0%Z)] [("y", 5%Z)] [] "a" "a.b" "b" 1%Z 2%Z);
    reflexivity.
Defined.

(** ** Looking up the flat form *)

Section DeepToFlatLookup.
Context {L : Type}.

Lemma in_flat_spec (c : cfg L) q x :
  In (q, x) (flat_spec c) <->
  In (q, Leaf x) c \/
  exists k d q', In (k, Dict d) c /\ q = join_dot k q' /\ In (q', x) (flat_spec d).
Proof.
  unfold flat_spec at 1. simpl. rewrite in_flat_map. split.
  - intros ([k [y|d]] & Hin & Hq); simpl in Hq.
    + destruct Hq as [Heq|[]]. injection Heq as <- <-. left. exact Hin.
    + apply in_map_iff in Hq. destruct Hq as ([q' x'] & Heq & Hsub).
      unfold prefix_key in Heq. simpl in Heq. injection Heq as <- <-.
      right. exists k, d, q'. auto.
  - intros [Hin|(k & d & q' & Hin & -> & Hsub)].
    + exists (q, Leaf x). split; [exact Hin | left; reflexivity].
    + exists (k, Dict d). split; [exact Hin|]. simpl.
      apply in_map_iff. exists (q', x). split; [reflexivity | exact Hsub].
Qed.

Lemma flat_lookup_leaf (c : cfg L) k x :
  wf_cfg c = true -> dot_free c = true ->
  dict_get k c = Some (Leaf x) -> dict_get k (deep_to_flat c) = Some x.
Proof.
  intros Hwf Hdf Hk. rewrite (deep_to_flat_spec c Hwf Hdf).
  apply dict_get_in; [apply (flat_spec_keys c Hwf Hdf)|].
  apply in_flat_spec. left. apply dict_get_some_in. exact Hk.
Qed.

Lemma flat_lookup_dict (c : cfg L) k d q :
  wf_cfg c = true -> dot_free c = true ->
  dict_get k c = Some (Dict d) ->
  dict_get (join_dot k q) (deep_to_flat c) = dict_get q (deep_to_flat d).
Proof.
  intros Hwf Hdf Hk.
  pose proof (dict_get_some_in _ _ Hk) as Hin.
  assert (Hwfd : wf_cfg d = true) by (apply (@wf_cfg_get L c k d Hwf Hk)).
  assert (Hdfd : dot_free d = true).
  { apply dot_free_iff in Hdf. apply (proj2 Hdf k d Hin). }
  rewrite (deep_to_flat_spec c Hwf Hdf), (deep_to_flat_spec d Hwfd Hdfd).
  pose proof (proj1 (flat_spec_keys c Hwf Hdf)) as Hndc.
  pose proof (proj1 (flat_spec_keys d Hwfd Hdfd)) as Hndd.
  destruct (dict_get q (flat_spec d)) as [x|] eqn:Hq.
  - apply dict_get_in; [exact Hndc|]. apply in_flat_spec. right.
    exists k, d, q. repeat split; [exact Hin|]. apply dict_get_some_in. exact Hq.
  - destruct (dict_get (join_dot k q) (flat_spec c)) as [x|] eqn:Hc; [|reflexivity].
    exfalso. apply dict_get_some_in in Hc. apply in_flat_spec in Hc.
    apply dot_free_iff in Hdf. destruct Hdf as [Hkeys _].
    destruct Hc as [Hleaf|(k' & d' & q' & Hin' & Heq & Hsub)].
    + apply (in_map fst) in Hleaf. simpl in Hleaf. apply Hkeys in Hleaf.
      rewrite contains_dot_join in Hleaf. discriminate.
    + assert (Hkk : k = k').
      { rewrite <- (root_of_join k q), <- (root_of_join k' q'), Heq; [reflexivity| |].
        - apply Hkeys. apply (in_map fst) in Hin'. exact Hin'.
        - apply Hkeys. apply (in_map fst) in Hin. exact Hin. }
      subst k'. apply join_dot_inj in Heq. subst q'.
      pose proof (dict_get_in _ _ _ (wf_cfg_nodup c Hwf) Hin') as Hk'.
      rewrite Hk in Hk'. injection Hk' as ->.
      pose proof (dict_get_in _ _ _ Hndd Hsub) as Hq'. congruence.
Qed.

(** X7.  For a nested configuration with distinct keys, none of which
    holds a dot, the flat form is read like the nested one: a terminal of
    the top level is found under its key, and [deep_to_flat(cfg)[k.q]]
    is [deep_to_flat(cfg[k])[q]] for every nested dictionary [cfg[k]],
    whether [q] is there or not. *)
Theorem deep_to_flat_lookup (c : cfg L) :
  wf_cfg c = true -> dot_free c = true ->
  (forall k x, dict_get k c = Some (Leaf x) -> dict_get k (deep_to_flat c) = Some x) /\
  (forall k d q, dict_get k c = Some (Dict d) ->
                 dict_get (join_dot k q) (deep_to_flat c) = dict_get q (deep_to_flat d)).
Proof.
  intros Hwf Hdf. split.
  - intros k x. apply flat_lookup_leaf; assumption.
  - intros k d q. apply flat_lookup_dict; assumption.
Qed.

(** The flat form holds, under the dotted path, every terminal that the
    path leads to. *)
Lemma flat_lookup_path : forall n q (c : cfg L) x,
  (String.length q <= n)%nat ->
  wf_cfg c = true -> dot_free c = true ->
  get_path (components q) c = Some (Leaf x) ->
  dict_get q (deep_to_flat c) = Some x.
Proof.
  induction n as [|n IH]; intros q c x Hlen Hwf Hdf Hp.
  - destruct q; [|simpl in Hlen; lia]. simpl in Hp.
    apply flat_lookup_leaf; assumption.
  - destruct (split_dot q) as [[root leaf]|] eqn:Hs.
    + apply split_dot_some in Hs. destruct Hs as [-> Hroot].
      rewrite (components_join root leaf Hroot) in Hp.
      destruct (components leaf) as [|h t] eqn:Hc; [apply components_nonempty in Hc; contradiction|].
      change (get_path (root :: h :: t) c) with
        (match dict_get root c with Some (Dict d) => get_path (h :: t) d | _ => None end) in Hp.
      destruct (dict_get root c) as [[y|d]|] eqn:Hroot_c; try discriminate.
      rewrite (flat_lookup_dict c root d leaf Hwf Hdf Hroot_c).
      apply IH.
      * unfold join_dot in Hlen. rewrite string_app_length in Hlen. simpl in Hlen. lia.
      * apply (@wf_cfg_get L c root d Hwf Hroot_c).
      * apply dot_free_iff in Hdf. apply (proj2 Hdf root d).
        apply dict_get_some_in. exact Hroot_c.
      * rewrite Hc. exact Hp.
    + apply split_dot_none in Hs. rewrite (components_plain q Hs) in Hp. simpl in Hp.
      apply flat_lookup_leaf; assumption.
Qed.

(** X8.  Flattening what [flat_to_deep] returns gives back every entry
    of the flat dictionary that does not lie below a key holding a
    terminal: with distinct keys, [deep_to_flat(flat_to_deep(cfg))[k]]
    is [cfg[k]]. *)
Theorem flat_round_trip (c : dict L) (r : cfg L) (k : string) (x : L) :
  NoDup (keys c) -> flat_to_deep c = Ok r ->
  dict_get k c = Some x -> shadowed k c = false ->
  dict_get k (deep_to_flat r) = Some x.
Proof.
  intros Hnd Hr Hk Hsh.
  destruct (flat_to_deep_rec_shape _ c r Hr) as [Hwf Hdf].
  apply (flat_lookup_path (String.length k) k r x (Nat.le_refl _) Hwf Hdf).
  apply (@flat_to_deep_rec_path L _ c r k x Hr Hnd Hk Hsh).
Qed.
End DeepToFlatLookup.

Lemma deep_to_flat_lookup_witness :
  dict_get "d" (deep_to_flat [("a", Dict [("b", Leaf 1%Z); ("c", Leaf 2%Z)]); ("d", Leaf 3%Z)])
  = Some 3%Z /\
  dict_get (join_dot "a" "c")
           (deep_to_flat [("a", Dict [("b", Leaf 1%Z); ("c", Leaf 2%Z)]); ("d", Leaf 3%Z)])
  = dict_get "c" (deep_to_flat [("b", Leaf 1%Z); ("c", Leaf 2%Z)]).
Proof.
  destruct (deep_to_flat_lookup
              [("a", Dict [("b", Leaf 1%Z); ("c", Leaf 2%Z)]); ("d", Leaf 3%Z)]
              eq_refl eq_refl) as [H1 H2].
  split; [apply H1; reflexivity | apply H2; reflexivity].
Defined.

Lemma flat_round_trip_witness :
  exists r, flat_to_deep [("a.b", 1%Z); ("d", 3%Z); ("a.c", 2%Z)] = Ok r /\
            dict_get "a.c" (deep_to_flat r) = Some 2%Z.
Proof.
  eexists. split; [reflexivity|].
  apply (flat_round_trip [("a.b", 1%Z); ("d", 3%Z); ("a.c", 2%Z)]);
    [apply distinct_nodup | | |]; reflexivity.
Defined.

(** ** More on [add_default_args] *)

(** A loop that assigns every entry unchanged copies distinct keys. *)
Lemma foldM_copy {V} (f : dict V -> string * V -> result (dict V)) (items : dict V) :
  forall acc,
    (forall kv a, In kv items -> f a kv = Ok (dict_set (fst kv) (snd kv) a)) ->
    NoDup (keys acc ++ keys items) ->
    foldM f items acc = Ok (acc ++ items).
Proof.
  induction items as [|[k v] tl IH]; intros acc Hf Hnd; simpl.
  - rewrite app_nil_r. reflexivity.
  - rewrite (Hf (k, v) acc (or_introl eq_refl)). simpl.
    assert (Hk : ~ In k (keys acc)).
    { intros Hin. apply (nodup_app_disjoint (keys acc) (keys ((k, v) :: tl)) k Hnd Hin).
      left. reflexivity. }
    rewrite (dict_set_fresh _ _ _ Hk). rewrite IH.
    + rewrite <- app_assoc. reflexivity.
    + intros kv a Hin. apply Hf. right. exact Hin.
    + rewrite keys_app. simpl. rewrite <- app_assoc. exact Hnd.
Qed.

Lemma stem_of_selector k (val : arg) :
  endswith k class_suffix = true -> is_missing (snd val) = false ->
  stem_of (k, Leaf val) = Some (drop_suffix k class_suffix).
Proof. intros He Hm. unfold stem_of. simpl. rewrite He, Hm. reflexivity. Qed.

Section ExpansionFacts.
Variable registry : string -> option schema.

Local Notation expand := (add_default_args registry).
Local Notation lookup := (get_cfg_class registry).

Lemma expand_unselected (depth : nat) : forall c : cfg arg,
  wf_cfg c = true -> unselected c = true -> (nesting c < depth)%nat ->
  expand depth c = Ok c.
Proof.
  unfold add_default_args.
  induction depth as [|d IH]; intros c Hwf Hun Hn; [lia|]. simpl.
  apply (foldM_copy (add_step registry (add_default_args_rec registry d) c) c []).
  - intros [k [val|sub]] a Hin.
    + apply step_plain_run. unfold unselected in Hun. simpl in Hun.
      rewrite forallb_forall in Hun. specialize (Hun _ Hin). simpl in Hun.
      unfold stem_of. simpl.
      destruct (endswith k class_suffix); [|reflexivity].
      simpl in Hun. rewrite Hun. reflexivity.
    + simpl. apply step_dict_run. apply IH.
      * apply (@wf_cfg_child _ c k sub Hwf Hin).
      * unfold unselected in Hun. simpl in Hun.
        rewrite forallb_forall in Hun. apply (Hun _ Hin).
      * pose proof (@depth_le_nesting _ c k (Dict sub) Hin) as Hle.
        rewrite depth_node_dict in Hle. lia.
  - simpl. apply wf_cfg_nodup. exact Hwf.
Qed.

(** X9.  When [add_default_args] returns, every selector of the top
    level that is not [MISSING] holds a name that the registry resolves,
    and its stem is absent from [cfg] or holds a dictionary there:
    an unknown name and a terminal under the stem are errors. *)
Theorem expansion_requires (depth : nat) (c r : cfg arg) (k : string) (val : arg) :
  expand depth c = Ok r -> In (k, Leaf val) c ->
  endswith k class_suffix = true -> is_missing (snd val) = false ->
  (exists cls, lookup (snd val) = Ok cls) /\
  (forall x, dict_get (drop_suffix k class_suffix) c <> Some (Leaf x)).
Proof.
  intros H Hin He Hm. unfold add_default_args in H.
  destruct depth as [|d]; [discriminate|]. simpl in H.
  destruct (@foldM_steps_ok _ _ _ _ _ _ _ H Hin) as (a & a' & Hstep).
  destruct (step_selector _ _ _ _ _ _ _ _ Hstep (stem_of_selector k val He Hm))
    as (cls & params & r0 & Hcls & Hp & _).
  split; [exists cls; exact Hcls|].
  intros x Hx. unfold merged_params in Hp. rewrite Hx in Hp. discriminate.
Qed.

(** X10.  Schema expansion keeps every key of [cfg] and touches no
    terminal of the top level: a key holds a terminal in the result
    exactly when it holds the same terminal in [cfg]. *)
Theorem expansion_keeps_terminals (depth : nat) (c r : cfg arg) :
  wf_cfg c = true -> expand depth c = Ok r ->
  (forall k, In k (keys c) -> In k (keys r)) /\
  (forall k x, dict_get k r = Some (Leaf x) <-> dict_get k c = Some (Leaf x)).
Proof.
  intros Hwf H. unfold add_default_args in H.
  destruct depth as [|d]; [discriminate|]. simpl in H. split.
  - intros k Hk. apply (expanded_in registry _ c r Hwf H). left. exact Hk.
  - intros k x. apply (expanded_leaf registry _ c r Hwf H).
Qed.

(** X11.  A selector that is not [MISSING] and whose stem is absent from
    [cfg] gets its stem right after it in the result, holding the
    expansion of the fields of the selected class with their defaults:
    the fields themselves, [{name: (type, default)}], when none of them
    selects a class in turn. *)
Theorem expansion_adds_defaults (d : nat) (c r : cfg arg) (k : string) (val : arg) :
  wf_cfg c = true -> expand (S d) c = Ok r -> In (k, Leaf val) c ->
  endswith k class_suffix = true -> is_missing (snd val) = false ->
  dict_get (drop_suffix k class_suffix) c = None ->
  exists cls s,
    lookup (snd val) = Ok cls /\ expand d (params_of cls) = Ok s /\
    dict_get (drop_suffix k class_suffix) r = Some (Dict s) /\
    next_to k (drop_suffix k class_suffix) (keys r) /\
    (unselected (params_of cls) = true -> s = params_of cls).
Proof.
  intros Hwf H Hin He Hm Hq. unfold add_default_args in *. simpl in H.
  destruct (stem_value registry _ c r k val _ H (wf_cfg_nodup c Hwf) Hin
                       (stem_of_selector k val He Hm))
    as (cls & Hcls & [(_ & s & Hs & Hr & Hnext)|(s & s1 & s2 & Hq' & _)]); [|congruence].
  exists cls, s. repeat split; try assumption.
  intros Hun. destruct d as [|d]; [discriminate|].
  pose proof (expand_unselected (S d) (params_of cls) (wf_params cls) Hun) as Hp.
  unfold add_default_args in Hp. rewrite Hp in Hs; [congruence|].
  assert (Hn : nesting (params_of cls) = O).
  { unfold nesting. apply Nat.le_0_r. apply list_max_le. apply Forall_forall.
    intros n Hn. apply in_map_iff in Hn. destruct Hn as ([f v] & <- & Hf). simpl.
    destruct (@params_leaves cls f v (dict_get_in _ _ _ (keys_params_nodup cls) Hf))
      as [x ->].
    apply Nat.le_refl. }
  rewrite Hn. lia.
Qed.

(** X12.  When the stem of a selector holds a dictionary that comes
    before the selector in [cfg], the result holds under the stem the
    expansion of the defaults of the class overlaid with that
    dictionary. *)
Theorem expansion_stem_first (d : nat) (c r s : cfg arg) (k : string) (val : arg) :
  wf_cfg c = true -> expand (S d) c = Ok r -> In (k, Leaf val) c ->
  endswith k class_suffix = true -> is_missing (snd val) = false ->
  dict_get (drop_suffix k class_suffix) c = Some (Dict s) ->
  before (drop_suffix k class_suffix) k (keys c) ->
  exists cls s2,
    lookup (snd val) = Ok cls /\
    expand d (dict_update (params_of cls) s) = Ok s2 /\
    dict_get (drop_suffix k class_suffix) r = Some (Dict s2).
Proof.
  intros Hwf H Hin He Hm Hq Hb. unfold add_default_args in *. simpl in H.
  pose proof (wf_cfg_nodup c Hwf) as Hnd.
  destruct (stem_value registry _ c r k val _ H Hnd Hin (stem_of_selector k val He Hm))
    as (cls & Hcls & [(Hq' & _)|(s0 & s1 & s2 & Hq' & _ & Hs2 & [(_ & Hr & _)|(Hb' & _)])]).
  - congruence.
  - assert (s0 = s) by congruence. subst s0. exists cls, s2. auto.
  - exfalso. apply (@before_asym _ _ _ Hnd Hb Hb').
Qed.

(** X13.  When that dictionary comes after the selector in [cfg], the
    pass for the stem overwrites what the pass for the selector put
    there: the result holds under the stem the expansion of the
    dictionary alone, and a field of the class is there only if the
    dictionary sets it or a selector of the dictionary has it as its
    stem. *)
Theorem expansion_selector_first (d : nat) (c r s : cfg arg) (k : string) (val : arg) :
  wf_cfg c = true -> expand (S d) c = Ok r -> In (k, Leaf val) c ->
  endswith k class_suffix = true -> is_missing (snd val) = false ->
  dict_get (drop_suffix k class_suffix) c = Some (Dict s) ->
  before k (drop_suffix k class_suffix) (keys c) ->
  exists s1,
    expand d s = Ok s1 /\
    dict_get (drop_suffix k class_suffix) r = Some (Dict s1) /\
    (forall f, In f (keys s1) ->
               In f (keys s) \/ exists a, In a (keys s) /\ stem_in s a = Some f).
Proof.
  intros Hwf H Hin He Hm Hq Hb. unfold add_default_args in *. simpl in H.
  pose proof (wf_cfg_nodup c Hwf) as Hnd.
  destruct (stem_value registry _ c r k val _ H Hnd Hin (stem_of_selector k val He Hm))
    as (cls & Hcls & [(Hq' & _)|(s0 & s1 & s2 & Hq' & Hs1 & _ & [(Hb' & _)|(_ & Hr & _)])]).
  - congruence.
  - exfalso. apply (@before_asym _ _ _ Hnd Hb' Hb).
  - assert (s0 = s) by congruence. subst s0. exists s1. repeat split; try assumption.
    intros f Hf. destruct d as [|d]; [discriminate|]. simpl in Hs1.
    apply (expanded_in registry _ s s1 (@wf_cfg_get _ c _ s Hwf Hq) Hs1). exact Hf.
Qed.

(** X14.  As long as no class is selected (every [_class] key holds
    [MISSING], at every level), [add_default_args] returns the
    configuration as it is, provided the recursion limit exceeds its
    nesting. *)
Theorem expansion_unselected (depth : nat) (c : cfg arg) :
  wf_cfg c = true -> unselected c = true -> (nesting c < depth)%nat ->
  expand depth c = Ok c.
Proof. apply expand_unselected. Qed.
End ExpansionFacts.

Lemma expansion_requires_witness :
  (exists cls, get_cfg_class Scenario.registry (VStr "A") = Ok cls) /\
  (forall x, dict_get "backbone" [("backbone_class", Leaf (TStr, VStr "A"))] <> Some (Leaf x)).
Proof.
  apply (expansion_requires Scenario.registry 5
           [("backbone_class", Leaf (TStr, VStr "A"))]
           [("backbone_class", Leaf (TStr, VStr "A"));
            ("backbone", Dict [("x", Leaf (TInt, VInt 1))])]
           "backbone_class" (TStr, VStr "A"));
    try reflexivity.
  left. reflexivity.
Defined.

Lemma expansion_keeps_terminals_witness :
  In "lr" (keys [("lr", Leaf (TInt, VInt 3));
                 ("backbone_class", Leaf (TStr, VStr "A"));
                 ("backbone", Dict [("x", Leaf (TInt, VInt 1))])]) /\
  (dict_get "lr" [("lr", Leaf (TInt, VInt 3));
                  ("backbone_class", Leaf (TStr, VStr "A"));
                  ("backbone", Dict [("x", Leaf (TInt, VInt 1))])]
   = Some (Leaf (TInt, VInt 3)) <->
   dict_get "lr" [("lr", Leaf (TInt, VInt 3)); ("backbone_class", Leaf (TStr, VStr "A"))]
   = Some (Leaf (TInt, VInt 3))).
Proof.
  destruct (expansion_keeps_terminals Scenario.registry 5
              [("lr", Leaf (TInt, VInt 3)); ("backbone_class", Leaf (TStr, VStr "A"))]
              [("lr", Leaf (TInt, VInt 3));
               ("backbone_class", Leaf (TStr, VStr "A"));
               ("backbone", Dict [("x", Leaf (TInt, VInt 1))])]
              eq_refl eq_refl) as [H1 H2].
  split; [apply H1; left; reflexivity | apply H2].
Defined.

Lemma expansion_adds_defaults_witness :
  exists cls s,
    get_cfg_class Scenario.registry (VStr "A") = Ok cls /\
    add_default_args Scenario.registry 4 (params_of cls) = Ok s /\
    dict_get "backbone" [("backbone_class", Leaf (TStr, VStr "A"));
                         ("backbone", Dict [("x", Leaf (TInt, VInt 1))])]
    = Some (Dict s) /\
    next_to "backbone_class" "backbone" ["backbone_class"; "backbone"] /\
    (unselected (params_of cls) = true -> s = params_of cls).
Proof.
  apply (expansion_adds_defaults Scenario.registry 4
           [("backbone_class", Leaf (TStr, VStr "A"))]
           [("backbone_class", Leaf (TStr, VStr "A"));
            ("backbone", Dict [("x", Leaf (TInt, VInt 1))])]
           "backbone_class" (TStr, VStr "A"));
    try reflexivity.
  left. reflexivity.
Defined.

Lemma expansion_stem_first_witness :
  exists cls s2,
    get_cfg_class Scenario.registry (VStr "A") = Ok cls /\
    add_default_args Scenario.registry 4
      (dict_update (params_of cls) [("z", Leaf (TInt, VInt 5))]) = Ok s2 /\
    dict_get "backbone"
      [("backbone", Dict [("x", Leaf (TInt, VInt 1)); ("z", Leaf (TInt, VInt 5))]);
       ("backbone_class", Leaf (TStr, VStr "A"))]
    = Some (Dict s2).
Proof.
  apply (expansion_stem_first Scenario.registry 4
           [("backbone", Dict [("z", Leaf (TInt, VInt 5))]);
            ("backbone_class", Leaf (TStr, VStr "A"))]
           [("backbone", Dict [("x", Leaf (TInt, VInt 1)); ("z", Leaf (TInt, VInt 5))]);
            ("backbone_class", Leaf (TStr, VStr "A"))]
           [("z", Leaf (TInt, VInt 5))]
           "backbone_class" (TStr, VStr "A"));
    try reflexivity.
  - right. left. reflexivity.
  - exists [], ["backbone_class"]. split; [reflexivity | left; reflexivity].
Defined.

Lemma expansion_selector_first_witness :
  exists s1,
    add_default_args Scenario.registry 4 [("z", Leaf (TInt, VInt 5))] = Ok s1 /\
    dict_get "backbone"
      [("backbone_class", Leaf (TStr, VStr "A"));
       ("backbone", Dict [("z", Leaf (TInt, VInt 5))])]
    = Some (Dict s1) /\
    (forall f, In f (keys s1) ->
               In f (keys [("z", Leaf (TInt, VInt 5))]) \/
               exists a, In a (keys [("z", Leaf (TInt, VInt 5))]) /\
                         stem_in [("z", Leaf (TInt, VInt 5))] a = Some f).
Proof.
  apply (expansion_selector_first Scenario.registry 4
           [("backbone_class", Leaf (TStr, VStr "A"));
            ("backbone", Dict [("z", Leaf (TInt, VInt 5))])]
           [("backbone_class", Leaf (TStr, VStr "A"));
            ("backbone", Dict [("z", Leaf (TInt, VInt 5))])]
           [("z", Leaf (TInt, VInt 5))]
           "backbone_class" (TStr, VStr "A"));
    try reflexivity.
  - left. reflexivity.
  - exists [], ["backbone"]. split; [reflexivity | left; reflexivity].
Defined.

Lemma expansion_unselected_witness :
  add_default_args Scenario.registry 3
    [("backbone_class", Leaf (TStr, VMissing)); ("a", Dict [("b", Leaf (TInt, VInt 1))])]
  = Ok [("backbone_class", Leaf (TStr, VMissing)); ("a", Dict [("b", Leaf (TInt, VInt 1))])].
Proof.
  apply (expansion_unselected Scenario.registry 3); [reflexivity | reflexivity |].
  apply Nat.ltb_lt. reflexivity.
Defined.

(** ** More on [parse_args] and [apply_cfg_file] *)

Lemma in_keys_fold_set {A B} (g : A -> B) (items : list (string * A)) k : forall acc,
  In k (keys (fold_left (fun res kv => dict_set (fst kv) (g (snd kv)) res) items acc))
  <-> In k (keys acc) \/ In k (keys items).
Proof.
  induction items as [|[k' v'] tl IH]; intros acc; simpl; [tauto|].
  rewrite IH, in_keys_dict_set. intuition (subst; auto).
Qed.

(** [to_dict_format] keeps the keys of the top level. *)
Lemma dict_mem_to_dict_format (c : dict obj) k :
  dict_mem k (to_dict_format c) = dict_mem k c.
Proof.
  assert (H : In k (keys (to_dict_format c)) <-> In k (keys c)).
  { unfold to_dict_format. rewrite (in_keys_fold_set to_dict_format_obj c k []).
    simpl. tauto. }
  destruct (dict_mem k c) eqn:E.
  - apply dict_mem_true. apply H. apply dict_mem_true. exact E.
  - apply dict_mem_false. intros Hin. apply H in Hin.
    apply dict_mem_false in E. contradiction.
Qed.

Section MoreResolution.
Variable registry : string -> option schema.
Variable parse_known_args : list argument -> list string -> result (dict value * list string).
Variable sys_argv : list string.
Variable depth : nat.

(** X15.  [parse_args] never returns after a single pass through its
    loop: the flag computed at the top of the first pass is set, so a
    second pass follows every first pass that does not raise. *)
Theorem two_passes (load_yaml : value -> result (node value)) (fuel : nat)
        (c : dict obj) (args : option (list string)) (k : nat) (r : dict obj) :
  parse_args_run registry parse_known_args load_yaml sys_argv depth fuel c args
  = (k, Some (Ok r)) ->
  (2 <= k)%nat.
Proof.
  unfold parse_args_run.
  destruct (before_loop parse_known_args load_yaml c (actual_args sys_argv args))
    as [c'|e]; [|discriminate].
  destruct (while_loop registry parse_known_args depth (actual_args sys_argv args) fuel
                       (initial_state c' (actual_args sys_argv args)))
    as [k' res] eqn:Hw.
  intros H. injection H as <- Hres.
  destruct res as [[c''|e]|]; try discriminate. clear Hres.
  destruct fuel as [|fuel]; simpl in Hw; [discriminate|].
  destruct (iteration registry parse_known_args depth (actual_args sys_argv args)
                      (initial_state c' (actual_args sys_argv args)))
    as [st'|e] eqn:Hit; [|discriminate].
  destruct (iteration_progress _ _ _ _ _ Hit) as (_ & Hc & _).
  change (continue_flag (initial_state c' (actual_args sys_argv args))) with true in Hc.
  destruct (while_loop registry parse_known_args depth (actual_args sys_argv args) fuel st')
    as [k1 r1] eqn:Hw1.
  injection Hw as <- ->.
  destruct fuel as [|fuel]; simpl in Hw1; rewrite Hc in Hw1; [discriminate|].
  destruct (iteration registry parse_known_args depth (actual_args sys_argv args) st')
    as [st''|e]; [|discriminate].
  destruct (while_loop registry parse_known_args depth (actual_args sys_argv args) fuel st'')
    as [k2 r2].
  injection Hw1 as <- _. lia.
Qed.

(** X16.  Without a [cfg_file] key in the configuration, [parse_args]
    opens no file: what it does is the same whatever the loader would
    return. *)
Theorem no_file_without_key (load1 load2 : value -> result (node value)) (fuel : nat)
        (c : dict obj) (args : option (list string)) :
  dict_mem cfg_file_key c = false ->
  parse_args_run registry parse_known_args load1 sys_argv depth fuel c args
  = parse_args_run registry parse_known_args load2 sys_argv depth fuel c args.
Proof.
  intros Hc. unfold parse_args_run, before_loop.
  rewrite (dict_mem_to_dict_format c cfg_file_key), Hc. reflexivity.
Qed.

(** X17.  A configuration file that holds the empty mapping changes
    nothing: [apply_cfg_file] returns the configuration, provided its
    keys are distinct and free of dots and none of its nested
    dictionaries is empty. *)
Theorem empty_file (load_yaml : value -> result (node value)) (c : cfg value)
        (args : list string) (dflt path : value) (namespace : dict value)
        (rest : list string) :
  wf_cfg c = true -> dot_free c = true -> no_empty_dict c = true ->
  dict_get cfg_file_key c = Some (Leaf dflt) ->
  parse_known_args [ {| dest := cfg_file_key; adefault := Some dflt;
                        atype := ByType TStr |} ] args = Ok (namespace, rest) ->
  dict_get cfg_file_key namespace = Some path -> is_missing path = false ->
  load_yaml path = Ok (Dict []) ->
  apply_cfg_file parse_known_args load_yaml c args = Ok c.
Proof.
  intros Hwf Hdf Hne Hc Hp Hn Hm Hl.
  assert (Hrt : flat_to_deep (deep_to_flat c) = Ok c).
  { rewrite (deep_to_flat_spec c Hwf Hdf).
    unfold flat_to_deep. apply flat_to_deep_rec_spec; auto.
    apply nesting_le_max_dots; assumption. }
  unfold apply_cfg_file. rewrite Hc, Hp. simpl. rewrite Hn.
  destruct path; try discriminate; rewrite Hl; simpl; exact Hrt.
Qed.
End MoreResolution.

Lemma two_passes_witness :
  parse_args_run Scenario.registry Scenario.argparse Scenario.no_file [] 1000 5 Scenario.root
                 (Some ["--backbone_class"; "B"; "--backbone.y"; "5"])
  = (3%nat, Some (Ok [("backbone_class", OVal (VStr "B"));
                      ("backbone", OInst "B" [("y", OVal (VInt 5))])])) /\
  (2 <= 3)%nat.
Proof.
  assert (H : parse_args_run Scenario.registry Scenario.argparse Scenario.no_file [] 1000 5
                Scenario.root (Some ["--backbone_class"; "B"; "--backbone.y"; "5"])
              = (3%nat, Some (Ok [("backbone_class", OVal (VStr "B"));
                                  ("backbone", OInst "B" [("y", OVal (VInt 5))])])))
    by (vm_compute; reflexivity).
  split; [exact H|].
  apply (two_passes Scenario.registry Scenario.argparse [] 1000 Scenario.no_file 5
           Scenario.root (Some ["--backbone_class"; "B"; "--backbone.y"; "5"]) 3 _ H).
Defined.

Lemma no_file_without_key_witness :
  parse_args_run Scenario.registry Scenario.argparse Scenario.no_file [] 1000 5
                 Scenario.plain (Some ["--a"; "2"])
  = parse_args_run Scenario.registry Scenario.argparse (fun _ => Ok (Dict [])) [] 1000 5
                   Scenario.plain (Some ["--a"; "2"]).
Proof.
  apply (no_file_without_key Scenario.registry Scenario.argparse [] 1000
           Scenario.no_file (fun _ => Ok (Dict [])) 5 Scenario.plain (Some ["--a"; "2"])).
  reflexivity.
Defined.

Lemma empty_file_witness :
  apply_cfg_file Scenario.argparse (fun _ => Ok (Dict []))
                 [("cfg_file", Leaf (VStr "f.yaml")); ("a", Leaf (VInt 1))] []
  = Ok [("cfg_file", Leaf (VStr "f.yaml")); ("a", Leaf (VInt 1))].
Proof.
  eapply (empty_file Scenario.argparse (fun _ => Ok (Dict []))
            [("cfg_file", Leaf (VStr "f.yaml")); ("a", Leaf (VInt 1))] []
            (VStr "f.yaml") (VStr "f.yaml")); reflexivity.
Defined.

(** ** [str2bool] *)

Lemma lower_ascii_idem (c : ascii) : lower_ascii (lower_ascii c) = lower_ascii c.
Proof.
  destruct c as [b0 b1 b2 b3 b4 b5 b6 b7].
  destruct b0, b1, b2, b3, b4, b5, b6, b7; vm_compute; reflexivity.
Qed.

Lemma lower_idem (s : string) : lower (lower s) = lower s.
Proof.
  induction s as [|c tl IH]; simpl; [reflexivity|].
  rewrite lower_ascii_idem, IH. reflexivity.
Qed.

(** X18.  [str2bool] does not look at the case of its argument:
    [str2bool(v.lower())] is [str2bool(v)], the same value or the same
    error. *)
Theorem str2bool_case (v : string) : str2bool (lower v) = str2bool v.
Proof.
  unfold str2bool. rewrite lower_idem. reflexivity.
Qed.

(** ** [to_cls_format] *)

Lemma mapM_ok {A B} (f : A -> result B) (l : list A) : forall ys,
  mapM f l = Ok ys -> Forall2 (fun x y => f x = Ok y) l ys.
Proof.
  induction l as [|x tl IH]; intros ys H; simpl in H.
  - injection H as <-. constructor.
  - apply bind_ok in H. destruct H as (y & Hy & H).
    apply bind_ok in H. destruct H as (ys' & Hys & H). injection H as <-.
    constructor; [exact Hy | apply IH; exact Hys].
Qed.

(** The constructor of a dataclass takes no keyword that is not a field,
    needs a value for every field without default, and lists the fields
    in the order of their declaration. *)
Lemma construct_ok (cls : schema) (kwargs : dict obj) (o : obj) :
  construct cls kwargs = Ok o ->
  exists fields,
    o = OInst (sname cls) fields /\
    keys fields = map fname (sfields cls) /\
    (forall key, In key (keys kwargs) -> In key (map fname (sfields cls))) /\
    (forall f, In f (sfields cls) -> fdefault f = VMissing -> In (fname f) (keys kwargs)).
Proof.
  unfold construct.
  destruct (forallb (fun k => existsb (String.eqb k) (map fname (sfields cls))) (keys kwargs))
    eqn:Hall; [|discriminate].
  intros H. apply bind_ok in H. destruct H as (fields & Hm & H). injection H as <-.
  apply mapM_ok in Hm. exists fields. split; [reflexivity|]. split; [|split].
  - clear Hall. induction Hm as [|f [k v] fs tl Hf _ IH]; [reflexivity|].
    simpl. f_equal; [|exact IH]. simpl.
    destruct (dict_get (fname f) kwargs); [congruence|].
    destruct (fdefault f); congruence.
  - intros key Hin. rewrite forallb_forall in Hall. apply existsb_eqb_in. apply (Hall key Hin).
  - intros f Hin Hd. clear Hall.
    induction Hm as [|f' y fs tl Hf _ IH]; [destruct Hin|].
    destruct Hin as [->|Hin]; [|apply IH; exact Hin].
    destruct (dict_get (fname f) kwargs) eqn:Hg; [apply (dict_get_some_key _ _ Hg)|].
    rewrite Hd in Hf. discriminate.
Qed.

Section ClsFacts.
Variable registry : string -> option schema.
Variable rec : node value -> result (dict obj).

Local Notation lookup := (get_cfg_class registry).
Local Notation step := (cls_step registry rec).

Lemma cls_step_ok c acc k v acc' :
  step c acc (k, v) = Ok acc' ->
  match v with
  | Leaf x => acc' = dict_set k (OVal x) acc
  | Dict d =>
      exists val name cls o,
        rec (Dict d) = Ok val /\ dict_get (selector_of k) c = Some (Leaf name) /\
        lookup name = Ok cls /\ construct cls val = Ok o /\ acc' = dict_set k o acc
  end.
Proof.
  unfold cls_step. simpl. destruct v as [x|d].
  - intros H. injection H as <-. reflexivity.
  - intros H. apply bind_ok in H. destruct H as (val & Hval & H).
    apply bind_ok in H. destruct H as (cls & Hcls & H).
    apply bind_ok in H. destruct H as (o & Ho & H). injection H as <-.
    destruct (dict_get (selector_of k) c) as [[name|d']|] eqn:Hsel; try discriminate.
    exists val, name, cls, o. auto.
Qed.

(** What the loop of [to_cls_format] leaves under the keys. *)
Lemma cls_fold_get c items : forall acc r,
  foldM (step c) items acc = Ok r -> NoDup (keys acc ++ keys items) ->
  keys r = keys acc ++ keys items /\
  (forall k, In k (keys acc) -> dict_get k r = dict_get k acc) /\
  (forall k v, In (k, v) items ->
     match v with
     | Leaf x => dict_get k r = Some (OVal x)
     | Dict d =>
         exists val name cls o,
           rec (Dict d) = Ok val /\ dict_get (selector_of k) c = Some (Leaf name) /\
           lookup name = Ok cls /\ construct cls val = Ok o /\ dict_get k r = Some o
     end).
Proof.
  induction items as [|[k v] tl IH]; intros acc r H Hnd; simpl in H.
  - injection H as <-. rewrite app_nil_r. repeat split; auto. intros k v [].
  - apply bind_ok in H. destruct H as (acc' & Hstep & H).
    assert (Hk : ~ In k (keys acc)).
    { intros Hin. apply (nodup_app_disjoint (keys acc) (keys ((k, v) :: tl)) k Hnd Hin).
      left. reflexivity. }
    assert (Hacc' : exists o, acc' = dict_set k o acc /\
              match v with
              | Leaf x => o = OVal x
              | Dict d =>
                  exists val name cls,
                    rec (Dict d) = Ok val /\ dict_get (selector_of k) c = Some (Leaf name) /\
                    lookup name = Ok cls /\ construct cls val = Ok o
              end).
    { apply cls_step_ok in Hstep. destruct v as [x|d].
      - exists (OVal x). auto.
      - destruct Hstep as (val & name & cls & o & ? & ? & ? & ? & ?).
        exists o. split; [assumption|]. exists val, name, cls. auto. }
    destruct Hacc' as (o & -> & Ho).
    assert (Hkeys : keys (dict_set k o acc) = keys acc ++ [k]).
    { rewrite (dict_set_fresh _ _ _ Hk). rewrite keys_app. reflexivity. }
    destruct (IH _ r H) as (Hr & Hold & Hnew).
    { rewrite Hkeys, <- app_assoc. exact Hnd. }
    assert (Hkr : dict_get k r = Some o).
    { rewrite Hold; [apply dict_get_set_eq|]. rewrite Hkeys. apply in_or_app. right.
      left. reflexivity. }
    split; [|split].
    + rewrite Hr, Hkeys, <- app_assoc. reflexivity.
    + intros k0 Hk0. rewrite Hold.
      * apply dict_get_set_neq. intros ->. contradiction.
      * rewrite Hkeys. apply in_or_app. left. exact Hk0.
    + intros k0 v0 [Heq|Hin]; [|apply Hnew; exact Hin].
      injection Heq as <- <-. destruct v as [x|d].
      * rewrite Hkr, Ho. reflexivity.
      * destruct Ho as (val & name & cls & ? & ? & ? & ?).
        exists val, name, cls, o. auto.
Qed.
End ClsFacts.

Section ClsFormat.
Variable registry : string -> option schema.

Local Notation lookup := (get_cfg_class registry).

(** X19.  When [to_cls_format] returns on a configuration with distinct
    keys, the result has the same keys in the same order; a terminal is
    kept, and the dictionary under a key [k] has become an instance of
    the class that [cfg[k_class]] names, with the fields of that class
    in the order of their declaration. *)
Theorem to_cls_format_shape (c : cfg value) (r : dict obj) :
  NoDup (keys c) -> to_cls_format registry c = Ok r ->
  keys r = keys c /\
  (forall k x, dict_get k c = Some (Leaf x) -> dict_get k r = Some (OVal x)) /\
  (forall k d, dict_get k c = Some (Dict d) ->
     exists name cls fields,
       dict_get (selector_of k) c = Some (Leaf name) /\ lookup name = Ok cls /\
       dict_get k r = Some (OInst (sname cls) fields) /\
       keys fields = map fname (sfields cls)).
Proof.
  intros Hnd H. unfold to_cls_format in H.
  destruct (cls_fold_get registry _ c c [] r H Hnd) as (Hk & _ & Hget).
  split; [exact Hk|]. split.
  - intros k x Hc. apply (Hget k (Leaf x)). apply dict_get_some_in. exact Hc.
  - intros k d Hc.
    destruct (Hget k (Dict d) (dict_get_some_in _ _ Hc))
      as (val & name & cls & o & _ & Hsel & Hcls & Ho & Hr).
    destruct (construct_ok cls val o Ho) as (fields & -> & Hf & _).
    exists name, cls, fields. auto.
Qed.

End ClsFormat.

Lemma to_cls_format_shape_witness :
  keys [("backbone_class", OVal (VStr "B")); ("backbone", OInst "B" [("y", OVal (VInt 5))])]
  = keys [("backbone_class", Leaf (VStr "B")); ("backbone", Dict [("y", Leaf (VInt 5))])] /\
  to_cls_format Scenario.registry
    [("backbone_class", Leaf (VStr "B")); ("backbone", Dict [("y", Leaf (VInt 5))])]
  = Ok [("backbone_class", OVal (VStr "B")); ("backbone", OInst "B" [("y", OVal (VInt 5))])].
Proof.
  split; [|reflexivity].
  apply (to_cls_format_shape Scenario.registry
           [("backbone_class", Leaf (VStr "B")); ("backbone", Dict [("y", Leaf (VInt 5))])]
           [("backbone_class", OVal (VStr "B"));
            ("backbone", OInst "B" [("y", OVal (VInt 5))])]);
    [apply distinct_nodup|]; reflexivity.
Defined.


(** ** From dictionary format to class format and back *)

(** A loop that assigns to every key of [items], distinct and new, a
    value related to that of [items]. *)
Lemma foldM_assign {A B} (step : dict B -> string * A -> result (dict B))
      (R : A -> B -> Prop) (items : list (string * A)) :
  forall acc,
    NoDup (keys acc ++ keys items) ->
    (forall kv, In kv items ->
                exists o, R (snd kv) o /\ forall a, step a kv = Ok (dict_set (fst kv) o a)) ->
    exists l, foldM step items acc = Ok (acc ++ l) /\
              Forall2 (fun kv ko => fst ko = fst kv /\ R (snd kv) (snd ko)) items l.
Proof.
  induction items as [|[k v] tl IH]; intros acc Hnd Hstep; simpl.
  - exists []. rewrite app_nil_r. split; [reflexivity | constructor].
  - destruct (Hstep (k, v) (or_introl eq_refl)) as (o & Ho & Hs). rewrite Hs. simpl.
    assert (Hk : ~ In k (keys acc)).
    { intros Hin. apply (nodup_app_disjoint (keys acc) (keys ((k, v) :: tl)) k Hnd Hin).
      left. reflexivity. }
    rewrite (dict_set_fresh _ _ _ Hk).
    destruct (IH (acc ++ [(k, o)])) as (l & Hl & HF).
    + rewrite keys_app. simpl. rewrite <- app_assoc. exact Hnd.
    + intros kv Hin. apply Hstep. right. exact Hin.
    + exists ((k, o) :: l). split.
      * rewrite Hl, <- app_assoc. reflexivity.
      * constructor; [split; [reflexivity | exact Ho] | exact HF].
Qed.

Lemma forall2_keys {A B} (R : A -> B -> Prop) (items : list (string * A))
      (l : list (string * B)) :
  Forall2 (fun kv ko => fst ko = fst kv /\ R (snd kv) (snd ko)) items l ->
  keys l = keys items.
Proof.
  induction 1 as [|[k v] [k' o] tl l' [Hk _] _ IH]; [reflexivity|].
  simpl in *. rewrite Hk, IH. reflexivity.
Qed.

Lemma forall2_map {A B C} (g : B -> C) (h : A -> C) (items : list (string * A))
      (l : list (string * B)) :
  Forall2 (fun kv ko => fst ko = fst kv /\ g (snd ko) = h (snd kv)) items l ->
  map (fun ko => (fst ko, g (snd ko))) l = map (fun kv => (fst kv, h (snd kv))) items.
Proof.
  induction 1 as [|[k v] [k' o] tl l' [Hk Hv] _ IH]; [reflexivity|].
  simpl in *. rewrite Hk, Hv, IH. reflexivity.
Qed.

Lemma value_induction (P : value -> Prop) :
  P VMissing -> P VNone -> (forall b, P (VBool b)) -> (forall z, P (VInt z)) ->
  (forall s, P (VStr s)) ->
  (forall l, Forall P l -> P (VTuple l)) -> (forall l, Forall P l -> P (VList l)) ->
  P VMissingCopy ->
  forall v, P v.
Proof.
  intros H1 H2 H3 H4 H5 H6 H7 H8. fix IH 1.
  intros [| |b|z|s|l|l|];
    [exact H1 | exact H2 | apply H3 | apply H4 | apply H5 | | | exact H8].
  - apply H6. induction l as [|a tl IHtl]; constructor; [apply IH | exact IHtl].
  - apply H7. induction l as [|a tl IHtl]; constructor; [apply IH | exact IHtl].
Qed.

Lemma map_id_forall {A} (f : A -> A) (l : list A) :
  Forall (fun x => f x = x) l -> map f l = l.
Proof.
  induction 1 as [|x tl Hx _ IH]; simpl; [reflexivity|]. rewrite Hx, IH. reflexivity.
Qed.

(** Only [MISSING] is changed by a deep copy. *)
Lemma deepcopy_id : forall v, holds_missing v = false -> deepcopy v = v.
Proof.
  assert (Hlist : forall l, Forall (fun v => holds_missing v = false -> deepcopy v = v) l ->
                            existsb holds_missing l = false -> map deepcopy l = l).
  { intros l HF Hex. apply map_id_forall. rewrite Forall_forall in *.
    intros x Hx. apply (HF x Hx).
    destruct (holds_missing x) eqn:E; [|reflexivity].
    assert (existsb holds_missing l = true) by (apply existsb_exists; eauto).
    congruence. }
  apply (value_induction (fun v => holds_missing v = false -> deepcopy v = v));
    try reflexivity; try discriminate.
  - intros l HF Hex. simpl in *. rewrite (Hlist l HF Hex). reflexivity.
  - intros l HF Hex. simpl in *. rewrite (Hlist l HF Hex). reflexivity.
Qed.

Lemma copied_node_id : forall n, missing_free_node n = true -> copied_node n = n.
Proof.
  apply (node_induction (fun n => missing_free_node n = true -> copied_node n = n)).
  - intros v H. simpl in *. rewrite deepcopy_id; [reflexivity|].
    apply negb_true_iff. exact H.
  - intros items IH H. simpl in *. rewrite forallb_forall in H. f_equal.
    apply (map_snd_id copied_node). intros kv Hin. apply (IH kv Hin (H kv Hin)).
Qed.

Lemma copied_id (c : cfg value) : missing_free_inside c = true -> copied c = c.
Proof.
  unfold missing_free_inside, copied. rewrite forallb_forall. intros H.
  apply (map_snd_id (fun v => match v with Leaf x => Leaf x | Dict _ => copied_node v end)).
  intros [k [x|d]] Hin; [reflexivity|]. apply copied_node_id. apply (H _ Hin).
Qed.

(** The constructor called with exactly the fields of the class, in the
    order of their declaration, makes an instance that holds them. *)
Lemma fields_exact (fs : list field) : forall (pre suf : dict obj),
  NoDup (keys (pre ++ suf)) -> keys suf = map fname fs ->
  mapM (fun f => match dict_get (fname f) (pre ++ suf) with
                 | Some o => Ok (fname f, o)
                 | None => match fdefault f with
                           | VMissing => Raise TypeError
                           | d => Ok (fname f, OVal d)
                           end
                 end) fs = Ok suf.
Proof.
  induction fs as [|f fs IH]; intros pre suf Hnd Hk.
  - destruct suf; [reflexivity | discriminate].
  - destruct suf as [|[k o] suf]; [discriminate|].
    simpl in Hk. injection Hk as Hk1 Hk2. subst k. simpl.
    rewrite (dict_get_in (fname f) o (pre ++ (fname f, o) :: suf) Hnd)
      by (apply in_or_app; right; left; reflexivity).
    simpl.
    replace (pre ++ (fname f, o) :: suf) with ((pre ++ [(fname f, o)]) ++ suf) in *
      by (rewrite <- app_assoc; reflexivity).
    rewrite (IH (pre ++ [(fname f, o)]) suf Hnd Hk2). reflexivity.
Qed.

Lemma construct_exact (cls : schema) (val : dict obj) :
  NoDup (keys val) -> keys val = map fname (sfields cls) ->
  construct cls val = Ok (OInst (sname cls) val).
Proof.
  intros Hnd Hk. unfold construct.
  assert (Hall : forallb (fun k => existsb (String.eqb k) (map fname (sfields cls)))
                         (keys val) = true).
  { apply forallb_forall. intros k Hin. apply existsb_eqb_in. rewrite <- Hk. exact Hin. }
  rewrite Hall. pose proof (fields_exact (sfields cls) [] val Hnd Hk) as Hf.
  change ([] ++ val) with val in Hf. rewrite Hf. reflexivity.
Qed.

Section ClsRoundTrip.
Variable registry : string -> option schema.

(** What [dataclasses.asdict] and [to_dict_format] make of the object
    that [to_cls_format] assigns for a value of the configuration. *)
Local Notation back v o :=
  (asdict_inner o = copied_node v /\
   to_dict_format_obj o = match v with Leaf x => Leaf x | Dict _ => copied_node v end).

Lemma cls_round_trip_node : forall n,
  wf_node n = true -> fits_node registry n = true ->
  exists val,
    to_cls_format_node registry n = Ok val /\
    match n with
    | Leaf _ => True
    | Dict items =>
        Forall2 (fun kv ko => fst ko = fst kv /\ back (snd kv) (snd ko)) items val
    end.
Proof.
  apply (node_induction
           (fun n => wf_node n = true -> fits_node registry n = true ->
                     exists val,
                       to_cls_format_node registry n = Ok val /\
                       match n with
                       | Leaf _ => True
                       | Dict items =>
                           Forall2 (fun kv ko => fst ko = fst kv /\ back (snd kv) (snd ko))
                                   items val
                       end)).
  - intros x _ _. exists []. split; [reflexivity | exact I].
  - intros items IH Hwf Hfit. change (wf_cfg items = true) in Hwf.
    simpl in Hfit. rewrite forallb_forall in Hfit.
    destruct (foldM_assign (cls_step registry (to_cls_format_node registry) items)
                           (fun v o => back v o) items []) as (val & Hval & HF).
    + simpl. apply wf_cfg_nodup. exact Hwf.
    + intros [k [x|d]] Hin.
      * exists (OVal x). split; [split; reflexivity|]. intros a. reflexivity.
      * specialize (Hfit _ Hin). simpl in Hfit.
        destruct (dict_get (selector_of k) items) as [[name|d']|] eqn:Hsel;
          try discriminate.
        destruct name as [| | | |name| | |]; try discriminate.
        destruct (registry name) as [cls|] eqn:Hreg; [|discriminate].
        destruct (list_eq_dec string_dec (keys d) (map fname (sfields cls))) as [Hk|];
          [|discriminate].
        pose proof (@wf_cfg_child _ items k d Hwf Hin) as Hwfd.
        destruct (IH (k, Dict d) Hin Hwfd Hfit) as (sub & Hsub & HFsub).
        simpl in HFsub.
        pose proof (forall2_keys (fun v o => back v o) d sub HFsub) as Hksub.
        assert (Hcons : construct cls sub = Ok (OInst (sname cls) sub)).
        { apply construct_exact; rewrite Hksub; [apply wf_cfg_nodup; exact Hwfd | exact Hk]. }
        assert (Hback : asdict_inner (OInst (sname cls) sub) = copied_node (Dict d)).
        { simpl. f_equal. apply (forall2_map asdict_inner copied_node).
          eapply Forall2_impl; [|exact HFsub]. intros a b [H1 [H2 _]]. split; assumption. }
        exists (OInst (sname cls) sub). split; [split; exact Hback|].
        intros a. change (to_cls_format_node registry (Dict d) = Ok sub) in Hsub.
        unfold cls_step. cbn [fst snd]. rewrite Hsub. cbn [bind]. rewrite Hsel.
        unfold get_cfg_class. rewrite Hreg. cbn [bind]. rewrite Hcons. reflexivity.
    + exists val. split; [exact Hval | exact HF].
Qed.

End ClsRoundTrip.


(** ** Nested dictionaries under [add_default_args] *)

Section ExpansionNested.
Variable registry : string -> option schema.

(** X22.  A nested dictionary of [cfg] whose key is not the stem of a
    selected class (there is no selector [k_class], or it holds
    [MISSING]) is replaced by its own expansion. *)
Theorem expansion_nested (d : nat) (c r s : cfg arg) (k : string) :
  wf_cfg c = true -> add_default_args registry (S d) c = Ok r ->
  dict_get k c = Some (Dict s) ->
  (forall val, dict_get (selector_of k) c = Some (Leaf val) -> is_missing (snd val) = true) ->
  exists s', add_default_args registry d s = Ok s' /\ dict_get k r = Some (Dict s').
Proof.
  intros Hwf H Hk Hsel. unfold add_default_args in *. simpl in H.
  pose proof (wf_cfg_nodup c Hwf) as Hnd.
  assert (Hno : forall e, In e c -> stem_of e <> Some k).
  { intros [k' v] Hin Hs. destruct (@stem_of_some _ _ Hs) as (val & Hv & He & Hm & Hq).
    simpl in Hv, He, Hq. subst v.
    assert (Hk' : k' = selector_of k).
    { rewrite (endswith_decompose k' class_suffix He), <- Hq. reflexivity. }
    subst k'. rewrite (Hsel val (dict_get_in _ _ _ Hnd Hin)) in Hm. discriminate. }
  pose proof (own_value registry _ c r k H Hnd Hno) as Hown.
  rewrite Hk in Hown. exact Hown.
Qed.
End ExpansionNested.

Lemma expansion_nested_witness :
  exists s',
    add_default_args Scenario.registry 3 [("neck_class", Leaf (TStr, VStr "B"))] = Ok s' /\
    dict_get "head" [("head", Dict [("neck_class", Leaf (TStr, VStr "B"));
                                    ("neck", Dict [("y", Leaf (TInt, VInt 2))])])]
    = Some (Dict s').
Proof.
  apply (expansion_nested Scenario.registry 3
           [("head", Dict [("neck_class", Leaf (TStr, VStr "B"))])]
           [("head", Dict [("neck_class", Leaf (TStr, VStr "B"));
                           ("neck", Dict [("y", Leaf (TInt, VInt 2))])])]
           [("neck_class", Leaf (TStr, VStr "B"))] "head");
    try reflexivity.
  intros val H. discriminate.
Defined.

(** ** A terminal given after the keys below it *)

Section FlatOverwrite.
Context {L : Type}.

(** X23.  In a flat dictionary with distinct keys, a terminal under a
    key [k] without dot is in what [flat_to_deep] returns; the entries
    [k.q] given before it are dropped without error, so that flattening
    the result finds none of them. *)
Theorem flat_to_deep_terminal_wins (c : dict L) (r : cfg L) (k : string) (x : L) :
  NoDup (keys c) -> flat_to_deep c = Ok r ->
  dict_get k c = Some x -> contains_dot k = false ->
  dict_get k r = Some (Leaf x) /\
  (forall q, dict_get (join_dot k q) (deep_to_flat r) = None).
Proof.
  intros Hnd H Hk Hdot.
  destruct (flat_to_deep_rec_shape _ c r H) as [Hwf Hdf].
  assert (Hr : dict_get k r = Some (Leaf x)).
  { unfold flat_to_deep in H. simpl in H.
    apply bind_ok in H. destruct H as (slots & Hslots & H).
    destruct (@resolve_groups_get L _ slots r k H) as [Hterm _]. apply Hterm.
    apply (@group_plain_key L c slots k x Hslots Hnd Hk).
    apply split_dot_none. exact Hdot. }
  split; [exact Hr|]. intros q.
  rewrite (deep_to_flat_spec r Hwf Hdf).
  destruct (dict_get (join_dot k q) (flat_spec r)) as [y|] eqn:Hq; [|reflexivity].
  exfalso. apply dict_get_some_in in Hq. apply in_flat_spec in Hq.
  apply dot_free_iff in Hdf. destruct Hdf as [Hkeys _].
  destruct Hq as [Hleaf|(k' & d' & q' & Hin' & Heq & _)].
  - apply (in_map fst) in Hleaf. simpl in Hleaf. apply Hkeys in Hleaf.
    rewrite contains_dot_join in Hleaf. discriminate.
  - assert (Hkk : k = k').
    { rewrite <- (root_of_join k q), <- (root_of_join k' q'), Heq; [reflexivity| |].
      - apply Hkeys. apply (in_map fst) in Hin'. exact Hin'.
      - exact Hdot. }
    subst k'. pose proof (dict_get_in _ _ _ (wf_cfg_nodup r Hwf) Hin') as Hk'.
    congruence.
Qed.
End FlatOverwrite.

Lemma flat_to_deep_terminal_wins_witness :
  dict_get "a" [("a", Leaf 2%Z)] = Some (Leaf 2%Z) /\
  (forall q, dict_get (join_dot "a" q) (deep_to_flat [("a", Leaf 2%Z)]) = None).
Proof.
  apply (flat_to_deep_terminal_wins [("a.b", 1%Z); ("a", 2%Z)] [("a", Leaf 2%Z)] "a" 2%Z);
    [apply distinct_nodup | | |]; reflexivity.
Defined.
